(** * SAAME font service: a shallow embedding of [src/services/fontService.ts]

    The first part holds the embedding: the font model, the static tables,
    the glyph mutation primitive [setGlyphSB] with the two spacing methods,
    the metric queries, the binary sanitizer and the export path.  The
    second part holds the properties.

    Conventions of the embedding.

    - A JavaScript [number] is an exact rational ([Q]), the value of the
      double.  Where the source tests a value with [isNaN], or where a
      value is computed from one that may be [NaN], the type is
      [number := option Q] and [None] is [NaN].  The arithmetic by which
      Method A derives its values from the masters ([valH * 1.15] and the
      like) is the arithmetic of IEEE 754 doubles, [js_mul], [js_add] and
      [js_div], computed with the primitive floats of the kernel: its
      rounding decides the derived value ([50 * 1.15] is
      [57.49999999999999] and rounds to 57, not to 58).
    - A font is mutated in place by the source; here every operation takes
      the font and returns the font after the call.  A glyph object is
      identified by its index in [font.glyphs], so two characters that
      resolve to the same glyph object resolve to the same index.
    - The parsing library (opentype.js) is not part of the sources.  Its
      [Font.charToGlyph] is the field [cmap] of the font; its
      [Glyph.getBoundingBox] and [Font.toArrayBuffer] are variables of the
      sections that use them, and what is assumed of them is stated where it
      is used. *)

From Stdlib Require Import QArith Qround Qabs Qminmax Lqa Ascii.
From Stdlib Require Import DecimalString HexadecimalString.
From Stdlib.Strings Require Import Byte.
From Stdlib Require PrimFloat FloatOps SpecFloat Uint63.
From stdpp Require Import base option list strings gmap.

Open Scope Q_scope.

(** ** Numbers *)

(** [None] is [NaN]. *)
Definition number : Type := option Q.

(** [Math.round]: the nearest integer, halves towards plus infinity. *)
Definition Math_round (v : Q) : Q := inject_Z (Qfloor (v + (1 # 2))).

(** [Math.max] on two numbers. *)
Definition Math_max (a b : Q) : Q := if Qlt_le_dec a b then b else a.

(** [a > b] as the source writes it. *)
Definition gtb (a b : Q) : bool := if Qlt_le_dec b a then true else false.

(** *** Double arithmetic

    A decimal literal of the source ([1.15]) and a value read from the
    settings is a double: [toDouble] takes a rational to the double
    nearest to it (the correctly rounded quotient of numerator and
    denominator, exact when the rational is a double; numerator and
    denominator are taken below [2^53], as every value of the
    application is), and [ofDouble] gives the exact value of a finite
    double back. *)
Definition floatOfZ (z : Z) : PrimFloat.float :=
  match z with
  | Z0 => PrimFloat.zero
  | Zpos p => PrimFloat.of_uint63 (Uint63.of_Z (Zpos p))
  | Zneg p => PrimFloat.opp (PrimFloat.of_uint63 (Uint63.of_Z (Zpos p)))
  end.

Definition toDouble (q : Q) : PrimFloat.float :=
  PrimFloat.div (floatOfZ (Qnum q)) (floatOfZ (Zpos (Qden q))).

Definition ofDouble (f : PrimFloat.float) : Q :=
  match FloatOps.Prim2SF f with
  | SpecFloat.S754_finite s m e =>
      let v := inject_Z (Zpos m) * Qpower 2 e in
      if s then - v else v
  | _ => 0
  end.

(** [a * b], [a + b] and [a / b] as the source computes them: the
    operation of IEEE 754 binary64, rounding to nearest, ties to even. *)
Definition js_mul (a b : Q) : Q := ofDouble (PrimFloat.mul (toDouble a) (toDouble b)).
Definition js_add (a b : Q) : Q := ofDouble (PrimFloat.add (toDouble a) (toDouble b)).
Definition js_div (a b : Q) : Q := ofDouble (PrimFloat.div (toDouble a) (toDouble b)).

(** ** Paths, bounding boxes and glyphs *)

Module Cmd.
(** The kind of a path command of the library: move, line, quadratic
    curve, cubic curve, close. *)
Inductive kind : Set := M | L | Q | C | Z.

(** One entry of [glyph.path.commands].  A coordinate the command does not
    carry is [undefined] in the source and [None] here. *)
Record t : Type := mk {
  type : kind;
  x : option QArith_base.Q;
  y : option QArith_base.Q;
  x1 : option QArith_base.Q;
  y1 : option QArith_base.Q;
  x2 : option QArith_base.Q;
  y2 : option QArith_base.Q
}.
End Cmd.

Module Box.
(** The value of [glyph.getBoundingBox()]. *)
Record t : Type := mk { x1 : number; y1 : number; x2 : number; y2 : number }.

Definition zero : t := mk (Some 0) (Some 0) (Some 0) (Some 0).
End Box.

(** A glyph of the font.  [name] is [None] when the source sees [undefined]
    or [null]; [unicode] is [None] when it sees [undefined].  [commands] is
    [glyph.path.commands]: the library gives every glyph a path object, so
    the test [!glyph.path] of [setGlyphSB] never fires.  [xMin] .. [yMax] are
    the cached bounds the source deletes after it moved the outline. *)
Record Glyph : Type := mkGlyph {
  name : option string;
  unicode : option N;
  advanceWidth : Q;
  leftSideBearing : option Q;
  commands : list Cmd.t;
  xMin : option Q;
  xMax : option Q;
  yMin : option Q;
  yMax : option Q
}.

(** The font object.  [cmap c] is the index of the glyph object that
    [font.charToGlyph(c)] returns, [None] when it returns nothing.
    [ascender] and [descender] are [None] when [undefined].  [names] holds
    the English entry of each name record, [tables] the metadata tables as
    the objects of numeric fields the source reads and writes. *)
Record Font : Type := mkFont {
  glyphs : list Glyph;
  cmap : string → option nat;
  ascender : option Q;
  descender : option Q;
  unitsPerEm : Q;
  names : gmap string string;
  tables : gmap string (gmap string Q)
}.

Definition with_glyphs (font : Font) (gs : list Glyph) : Font :=
  {| glyphs := gs; cmap := cmap font; ascender := ascender font;
     descender := descender font; unitsPerEm := unitsPerEm font;
     names := names font; tables := tables font |}.

Definition with_names (font : Font) (ns : gmap string string) : Font :=
  {| glyphs := glyphs font; cmap := cmap font; ascender := ascender font;
     descender := descender font; unitsPerEm := unitsPerEm font;
     names := ns; tables := tables font |}.

Definition with_tables (font : Font) (ts : gmap string (gmap string Q)) : Font :=
  {| glyphs := glyphs font; cmap := cmap font; ascender := ascender font;
     descender := descender font; unitsPerEm := unitsPerEm font;
     names := names font; tables := ts |}.

(** [font.charToGlyph(c)]: the glyph object, with the index that
    identifies it. *)
Definition charToGlyph (font : Font) (c : string) : option (nat * Glyph) :=
  match cmap font c with
  | Some i => match glyphs font !! i with Some g => Some (i, g) | None => None end
  | None => None
  end.

(** [s.includes(sub)]. *)
Definition includes (s sub : string) : bool :=
  match String.index 0 sub s with Some _ => true | None => false end.

(** The test both [cleanMetrics] and [setGlyphSB] make:
    [glyph.name === 'space' || glyph.unicode === 32 ||
     glyph.name?.includes('space')]. *)
Definition isSpace (glyph : Glyph) : bool :=
  match name glyph with Some n => String.eqb n "space" | None => false end
  || match unicode glyph with Some u => N.eqb u 32 | None => false end
  || match name glyph with Some n => includes n "space" | None => false end.

(** [cmd.x += shift] on the three horizontal coordinates a command may
    carry, each only when it is defined. *)
Definition shiftCmd (shift : Q) (cmd : Cmd.t) : Cmd.t :=
  {| Cmd.type := Cmd.type cmd;
     Cmd.x := (λ v, v + shift) <$> Cmd.x cmd;
     Cmd.y := Cmd.y cmd;
     Cmd.x1 := (λ v, v + shift) <$> Cmd.x1 cmd;
     Cmd.y1 := Cmd.y1 cmd;
     Cmd.x2 := (λ v, v + shift) <$> Cmd.x2 cmd;
     Cmd.y2 := Cmd.y2 cmd |}.

(** The outline starts with a move command that carries its point: every
    outline the parser builds does, and an empty path does not. *)
Definition startsWithMove (cmds : list Cmd.t) : bool :=
  match cmds with
  | cmd :: _ =>
      match Cmd.type cmd, Cmd.x cmd, Cmd.y cmd with
      | Cmd.M, Some _, Some _ => true
      | _, _, _ => false
      end
  | [] => false
  end.

(** [s.toUpperCase()] and [s.toLowerCase()] on the letters A-Z and a-z;
    every other character is left as it is.  The methods call them on the
    keys of [TOPOLOGY] only. *)
Definition upperAscii (a : ascii) : ascii :=
  let c := nat_of_ascii a in
  if (97 <=? c)%nat && (c <=? 122)%nat then ascii_of_nat (c - 32) else a.

Definition lowerAscii (a : ascii) : ascii :=
  let c := nat_of_ascii a in
  if (65 <=? c)%nat && (c <=? 90)%nat then ascii_of_nat (c + 32) else a.

Fixpoint mapString (f : ascii → ascii) (s : string) : string :=
  match s with
  | EmptyString => EmptyString
  | String a rest => String (f a) (mapString f rest)
  end.

Definition toUpperCase (s : string) : string := mapString upperAscii s.
Definition toLowerCase (s : string) : string := mapString lowerAscii s.

(** [char === char.toUpperCase() && char !== char.toLowerCase()]. *)
Definition isUpper (char : string) : bool :=
  String.eqb char (toUpperCase char) && negb (String.eqb char (toLowerCase char)).

(** ** The static tables *)

(** [DIACRITICS_MAP], in the order of the source. *)
Definition DIACRITICS_TABLE : list (string * list string) :=
  [
    ("A", ["Á"; "À"; "Â"; "Ä"; "Ã"; "Å"; "Ā"; "Ă"; "Ą"; "Ǎ"; "Ǻ"]);
    ("B", ["Ḃ"; "Ḅ"]);
    ("C", ["Ç"; "Ć"; "Ĉ"; "Ċ"; "Č"]);
    ("D", ["Ď"; "Đ"; "Ḍ"; "Ḋ"; "Ḑ"]);
    ("E", ["É"; "È"; "Ê"; "Ë"; "Ē"; "Ĕ"; "Ė"; "Ę"; "Ě"]);
    ("F", ["Ḟ"]);
    ("G", ["Ĝ"; "Ğ"; "Ġ"; "Ģ"; "Ǧ"]);
    ("H", ["Ĥ"; "Ħ"; "Ḣ"; "Ḥ"]);
    ("I", ["Í"; "Ì"; "Î"; "Ï"; "Ĩ"; "Ī"; "Ĭ"; "Į"; "İ"]);
    ("J", ["Ĵ"]);
    ("K", ["Ķ"; "Ǩ"; "Ḱ"; "Ḳ"]);
    ("L", ["Ĺ"; "Ļ"; "Ľ"; "Ŀ"; "Ł"; "Ḷ"; "Ḹ"]);
    ("M", ["Ḿ"; "Ṁ"; "Ṃ"]);
    ("N", ["Ñ"; "Ń"; "Ņ"; "Ň"; "Ṅ"; "Ṇ"]);
    ("O", ["Ó"; "Ò"; "Ô"; "Ö"; "Õ"; "Ø"; "Ō"; "Ŏ"; "Ő"; "Ǒ"; "Ǿ"]);
    ("P", ["Ṕ"; "Ṗ"]);
    ("Q", []);
    ("R", ["Ŕ"; "Ŗ"; "Ř"; "Ṙ"; "Ṛ"]);
    ("S", ["Ś"; "Ŝ"; "Ş"; "Š"; "Ș"; "Ṡ"; "Ṣ"]);
    ("T", ["Ţ"; "Ť"; "Ŧ"; "Ț"; "Ṫ"; "Ṭ"]);
    ("U", ["Ú"; "Ù"; "Û"; "Ü"; "Ũ"; "Ū"; "Ŭ"; "Ů"; "Ű"; "Ų"; "Ǔ"; "Ǖ"; "Ǘ"; "Ǚ"; "Ǜ"]);
    ("V", ["Ṽ"; "Ṿ"]);
    ("W", ["Ŵ"; "Ẁ"; "Ẃ"; "Ẅ"]);
    ("X", ["Ẋ"; "Ẍ"]);
    ("Y", ["Ý"; "Ŷ"; "Ÿ"; "Ȳ"; "Ẏ"; "Ỳ"]);
    ("Z", ["Ź"; "Ż"; "Ž"; "Ẓ"]);

    ("a", ["á"; "à"; "â"; "ä"; "ã"; "å"; "ā"; "ă"; "ą"; "ǎ"; "ǻ"]);
    ("b", ["ḃ"; "ḅ"]);
    ("c", ["ç"; "ć"; "ĉ"; "ċ"; "č"]);
    ("d", ["ď"; "đ"; "ḍ"; "ḋ"; "ḑ"]);
    ("e", ["é"; "è"; "ê"; "ë"; "ē"; "ĕ"; "ė"; "ę"; "ě"]);
    ("f", ["ḟ"]);
    ("g", ["ĝ"; "ğ"; "ġ"; "ģ"; "ǧ"]);
    ("h", ["ĥ"; "ħ"; "ḣ"; "ḥ"]);
    ("i", ["í"; "ì"; "î"; "ï"; "ĩ"; "ī"; "ĭ"; "į"; "ı"]);
    ("j", ["ĵ"]);
    ("k", ["ķ"; "ǩ"; "ḱ"; "ḳ"]);
    ("l", ["ĺ"; "ļ"; "ľ"; "ŀ"; "ł"; "ḷ"; "ḹ"]);
    ("m", ["ḿ"; "ṁ"; "ṃ"]);
    ("n", ["ñ"; "ń"; "ņ"; "ň"; "ṅ"; "ṇ"]);
    ("o", ["ó"; "ò"; "ô"; "ö"; "õ"; "ø"; "ō"; "ŏ"; "ő"; "ǒ"; "ǿ"]);
    ("p", ["ṕ"; "ṗ"]);
    ("q", []);
    ("r", ["ŕ"; "ŗ"; "ř"; "ṙ"; "ṛ"]);
    ("s", ["ś"; "ŝ"; "ş"; "š"; "ș"; "ṡ"; "ṣ"]);
    ("t", ["ţ"; "ť"; "ŧ"; "ț"; "ṫ"; "ṭ"]);
    ("u", ["ú"; "ù"; "û"; "ü"; "ũ"; "ū"; "ŭ"; "ů"; "ű"; "ų"; "ǔ"; "ǖ"; "ǘ"; "ǚ"; "ǜ"]);
    ("v", ["ṽ"; "ṿ"]);
    ("w", ["ŵ"; "ẁ"; "ẃ"; "ẅ"]);
    ("x", ["ẋ"; "ẍ"]);
    ("y", ["ý"; "ÿ"; "ŷ"; "ȳ"; "ẏ"; "ỳ"]);
    ("z", ["ź"; "ż"; "ž"; "ẓ"])
  ].

(** [obj[key]] on an object written as the list of its entries. *)
Fixpoint lookupKey {A : Type} (entries : list (string * A)) (key : string) : option A :=
  match entries with
  | [] => None
  | (k, v) :: rest => if String.eqb k key then Some v else lookupKey rest key
  end.

Definition DIACRITICS_MAP (char : string) : option (list string) :=
  lookupKey DIACRITICS_TABLE char.

(** The variants the propagation loop visits: [related] when it is defined
    and not empty, nothing otherwise. *)
Definition related (char : string) : list string :=
  match DIACRITICS_MAP char with Some l => l | None => [] end.

Module Topo.
(** Edge shapes: straight, round, arch, vertex. *)
Inductive shape : Set := S | R | A | V.
Record t : Set := mk { l : shape; r : shape }.
End Topo.

(** [TOPOLOGY], in the order of the source, which is the order
    [Object.keys] visits it in. *)
Definition TOPOLOGY : list (string * Topo.t) :=
  [
    ("A", Topo.mk Topo.V Topo.V);
    ("B", Topo.mk Topo.S Topo.R);
    ("C", Topo.mk Topo.R Topo.S);
    ("D", Topo.mk Topo.S Topo.R);
    ("E", Topo.mk Topo.S Topo.S);
    ("F", Topo.mk Topo.S Topo.S);
    ("G", Topo.mk Topo.R Topo.S);
    ("H", Topo.mk Topo.S Topo.S);
    ("I", Topo.mk Topo.S Topo.S);
    ("J", Topo.mk Topo.V Topo.S);
    ("K", Topo.mk Topo.S Topo.V);
    ("L", Topo.mk Topo.S Topo.V);
    ("M", Topo.mk Topo.S Topo.S);
    ("N", Topo.mk Topo.S Topo.S);
    ("O", Topo.mk Topo.R Topo.R);
    ("P", Topo.mk Topo.S Topo.R);
    ("Q", Topo.mk Topo.R Topo.R);
    ("R", Topo.mk Topo.S Topo.V);
    ("S", Topo.mk Topo.V Topo.V);
    ("T", Topo.mk Topo.V Topo.V);
    ("U", Topo.mk Topo.S Topo.S);
    ("V", Topo.mk Topo.V Topo.V);
    ("W", Topo.mk Topo.V Topo.V);
    ("X", Topo.mk Topo.V Topo.V);
    ("Y", Topo.mk Topo.V Topo.V);
    ("Z", Topo.mk Topo.V Topo.V);
    ("a", Topo.mk Topo.R Topo.S);
    ("b", Topo.mk Topo.S Topo.R);
    ("c", Topo.mk Topo.R Topo.R);
    ("d", Topo.mk Topo.R Topo.S);
    ("e", Topo.mk Topo.R Topo.R);
    ("f", Topo.mk Topo.V Topo.V);
    ("g", Topo.mk Topo.R Topo.S);
    ("h", Topo.mk Topo.S Topo.A);
    ("i", Topo.mk Topo.S Topo.S);
    ("j", Topo.mk Topo.S Topo.S);
    ("k", Topo.mk Topo.S Topo.V);
    ("l", Topo.mk Topo.S Topo.S);
    ("m", Topo.mk Topo.S Topo.A);
    ("n", Topo.mk Topo.S Topo.A);
    ("o", Topo.mk Topo.R Topo.R);
    ("p", Topo.mk Topo.S Topo.R);
    ("q", Topo.mk Topo.R Topo.S);
    ("r", Topo.mk Topo.S Topo.V);
    ("s", Topo.mk Topo.V Topo.V);
    ("t", Topo.mk Topo.S Topo.V);
    ("u", Topo.mk Topo.S Topo.S);
    ("v", Topo.mk Topo.V Topo.V);
    ("w", Topo.mk Topo.V Topo.V);
    ("x", Topo.mk Topo.V Topo.V);
    ("y", Topo.mk Topo.V Topo.V);
    ("z", Topo.mk Topo.V Topo.V)
  ].

(** ** Settings *)

Module SB.
(** A master measurement [{lsb, rsb}]. *)
Record t : Type := mk { lsb : Q; rsb : Q }.
End SB.

Module Override.
(** An override [{lsb, rsb}]; a side is [None] when it is [null]. *)
Record t : Type := mk { lsb : option Q; rsb : option Q }.
End Override.

Module Settings.
(** [TracySettings] and [SousaSettings]: the four masters and the
    overrides, listed in the order [Object.keys(overrides)] yields. *)
Record t : Type := mk {
  H : SB.t;
  O : SB.t;
  n : SB.t;
  o : SB.t;
  overrides : list (string * Override.t)
}.
End Settings.

Section Primitive.

(** [glyph.getBoundingBox()], computed by the library from the path. *)
Variable getBoundingBox : list Cmd.t → Box.t.

(** After the left shift: the outline moved, [leftSideBearing] set, the
    cached bounds deleted. *)
Definition shiftGlyph (glyph : Glyph) (lsb shift : Q) : Glyph :=
  {| name := name glyph; unicode := unicode glyph;
     advanceWidth := advanceWidth glyph;
     leftSideBearing := Some lsb;
     commands := shiftCmd shift <$> commands glyph;
     xMin := None; xMax := None; yMin := None; yMax := None |}.

Definition setAdvanceWidth (glyph : Glyph) (w : Q) : Glyph :=
  {| name := name glyph; unicode := unicode glyph;
     advanceWidth := w;
     leftSideBearing := leftSideBearing glyph;
     commands := commands glyph;
     xMin := xMin glyph; xMax := xMax glyph;
     yMin := yMin glyph; yMax := yMax glyph |}.

(** The left half of [setGlyphSB]: [if (lsb !== null) { ... }]. *)
Definition applyLsb (glyph : Glyph) (lsb : option Q) (currentLsb : Q) : Glyph :=
  match lsb with
  | Some l =>
      let shift := l - currentLsb in
      if gtb (Qabs shift) 0.001 then shiftGlyph glyph l shift else glyph
  | None => glyph
  end.

(** The right half: [if (rsb !== null && !isNaN(bounds.x2)) { ... }],
    [bounds] being the box of the outline as it is now. *)
Definition applyRsb (glyph : Glyph) (rsb : option Q) : Glyph :=
  match rsb, Box.x2 (getBoundingBox (commands glyph)) with
  | Some r, Some bx2 => setAdvanceWidth glyph (bx2 + r)
  | _, _ => glyph
  end.

(** [setGlyphSB(font, glyphName, lsb, rsb)]; a target is [None] for
    [null]. *)
Definition setGlyphSB (font : Font) (glyphName : string) (lsb rsb : option Q) : Font :=
  match charToGlyph font glyphName with
  | None => font
  | Some (i, glyph) =>
      if isSpace glyph then font
      else
        let bounds := getBoundingBox (commands glyph) in
        match Box.x1 bounds, Box.x2 bounds with
        | Some bx1, Some _ =>
            with_glyphs font
              (<[i := applyRsb (applyLsb glyph lsb bx1) rsb]> (glyphs font))
        | _, _ => font
        end
  end.

(** *** Method A *)

(** [applyRule] of both methods: the base letter, then each of its
    variants, with the same pair. *)
Definition applyRule (font : Font) (char : string) (ruleLsb ruleRsb : option Q) : Font :=
  fold_left (λ f childChar, setGlyphSB f childChar ruleLsb ruleRsb)
    (related char)
    (setGlyphSB font char ruleLsb ruleRsb).

(** The calls [applyRule(char, lsb, rsb)] of [applyTracyMethod], in the
    order the source makes them. *)
Definition tracyRules (settings : Settings.t) : list (string * Q * Q) :=
  let H := Settings.H settings in
  let O := Settings.O settings in
  let n := Settings.n settings in
  let o := Settings.o settings in
  let valH := SB.lsb H in
  let valO := SB.lsb O in
  let valMoreH := Math_round (js_mul valH 1.15) in
  let valLessH := Math_round (js_mul valH 0.85) in
  let valMin := Math_max 5 (Math_round (js_mul valH 0.25)) in
  let valVisual := Math_round (js_div (js_add valH valO) 2) in
  let nStem := SB.lsb n in
  let nArch := SB.rsb n in
  let oRound := SB.lsb o in
  let valMoreN := Math_round (js_mul nStem 1.15) in
  let valLessO := Math_round (js_mul oRound 0.9) in
  let valMoreO := Math_round (js_mul oRound 1.10) in
  let valLowMin := Math_max 5 (Math_round (js_mul nStem 0.25)) in
  let valLowVisual := Math_round (js_div (js_add nStem oRound) 2) in
  [
    ("H", SB.lsb H, SB.rsb H);
    ("O", SB.lsb O, SB.rsb O);
    ("n", SB.lsb n, SB.rsb n);
    ("o", SB.lsb o, SB.rsb o);
    ("A", valMin, valMin);
    ("B", valH, valLessH);
    ("C", valO, valLessH);
    ("D", valH, valO);
    ("E", valH, valLessH);
    ("F", valH, valLessH);
    ("G", valO, valMoreH);
    ("H", valH, valH);
    ("I", valH, valH);
    ("J", valMin, valH);
    ("K", valH, valMin);
    ("L", valH, valMin);
    ("M", valMoreH, valMoreH);
    ("N", valMoreH, valMoreH);
    ("O", valO, valO);
    ("P", valH, valO);
    ("Q", valO, valO);
    ("R", valH, valMin);
    ("S", valVisual, valVisual);
    ("T", valMin, valMin);
    ("U", valH, valMoreH);
    ("V", valMin, valMin);
    ("W", valMin, valMin);
    ("X", valMin, valMin);
    ("Y", valMin, valMin);
    ("Z", valLessH, valLessH);
    ("b", nStem, oRound);
    ("c", oRound, valLessO);
    ("d", oRound, nStem);
    ("e", oRound, valLessO);
    ("f", valLowMin, valLowMin);
    ("g", oRound, nStem);
    ("h", valMoreN, nArch);
    ("i", valMoreN, nStem);
    ("j", nStem, nStem);
    ("k", nStem, valLowMin);
    ("l", valMoreN, nStem);
    ("m", nStem, nArch);
    ("n", nStem, nArch);
    ("n", nStem, nArch);
    ("o", oRound, oRound);
    ("p", valMoreN, oRound);
    ("q", oRound, nStem);
    ("r", nStem, valLowMin);
    ("s", valLessO, valLessO);
    ("t", nStem, valLowMin);
    ("u", nStem, nStem);
    ("v", valLowMin, valLowMin);
    ("w", valLowMin, valLowMin);
    ("x", valLowVisual, valLowVisual);
    ("y", valLowMin, valLowMin);
    ("z", valLowVisual, valLowVisual);
    ("a", oRound, nStem)
  ].

Definition applyRules (font : Font) (rules : list (string * Q * Q)) : Font :=
  fold_left (λ f '(char, ruleLsb, ruleRsb), applyRule f char (Some ruleLsb) (Some ruleRsb))
    rules font.

(** [Object.keys(overrides).forEach(...)] of both methods. *)
Definition applyOverrides (font : Font) (overrides : list (string * Override.t)) : Font :=
  fold_left (λ f '(char, ov), setGlyphSB f char (Override.lsb ov) (Override.rsb ov))
    overrides font.

Definition applyTracyMethod (font : Font) (settings : Settings.t) : Font :=
  applyOverrides (applyRules font (tracyRules settings)) (Settings.overrides settings).

(** *** Method B *)

(** [getValue(char, side, topoType)] of [applySousaMethod]; the source
    does not read [side]. *)
Definition getValue (settings : Settings.t) (char : string) (topoType : Topo.shape) : Q :=
  let H := Settings.H settings in
  let O := Settings.O settings in
  let n := Settings.n settings in
  let o := Settings.o settings in
  if isUpper char then
    match topoType with
    | Topo.S => SB.lsb H
    | Topo.R => SB.lsb O
    | Topo.V => Math_round (js_mul (SB.lsb H) 0.5)
    | Topo.A => 20
    end
  else
    match topoType with
    | Topo.S => SB.lsb n
    | Topo.A => SB.rsb n
    | Topo.R => SB.lsb o
    | Topo.V => Math_round (js_mul (SB.lsb n) 0.5)
    end.

(** Step 1 of [applySousaMethod] as the list of its calls. *)
Definition sousaRules (settings : Settings.t) : list (string * Q * Q) :=
  (λ '(char, topo),
     (char, getValue settings char (Topo.l topo), getValue settings char (Topo.r topo)))
  <$> TOPOLOGY.

(** [setMasterSafe(char, val)]. *)
Definition setMasterSafe (overrides : list (string * Override.t))
    (font : Font) (char : string) (val : SB.t) : Font :=
  match lookupKey overrides char with
  | None => setGlyphSB font char (Some (SB.lsb val)) (Some (SB.rsb val))
  | Some _ => font
  end.

Definition applySousaMethod (font : Font) (settings : Settings.t) : Font :=
  let overrides := Settings.overrides settings in
  let font1 := applyRules font (sousaRules settings) in
  let font2 := applyOverrides font1 overrides in
  let font3 := setMasterSafe overrides font2 "n" (Settings.n settings) in
  let font4 := setMasterSafe overrides font3 "o" (Settings.o settings) in
  let font5 := setMasterSafe overrides font4 "H" (Settings.H settings) in
  setMasterSafe overrides font5 "O" (Settings.O settings).

End Primitive.

(** ** Queries on a font *)

Module CharMetrics.
(** The value of [getCharMetrics]. *)
Record t : Type := mk { lsb : number; rsb : number }.
End CharMetrics.

Module Metrics.
(** The [metrics] of a [FontState]. *)
Record t : Type := mk {
  ascender : number;
  descender : number;
  unitsPerEm : Q;
  xHeight : number;
  capHeight : number
}.
End Metrics.

(** [v === 0]. *)
Definition isZero (v : number) : bool :=
  match v with Some q => Qeq_bool q 0 | None => false end.

(** [a > b] and [a < b] on numbers that may be [NaN]. *)
Definition gt_num (a b : number) : bool :=
  match a, b with Some p, Some q => gtb p q | _, _ => false end.
Definition lt_num (a b : number) : bool := gt_num b a.

(** [a - b] on numbers that may be [NaN]. *)
Definition sub_num (a b : number) : number :=
  match a, b with Some p, Some q => Some (p - q) | _, _ => None end.

(** A code point is truthy when it is defined and not zero. *)
Definition truthy (u : option N) : bool :=
  match u with Some v => negb (N.eqb v 0) | None => false end.

Inductive Extremum : Set := ExtMax | ExtMin.

Section Queries.

Variable getBoundingBox : list Cmd.t → Box.t.

(** [getCharMetrics(font, char)]. *)
Definition getCharMetrics (font : Font) (char : string) : CharMetrics.t :=
  match charToGlyph font char with
  | None => CharMetrics.mk (Some 0) (Some 0)
  | Some (_, glyph) =>
      let box := getBoundingBox (commands glyph) in
      if isZero (Box.x1 box) && isZero (Box.x2 box) && isZero (Box.y1 box)
         && isZero (Box.y2 box) && (length (commands glyph) =? 0)%nat
      then CharMetrics.mk (Some 0) (Some (advanceWidth glyph))
      else
        let lsb := Box.x1 box in
        let rsb := sub_num (Some (advanceWidth glyph)) (Box.x2 box) in
        CharMetrics.mk (Math_round <$> lsb) (Math_round <$> rsb)
  end.

(** One turn of the [forEach] of [measureMetric]. *)
Definition measureStep (font : Font) (type : Extremum)
    (acc : number * bool) (char : string) : number * bool :=
  let '(best, found) := acc in
  match charToGlyph font char with
  | Some (_, glyph) =>
      if (0 <? length (commands glyph))%nat then
        let box := getBoundingBox (commands glyph) in
        match type with
        | ExtMax =>
            if negb found || gt_num (Box.y2 box) best then (Box.y2 box, true)
            else (best, found)
        | ExtMin =>
            if negb found || lt_num (Box.y1 box) best then (Box.y1 box, true)
            else (best, found)
        end
      else (best, found)
  | None => (best, found)
  end.

(** [measureMetric(chars, type, fallback)] of [createFontState]. *)
Definition measureMetric (font : Font) (chars : list string) (type : Extremum)
    (fallback : number) : number :=
  Math_round <$> fst (fold_left (measureStep font type) chars (fallback, false)).

(** [if (g && g.unicode) { box = g.getBoundingBox(); m = box.y2 - box.y1 }],
    from the initial value [0]. *)
Definition glyphHeight (font : Font) (char : string) : number :=
  match charToGlyph font char with
  | Some (_, glyph) =>
      if truthy (unicode glyph) then
        let box := getBoundingBox (commands glyph) in
        sub_num (Box.y2 box) (Box.y1 box)
      else Some 0
  | None => Some 0
  end.

(** The [metrics] that [createFontState] computes from the parsed font. *)
Definition createFontState_metrics (font : Font) : Metrics.t :=
  {| Metrics.ascender :=
       measureMetric font ["d"; "h"; "l"; "b"; "k"; "H"] ExtMax (ascender font);
     Metrics.descender :=
       measureMetric font ["p"; "q"; "y"; "g"] ExtMin (descender font);
     Metrics.unitsPerEm := unitsPerEm font;
     Metrics.xHeight := glyphHeight font "x";
     Metrics.capHeight := glyphHeight font "H" |}.

End Queries.

(** ** The binary sanitizer *)

(** A call of [stripLayoutTables] sees two [ArrayBuffer] objects: the one
    the caller passed and, once [buffer.slice(0)] ran, the copy. *)
Inductive BufferRef : Set := CallerBuffer | NewBuffer.

Record Heap : Type := mkHeap {
  callerBytes : list byte;
  newBytes : option (list byte)
}.

Definition deref (h : Heap) (r : BufferRef) : option (list byte) :=
  match r with
  | CallerBuffer => Some (callerBytes h)
  | NewBuffer => newBytes h
  end.

(** [new DataView(r).getUint8(offset)]; [None] is the [RangeError]. *)
Definition getUint8 (h : Heap) (r : BufferRef) (offset : nat) : option byte :=
  buf ← deref h r; buf !! offset.

(** [getUint16(offset)], big-endian. *)
Definition getUint16 (h : Heap) (r : BufferRef) (offset : nat) : option N :=
  hi ← getUint8 h r offset;
  lo ← getUint8 h r (offset + 1);
  Some (Byte.to_N hi * 256 + Byte.to_N lo)%N.

(** [setUint8(offset, v)]; [None] is the [RangeError]. *)
Definition setUint8 (h : Heap) (r : BufferRef) (offset : nat) (v : byte) : option Heap :=
  buf ← deref h r;
  if decide (offset < length buf)%nat then
    Some match r with
         | CallerBuffer => mkHeap (<[offset := v]> buf) (newBytes h)
         | NewBuffer => mkHeap (callerBytes h) (Some (<[offset := v]> buf))
         end
  else None.

(** [buffer.slice(0)]. *)
Definition sliceCaller (h : Heap) : Heap := mkHeap (callerBytes h) (Some (callerBytes h)).

Definition layoutTags : list string := ["GPOS"; "GSUB"; "GDEF"; "JSTF"; "BASE"; "kern"].

(** ['void'] in ASCII: 118, 111, 105, 100. *)
Definition voidTag : list byte := [x76; x6f; x69; x64]%byte.

(** The body of the [for] loop, [n] turns from [offset] on. *)
Fixpoint stripLoop (n : nat) (offset : nat) (h : Heap) : option Heap :=
  match n with
  | O => Some h
  | S n' =>
      t1 ← getUint8 h NewBuffer offset;
      t2 ← getUint8 h NewBuffer (offset + 1);
      t3 ← getUint8 h NewBuffer (offset + 2);
      t4 ← getUint8 h NewBuffer (offset + 3);
      let tag := String.string_of_list_byte [t1; t2; t3; t4] in
      h' ← (if bool_decide (tag ∈ layoutTags) then
              h1 ← setUint8 h NewBuffer offset x76%byte;
              h2 ← setUint8 h1 NewBuffer (offset + 1) x6f%byte;
              h3 ← setUint8 h2 NewBuffer (offset + 2) x69%byte;
              setUint8 h3 NewBuffer (offset + 3) x64%byte
            else Some h);
      stripLoop n' (offset + 16) h'
  end.

(** The [try] block: [None] when a read or write threw. *)
Definition stripTry (h : Heap) : option Heap :=
  numTables ← getUint16 h CallerBuffer 4;
  stripLoop (N.to_nat numTables) 12 (sliceCaller h).

(** [stripLayoutTables(buffer)]: the buffer object it returns and the heap
    it leaves.  After a throw the heap keeps the copy as far as the loop
    patched it; the model drops it, no one holds a reference to it. *)
Definition stripLayoutTables (buffer : list byte) : BufferRef * Heap :=
  let h := mkHeap buffer None in
  match stripTry h with
  | Some h' => (NewBuffer, h')
  | None => (CallerBuffer, h)
  end.

(** The bytes of the returned buffer. *)
Definition stripped (buffer : list byte) : list byte :=
  let '(r, h) := stripLayoutTables buffer in
  default [] (deref h r).

(** The tag of directory entry [i] of a buffer. *)
Definition tagAt (buf : list byte) (i : nat) : list byte :=
  take 4 (drop (12 + 16 * i) buf).

(** ** Export: glyph names, tables, serialization *)

Definition isWhitespace (a : ascii) : bool :=
  let c := nat_of_ascii a in
  ((9 <=? c) && (c <=? 13) || (c =? 32) || (c =? 160))%nat.

Fixpoint allChars (p : ascii → bool) (s : string) : bool :=
  match s with
  | EmptyString => true
  | String a rest => p a && allChars p rest
  end.

(** [String(name).trim() === '']. *)
Definition trimIsEmpty (s : string) : bool := allChars isWhitespace s.

Definition isAlnum (a : ascii) : bool :=
  let c := nat_of_ascii a in
  ((97 <=? c) && (c <=? 122) || (65 <=? c) && (c <=? 90) || (48 <=? c) && (c <=? 57))%nat.

(** The class [[a-zA-Z0-9._]] of the sanitizing expression. *)
Definition isSafeChar (a : ascii) : bool :=
  isAlnum a || Ascii.eqb a "." || Ascii.eqb a "_".

(** [s.replace(/[^a-zA-Z0-9._]/g, '_')]. *)
Definition replaceUnsafe (s : string) : string :=
  mapString (λ a, if isSafeChar a then a else "_"%char) s.

(** [n.toString(16)] and the decimal a template literal prints. *)
Definition toString16 (u : N) : string :=
  HexadecimalString.NilZero.string_of_uint (N.to_hex_uint u).
Definition toString10 (i : nat) : string :=
  DecimalString.NilZero.string_of_uint (Nat.to_uint i).

Fixpoint zeros (k : nat) : string :=
  match k with O => EmptyString | S k' => String "0" (zeros k') end.

(** [s.padStart(4, '0')]. *)
Definition padStart4 (s : string) : string :=
  String.append (zeros (4 - String.length s)) s.

Definition with_name (glyph : Glyph) (nm : string) : Glyph :=
  {| name := Some nm; unicode := unicode glyph;
     advanceWidth := advanceWidth glyph;
     leftSideBearing := leftSideBearing glyph;
     commands := commands glyph;
     xMin := xMin glyph; xMax := xMax glyph;
     yMin := yMin glyph; yMax := yMax glyph |}.

Definition gid (i : nat) : string := String.append "gid" (toString10 i).

(** Step 1 of the loop of [ensureGlyphNames]: the name after
    "assign name if missing". *)
Definition assignedName (i : nat) (glyph : Glyph) : string :=
  let missing :=
    match name glyph with
    | None => true
    | Some nm => trimIsEmpty nm
    end in
  if missing then
    match unicode glyph with
    | Some u =>
        if truthy (Some u)
        then String.append "uni" (padStart4 (toUpperCase (toString16 u)))
        else gid i
    | None => gid i
    end
  else default EmptyString (name glyph).

(** One turn of the loop of [ensureGlyphNames]. *)
Definition ensureGlyphName (i : nat) (glyph : Glyph) : Glyph :=
  let safeName := replaceUnsafe (assignedName i glyph) in
  let safeName := if (String.length safeName =? 0)%nat then gid i else safeName in
  with_name glyph safeName.

(** [ensureGlyphNames(font)]. *)
Definition ensureGlyphNames (font : Font) : Font :=
  if (length (glyphs font) =? 0)%nat then font
  else with_glyphs font (imap ensureGlyphName (glyphs font)).

Fixpoint filterString (p : ascii → bool) (s : string) : string :=
  match s with
  | EmptyString => EmptyString
  | String a rest => if p a then String a (filterString p rest) else filterString p rest
  end.

(** [prepareFontForExport(font, familyName)]; [now] is [Date.now()]. *)
Definition prepareFontForExport (now : N) (font : Font) (familyName : string) : Font :=
  let nameStr :=
    filterString (λ a, isAlnum a || Ascii.eqb a "-" || Ascii.eqb a " ") familyName in
  let psName := filterString (λ a, negb (isWhitespace a)) nameStr in
  with_names font
    (<["version" := "Version 1.0 SAAME"]>
     (<["uniqueID" :=
          String.append "SAAME:" (String.append psName
            (String.append ":" (toString10 (N.to_nat now))))]>
     (<["postScriptName" := psName]>
     (<["fullName" := nameStr]>
     (<["fontSubfamily" := "Regular"]>
     (<["fontFamily" := nameStr]> ∅)))))).

(** [if (!font.tables.t) font.tables.t = {}]. *)
Definition ensureTable (t : string) (ts : gmap string (gmap string Q)) :
    gmap string (gmap string Q) :=
  match ts !! t with Some _ => ts | None => <[t := ∅]> ts end.

(** [font.tables.t.f = v], the table being there. *)
Definition setField (t f : string) (v : Q) (ts : gmap string (gmap string Q)) :
    gmap string (gmap string Q) :=
  alter (insert f v) t ts.

Definition getField (t f : string) (ts : gmap string (gmap string Q)) : option Q :=
  tb ← ts !! t; tb !! f.

(** [font.tables.t.f = font.tables.t.f || d]. *)
Definition defaultField (t f : string) (d : Q) (ts : gmap string (gmap string Q)) :
    gmap string (gmap string Q) :=
  match getField t f ts with
  | Some v => if Qeq_bool v 0 then setField t f d ts else setField t f v ts
  | None => setField t f d ts
  end.

(** [if (font.tables.t.f === undefined) font.tables.t.f = d]. *)
Definition initField (t f : string) (d : Q) (ts : gmap string (gmap string Q)) :
    gmap string (gmap string Q) :=
  match getField t f ts with
  | Some _ => ts
  | None => setField t f d ts
  end.

(** Steps 4 to 6 of [createFontUrl] on [font.tables]. *)
Definition exportTables (asc desc : option Q) (ts : gmap string (gmap string Q)) :
    gmap string (gmap string Q) :=
  let ts := ensureTable "post" ts in
  let ts := setField "post" "version" 3 ts in
  let ts := defaultField "post" "italicAngle" 0 ts in
  let ts := defaultField "post" "underlinePosition" (-100) ts in
  let ts := defaultField "post" "underlineThickness" 50 ts in
  let ts := defaultField "post" "isFixedPitch" 0 ts in
  let ts := setField "post" "minMemType42" 0 ts in
  let ts := setField "post" "maxMemType42" 0 ts in
  let ts := setField "post" "minMemType1" 0 ts in
  let ts := setField "post" "maxMemType1" 0 ts in
  let ts := ensureTable "os2" ts in
  let ts := initField "os2" "version" 1 ts in
  let ts := defaultField "os2" "usWeightClass" 400 ts in
  let ts := defaultField "os2" "usWidthClass" 5 ts in
  let ts := defaultField "os2" "ulCodePageRange1" 1 ts in
  let ts := defaultField "os2" "ulCodePageRange2" 0 ts in
  let ts := ensureTable "hhea" ts in
  let ascender := default 800 asc in
  let descender := default (-200) desc in
  let ts := setField "os2" "sTypoAscender" ascender ts in
  let ts := setField "os2" "sTypoDescender" descender ts in
  let ts := setField "os2" "sTypoLineGap" 0 ts in
  let ts := setField "os2" "usWinAscent" ascender ts in
  let ts := setField "os2" "usWinDescent" (Qabs descender) ts in
  let ts := setField "hhea" "ascender" ascender ts in
  let ts := setField "hhea" "descender" descender ts in
  setField "hhea" "lineGap" 0 ts.

(** How a call ends: with a value or with a thrown error. *)
Inductive Completion (A : Type) : Type :=
  | Returns (a : A)
  | Throws (message : string).
Arguments Returns {A} a.
Arguments Throws {A} message.

(** What a call of [createFontUrl] leaves: how it ended, what it wrote with
    [console.error], and the font object after it. *)
Record Exported : Type := mkExported {
  completion : Completion string;
  consoleErrors : list string;
  fontAfter : Font
}.

Section Serialization.

(** [font.toArrayBuffer()] of the library: it may throw; the buffer it
    returns is [None] when it is [null] or [undefined]. *)
Variable toArrayBuffer : Font → Completion (option (list byte)).

(** [URL.createObjectURL(new Blob([buffer], ...))] of the host. *)
Variable createObjectURL : list byte → string.

(** Everything [createFontUrl] does to the font before it serializes:
    step 1 deletes the layout tables the parser may have rebuilt, step 2
    rewrites the names, step 3 the glyph names, steps 4 to 6 the [post],
    [os2] and [hhea] tables. *)
Definition exportPrepared (now : N) (font : Font) (familyName : string) : Font :=
  let font1 := with_tables font (delete "gdef" (delete "gsub" (delete "gpos"
                  (delete "kern" (tables font))))) in
  let font2 := prepareFontForExport now font1 familyName in
  let font3 := ensureGlyphNames font2 in
  with_tables font3 (exportTables (ascender font3) (descender font3) (tables font3)).

(** [silentToArrayBuffer(font)]: the serializer of the library, called
    while the three console functions are replaced by filters that drop its
    own messages and restored afterwards; what it returns or throws is what
    [font.toArrayBuffer()] returns or throws. *)
Definition silentToArrayBuffer (font : Font) : Completion (option (list byte)) :=
  toArrayBuffer font.

(** The [try] block of [createFontUrl], from the call of the serializer on. *)
Definition createFontUrlTry (prepared : Font) : Completion string :=
  match silentToArrayBuffer prepared with
  | Throws e => Throws e
  | Returns None => Throws "Generated font buffer is empty"
  | Returns (Some buffer) =>
      if (length buffer =? 0)%nat then Throws "Generated font buffer is empty"
      else Returns (createObjectURL buffer)
  end.

(** [createFontUrl(font, familyName)]; [now] is [Date.now()]. *)
Definition createFontUrl (now : N) (font : Font) (familyName : string) : Exported :=
  let prepared := exportPrepared now font familyName in
  match createFontUrlTry prepared with
  | Returns url => mkExported (Returns url) [] prepared
  | Throws _ => mkExported (Returns EmptyString) ["Error creating font URL"] prepared
  end.

End Serialization.

(** ** A bounding box for outlines of straight segments

    The library's box of a path is the smallest box that holds the path,
    and the all-zero box when the path has no point.  [pointsBoundingBox]
    grows an empty box ([NaN] on every side) by every point the commands
    carry and falls back to the origin when a side stayed [NaN]: on a path
    of move, line and close commands this is the library's computation.  It
    is the box the concrete fonts below are measured with. *)

(** [if (isNaN(lo) || isNaN(hi)) { lo = v; hi = v }
     if (v < lo) lo = v; if (v > hi) hi = v]. *)
Definition addCoord (lo hi : number) (v : option Q) : number * number :=
  match v with
  | None => (lo, hi)
  | Some q =>
      match lo, hi with
      | Some a, Some b =>
          (Some (if Qlt_le_dec q a then q else a), Some (if Qlt_le_dec b q then q else b))
      | _, _ => (Some q, Some q)
      end
  end.

Definition addPoint (box : Box.t) (px py : option Q) : Box.t :=
  let '(bx1, bx2) := addCoord (Box.x1 box) (Box.x2 box) px in
  let '(by1, by2) := addCoord (Box.y1 box) (Box.y2 box) py in
  Box.mk bx1 by1 bx2 by2.

Definition addCommand (box : Box.t) (cmd : Cmd.t) : Box.t :=
  addPoint (addPoint (addPoint box (Cmd.x cmd) (Cmd.y cmd))
              (Cmd.x1 cmd) (Cmd.y1 cmd))
    (Cmd.x2 cmd) (Cmd.y2 cmd).

Definition boxIsEmpty (box : Box.t) : bool :=
  match Box.x1 box, Box.y1 box, Box.x2 box, Box.y2 box with
  | Some _, Some _, Some _, Some _ => false
  | _, _, _, _ => true
  end.

Definition pointsBoundingBox (cmds : list Cmd.t) : Box.t :=
  let box := fold_left addCommand cmds (Box.mk None None None None) in
  if boxIsEmpty box then addPoint box (Some 0) (Some 0) else box.

(** ** Concrete fonts *)

Definition moveTo (px py : Q) : Cmd.t :=
  Cmd.mk Cmd.M (Some px) (Some py) None None None None.
Definition lineTo (px py : Q) : Cmd.t :=
  Cmd.mk Cmd.L (Some px) (Some py) None None None None.
Definition closePath : Cmd.t :=
  Cmd.mk Cmd.Z None None None None None None.

(** The closed rectangle from [(left, bottom)] to [(right, top)]. *)
Definition rectangle (left bottom right top : Q) : list Cmd.t :=
  [moveTo left bottom; lineTo right bottom; lineTo right top; lineTo left top; closePath].

(** A glyph as the parser delivers it: a name, a code point, an advance
    width, an outline; no cached bounds. *)
Definition glyphOf (nm : string) (code : N) (width : Q) (cmds : list Cmd.t) : Glyph :=
  mkGlyph (Some nm) (Some code) width None cmds None None None None.

(** [.notdef]: glyph 0, the one the library's [charToGlyph] answers with
    for a character the font does not map. *)
Definition notdefGlyph : Glyph :=
  mkGlyph (Some ".notdef") None 500 None (rectangle 50 0 450 700) None None None None.

(** A character map given by its entries, any other character going to
    glyph 0. *)
Definition cmapOf (entries : list (string * nat)) (c : string) : option nat :=
  match lookupKey entries c with Some i => Some i | None => Some 0%nat end.

Definition fontOf (gs : list Glyph) (entries : list (string * nat)) : Font :=
  mkFont gs (cmapOf entries) (Some 800) (Some (-200)) 1000 ∅ ∅.

(** ** Measuring a glyph *)

(** The index a character resolves to. *)
Definition indexOf (font : Font) (c : string) : option nat :=
  fst <$> charToGlyph font c.

(** The library moves the box with the outline: when every horizontal
    coordinate of an outline that starts with a move is shifted, so are the
    two horizontal sides of its box.  The empty path is not such an outline:
    its box is the all-zero box before and after. *)
Definition translates (getBoundingBox : list Cmd.t → Box.t) : Prop :=
  ∀ (s : Q) (cmds : list Cmd.t) (a b : Q),
    startsWithMove cmds = true →
    Box.x1 (getBoundingBox cmds) = Some a →
    Box.x2 (getBoundingBox cmds) = Some b →
    ∃ a' b',
      Box.x1 (getBoundingBox (shiftCmd s <$> cmds)) = Some a' ∧
      Box.x2 (getBoundingBox (shiftCmd s <$> cmds)) = Some b' ∧
      a' == a + s ∧ b' == b + s.

(** A glyph the primitive acts on: not the space, with an outline, with a
    box whose horizontal sides are numbers. *)
Definition spaceable (getBoundingBox : list Cmd.t → Box.t) (g : Glyph) : Prop :=
  isSpace g = false ∧
  startsWithMove (commands g) = true ∧
  is_Some (Box.x1 (getBoundingBox (commands g))) ∧
  is_Some (Box.x2 (getBoundingBox (commands g))).

(** The side bearings recomputed from the outline are [L] and [R]: the
    right one exactly, the left one up to the 0.001 below which the
    primitive does not move an outline. *)
Definition bearings (getBoundingBox : list Cmd.t → Box.t) (g : Glyph) (L R : Q) : Prop :=
  ∃ a b,
    Box.x1 (getBoundingBox (commands g)) = Some a ∧
    Box.x2 (getBoundingBox (commands g)) = Some b ∧
    Qabs (a - L) <= 0.001 ∧
    advanceWidth g - b == R.

(** ** The methods as sequences of calls of the primitive *)

Definition Call : Type := string * option Q * option Q.

Definition runCalls (getBoundingBox : list Cmd.t → Box.t) (font : Font)
    (calls : list Call) : Font :=
  fold_left (λ f '(c, l, r), setGlyphSB getBoundingBox f c l r) calls font.

(** The calls of one [applyRule]. *)
Definition ruleCalls (rule : string * Q * Q) : list Call :=
  let '(char, l, r) := rule in
  (char, Some l, Some r) :: ((λ child, (child, Some l, Some r)) <$> related char).

Definition overrideCalls (overrides : list (string * Override.t)) : list Call :=
  (λ '(char, ov), (char, Override.lsb ov, Override.rsb ov)) <$> overrides.

Definition masterCalls (overrides : list (string * Override.t))
    (char : string) (val : SB.t) : list Call :=
  match lookupKey overrides char with
  | None => [(char, Some (SB.lsb val), Some (SB.rsb val))]
  | Some _ => []
  end.

Definition tracyCalls (settings : Settings.t) : list Call :=
  flat_map ruleCalls (tracyRules settings)
  ++ overrideCalls (Settings.overrides settings).

Definition sousaCalls (settings : Settings.t) : list Call :=
  let overrides := Settings.overrides settings in
  flat_map ruleCalls (sousaRules settings)
  ++ overrideCalls overrides
  ++ masterCalls overrides "n" (Settings.n settings)
  ++ masterCalls overrides "o" (Settings.o settings)
  ++ masterCalls overrides "H" (Settings.H settings)
  ++ masterCalls overrides "O" (Settings.O settings).

(** The targets of the last call made for a character. *)
Fixpoint lastCall (c : string) (calls : list Call) : option (option Q * option Q) :=
  match calls with
  | [] => None
  | (c', l, r) :: rest =>
      match lastCall c rest with
      | Some t => Some t
      | None => if String.eqb c' c then Some (l, r) else None
      end
  end.

(** The pair of the last rule a method has for a base letter. *)
Fixpoint lastRule (B : string) (rules : list (string * Q * Q)) : option (Q * Q) :=
  match rules with
  | [] => None
  | (c, l, r) :: rest =>
      match lastRule B rest with
      | Some t => Some t
      | None => if String.eqb c B then Some (l, r) else None
      end
  end.

(** ** Statements of the specification that the code does not meet *)

(** The name is not empty and made of letters, digits and underscores. *)
Definition alnumUnderscoreName (nm : option string) : Prop :=
  ∃ s, nm = Some s ∧ s ≠ EmptyString ∧
       allChars (λ a, isAlnum a || Ascii.eqb a "_") s = true.

(** The name is not empty and made of letters, digits, periods and
    underscores. *)
Definition safeName (nm : option string) : Prop :=
  ∃ s, nm = Some s ∧ s ≠ EmptyString ∧ allChars isSafeChar s = true.

(** ** Scenario fonts, settings and buffers *)

(** The masters of the end-to-end scenario, no override. *)
Definition scenarioSettings : Settings.t :=
  Settings.mk (SB.mk 80 80) (SB.mk 70 70) (SB.mk 40 35) (SB.mk 45 45) [].

(** Masters with the left bearing of [H] left open, and an override for
    [T]: with 200 Method A resolves [A] to [(50, 50)], with 100 Method B
    does. *)
Definition fiftySettings (Hlsb : Q) : Settings.t :=
  Settings.mk (SB.mk Hlsb 80) (SB.mk 70 70) (SB.mk 40 35) (SB.mk 45 45)
    [("T", Override.mk (Some 33) (Some 31))].

Definition glyphM : Glyph := glyphOf "M" 77 900 (rectangle 30 0 830 700).

Definition glyphN : Glyph := glyphOf "N" 78 760 (rectangle 40 0 720 700).

Definition glyphT : Glyph := glyphOf "T" 84 600 (rectangle 10 0 590 700).

Definition glyphSpace : Glyph := glyphOf "space" 32 250 [].

Definition glyphA : Glyph := glyphOf "A" 65 700 (rectangle 15 0 685 700).

Definition glyphAacute : Glyph := glyphOf "Aacute" 193 700 (rectangle 15 0 685 900).

Definition glyphH : Glyph := glyphOf "H" 72 800 (rectangle 0 0 700 700).

Definition glyphX : Glyph := glyphOf "x" 120 500 [].

Definition demoEntries : list (string * nat) :=
  [("M", 1); ("N", 2); ("T", 3); (" ", 4); ("A", 5); ("Á", 6); ("H", 7); ("x", 8)]%nat.

(** A font of nine glyphs; a character it does not map resolves to
    [.notdef]. *)
Definition demoFont : Font :=
  fontOf [notdefGlyph; glyphM; glyphN; glyphT; glyphSpace; glyphA; glyphAacute;
          glyphH; glyphX] demoEntries.

(** Two glyphs without a usable name: one with a code point, one without. *)
Definition unnamedFont : Font :=
  fontOf [mkGlyph None (Some 193%N) 700 None (rectangle 15 0 685 900) None None None None;
          mkGlyph (Some "  ") None 500 None [] None None None None]
    [("Á", 0%nat)].

(** A serializer that returns an empty buffer for every font. *)
Definition emptySerializer (font : Font) : Completion (option (list byte)) :=
  Returns (Some []).

Definition blobUrl (buffer : list byte) : string := "blob:font".

(** A directory of two entries, [GPOS] and [glyf]. *)
Definition demoBuffer : list byte :=
  [x00; x01; x00; x00; x00; x02; x00; x00; x00; x00; x00; x00]%byte
  ++ String.list_byte_of_string "GPOS" ++ replicate 12 x00%byte
  ++ String.list_byte_of_string "glyf" ++ replicate 12 x00%byte.

(** The same header cut short after the first entry. *)
Definition truncatedBuffer : list byte := take 30 demoBuffer.

(** ** Vocabulary of the statements *)

(** Two sides of a box, the second the first moved by [s]. *)
Definition movedBy (s : Q) (v v' : number) : Prop :=
  match v, v' with
  | Some a, Some a' => a' == a + s
  | None, None => True
  | _, _ => False
  end.

Definition boxMovedBy (s : Q) (box box' : Box.t) : Prop :=
  movedBy s (Box.x1 box) (Box.x1 box') ∧ movedBy s (Box.x2 box) (Box.x2 box')
  ∧ Box.y1 box' = Box.y1 box ∧ Box.y2 box' = Box.y2 box.

Definition memberb (c : string) (l : list string) : bool :=
  existsb (String.eqb c) l.

(** The letters the table has an entry for. *)
Definition letters : list string := DIACRITICS_TABLE.*1.

(** Among the letters, [B] alone has [V] as itself or as a variant. *)
Definition variantOwned (B V : string) : bool :=
  forallb (λ c, negb (memberb V (c :: related c)) || String.eqb c B) letters.

(** The glyph is empty the way [getCharMetrics] tests it: no command and
    an all-zero box. *)
Definition emptyGlyph (getBoundingBox : list Cmd.t → Box.t) (g : Glyph) : Prop :=
  commands g = [] ∧
  ∃ a b c d,
    getBoundingBox (commands g) = Box.mk (Some a) (Some b) (Some c) (Some d)
    ∧ a == 0 ∧ b == 0 ∧ c == 0 ∧ d == 0.

(** A glyph without a usable name: [undefined], [null], or blank. *)
Definition nameMissing (g : Glyph) : Prop :=
  name g = None ∨ ∃ nm, name g = Some nm ∧ trimIsEmpty nm = true.

(** The tag [ensureGlyphNames] gives such a glyph at index [i]. *)
Definition generatedName (i : nat) (g : Glyph) : string :=
  if truthy (unicode g)
  then String.append "uni" (padStart4 (toUpperCase (toString16 (default 0%N (unicode g)))))
  else gid i.

(** The four bytes from [offset] on. *)
Definition tagFrom (buf : list byte) (offset : nat) : list byte :=
  take 4 (drop offset buf).

(** The tag at [offset] is one of the layout tags. *)
Definition deniedFrom (buf : list byte) (offset : nat) : bool :=
  bool_decide (String.string_of_list_byte (tagFrom buf offset) ∈ layoutTags).

(** What one turn of the loop leaves of the copy. *)
Definition patchEntry (cur : list byte) (offset : nat) : list byte :=
  if deniedFrom cur offset then
    <[(offset + 3)%nat := x64%byte]>
      (<[(offset + 2)%nat := x69%byte]>
         (<[(offset + 1)%nat := x6f%byte]> (<[offset := x76%byte]> cur)))
  else cur.

(** The table count the header announces. *)
Definition numTablesOf (buffer : list byte) : option nat :=
  hi ← buffer !! 4%nat;
  lo ← buffer !! 5%nat;
  Some (N.to_nat (Byte.to_N hi * 256 + Byte.to_N lo)).

(** The directory can be read: the count is there and the tag of each of
    the [n] entries lies inside the buffer. *)
Definition directoryReadable (buffer : list byte) (n : nat) : Prop :=
  numTablesOf buffer = Some n ∧ ∀ i, (i < n)%nat → (12 + 16 * i + 4 ≤ length buffer)%nat.

(** ** The rest of the service: cleaning, the average, the download path *)

(** [a + b] on numbers that may be [NaN]. *)
Definition add_num (a b : number) : number :=
  match a, b with Some p, Some q => Some (p + q) | _, _ => None end.

(** A name is truthy when it is a string that is not empty. *)
Definition nameTruthy (glyph : Glyph) : bool :=
  match name glyph with Some (String _ _) => true | _ => false end.

(** [glyph.name !== 'space'] of [calculateAverageSB]. *)
Definition notNamedSpace (glyph : Glyph) : bool :=
  match name glyph with Some nm => negb (String.eqb nm "space") | None => true end.

(** The glyphs [calculateAverageSB] counts. *)
Definition counted (glyph : Glyph) : bool :=
  truthy (unicode glyph) && notNamedSpace glyph.

Section CleaningAndAverage.

Variable getBoundingBox : list Cmd.t → Box.t.

(** [/[\p{P}\p{S}]/u.test(String.fromCodePoint(u))]: whether the engine
    classes the code point as punctuation or symbol. *)
Variable isPunctuationOrSymbol : N → bool.

(** [isPunctuation] of the loop of [cleanMetrics]. *)
Definition isPunctuation (glyph : Glyph) : bool :=
  match unicode glyph with
  | Some u => truthy (Some u) && isPunctuationOrSymbol u
  | None => false
  end.

(** The outline moved by [shiftX] and the cached bounds deleted, as
    [cleanMetrics] does it: [leftSideBearing] is not written here. *)
Definition cleanShift (glyph : Glyph) (shiftX : Q) : Glyph :=
  {| name := name glyph; unicode := unicode glyph;
     advanceWidth := advanceWidth glyph;
     leftSideBearing := leftSideBearing glyph;
     commands := shiftCmd shiftX <$> commands glyph;
     xMin := None; xMax := None; yMin := None; yMax := None |}.

(** [glyph.advanceWidth = width;
     if (glyph.leftSideBearing !== undefined) glyph.leftSideBearing = 0]. *)
Definition cleanWidth (glyph : Glyph) (width : Q) : Glyph :=
  {| name := name glyph; unicode := unicode glyph;
     advanceWidth := width;
     leftSideBearing := (λ _, 0) <$> leftSideBearing glyph;
     commands := commands glyph;
     xMin := xMin glyph; xMax := xMax glyph;
     yMin := yMin glyph; yMax := yMax glyph |}.

(** One turn of the loop of [cleanMetrics]. *)
Definition cleanGlyph (glyph : Glyph) : Glyph :=
  if isSpace glyph then glyph
  else if isPunctuation glyph then glyph
  else if truthy (unicode glyph) || nameTruthy glyph then
    let bounds := getBoundingBox (commands glyph) in
    match Box.x1 bounds, Box.x2 bounds with
    | Some bx1, Some bx2 =>
        let width := bx2 - bx1 in
        if Qle_bool 0 width then
          let shiftX := - bx1 in
          cleanWidth
            (if negb (Qeq_bool shiftX 0) then cleanShift glyph shiftX else glyph)
            width
        else glyph
    | _, _ => glyph
    end
  else glyph.

(** [cleanMetrics(font)]. *)
Definition cleanMetrics (font : Font) : Font :=
  with_tables (with_glyphs font (cleanGlyph <$> glyphs font))
    (delete "gpos" (delete "kern" (tables font))).

(** One turn of the loop of [calculateAverageSB]. *)
Definition averageStep (acc : number * nat) (glyph : Glyph) : number * nat :=
  let '(total, count) := acc in
  if counted glyph then
    let box := getBoundingBox (commands glyph) in
    let lsb := Box.x1 box in
    let rsb := sub_num (Some (advanceWidth glyph)) (Box.x2 box) in
    (add_num total (add_num lsb rsb), S count)
  else acc.

(** [calculateAverageSB(font)]. *)
Definition calculateAverageSB (font : Font) : number :=
  let '(total, count) := fold_left averageStep (glyphs font) (Some 0, 0%nat) in
  if (0 <? count)%nat
  then (λ t, Math_round (t / inject_Z (Z.of_nat (count * 2)))) <$> total
  else Some 0.

End CleaningAndAverage.

(** [font.tables.t.f = font.ascender || d]: the value when it is defined
    and not zero, the default otherwise. *)
Definition orDefault (v : option Q) (d : Q) : Q :=
  match v with
  | Some q => if Qeq_bool q 0 then d else q
  | None => d
  end.

(** What [downloadFont] writes to [font.tables] before it serializes, the
    three layout tables being deleted already. *)
Definition downloadTables (asc desc : option Q) (ts : gmap string (gmap string Q)) :
    gmap string (gmap string Q) :=
  let ts := ensureTable "post" ts in
  let ts := setField "post" "version" 3 ts in
  let ts := ensureTable "os2" ts in
  let ts := initField "os2" "version" 1 ts in
  let ts := defaultField "os2" "usWeightClass" 400 ts in
  let ts := defaultField "os2" "usWidthClass" 5 ts in
  let ts := ensureTable "hhea" ts in
  let ascender := orDefault asc 800 in
  let descender := orDefault desc (-200) in
  let ts := setField "os2" "sTypoAscender" ascender ts in
  let ts := setField "os2" "sTypoDescender" descender ts in
  let ts := setField "os2" "sTypoLineGap" 0 ts in
  let ts := setField "os2" "usWinAscent" ascender ts in
  let ts := setField "os2" "usWinDescent" (Qabs descender) ts in
  let ts := setField "hhea" "ascender" ascender ts in
  let ts := setField "hhea" "descender" descender ts in
  setField "hhea" "lineGap" 0 ts.

(** The font [downloadFont] hands to the serializer; [now] is
    [Date.now()].  The family name is [font.names.fontFamily?.en ||
    'SAAME_Font'], read before the names are wiped. *)
Definition downloadPrepared (now : N) (font : Font) (suffix : string) : Font :=
  let familyName :=
    match names font !! "fontFamily" with
    | Some (String a rest) => String a rest
    | _ => "SAAME_Font"
    end in
  let exportName := String.append familyName (String.append " " suffix) in
  let font1 := with_tables font (delete "gsub" (delete "gpos" (delete "kern" (tables font)))) in
  let font2 := prepareFontForExport now font1 exportName in
  let font3 := ensureGlyphNames font2 in
  with_tables font3 (downloadTables (ascender font3) (descender font3) (tables font3)).

(** ** Vocabulary of the further properties *)

(** What a horizontal move cannot change of a glyph: its name, its code
    point, and of each path command the kind and the vertical coordinates. *)
Definition skeleton (g : Glyph) :
    option string * option N * list (Cmd.kind * option Q * option Q * option Q) :=
  (name g, unicode g,
   (λ cmd, (Cmd.type cmd, Cmd.y cmd, Cmd.y1 cmd, Cmd.y2 cmd)) <$> commands g).

(** Two fonts that differ at most in the horizontal placement of their
    outlines, their advance widths and the stored bearings and bounds. *)
Definition layoutKept (font font' : Font) : Prop :=
  cmap font' = cmap font
  ∧ ascender font' = ascender font
  ∧ descender font' = descender font
  ∧ unitsPerEm font' = unitsPerEm font
  ∧ names font' = names font
  ∧ tables font' = tables font
  ∧ skeleton <$> glyphs font' = skeleton <$> glyphs font.


(** The test [cleanMetrics] falls back to when the engine refuses the
    Unicode property escapes, a character class of the ASCII punctuation:
    the code points 33 to 47, 58 to 64, the opening bracket 91, 93 to 96
    and 123 to 126; the backslash, 92, only escapes the closing bracket
    there and is not in the class. *)
Definition asciiPunctuation (u : N) : bool :=
  ((33 <=? u) && (u <=? 47) || (58 <=? u) && (u <=? 64) || (u =? 91)
   || (93 <=? u) && (u <=? 96) || (123 <=? u) && (u <=? 126))%N.


(** The boxes [measureMetric] looks at: those of the probe characters
    that resolve to a glyph with path commands, in the order of the
    probes. *)
Definition probeBoxes (getBoundingBox : list Cmd.t → Box.t) (font : Font)
    (chars : list string) : list Box.t :=
  omap (λ char,
          match charToGlyph font char with
          | Some (_, glyph) =>
              if (0 <? length (commands glyph))%nat
              then Some (getBoundingBox (commands glyph)) else None
          | None => None
          end) chars.

(** What a turn of [measureMetric] does with the box of such a glyph. *)
Definition extremumStep (type : Extremum) (acc : number * bool) (box : Box.t) :
    number * bool :=
  let '(best, found) := acc in
  match type with
  | ExtMax =>
      if negb found || gt_num (Box.y2 box) best then (Box.y2 box, true)
      else (best, found)
  | ExtMin =>
      if negb found || lt_num (Box.y1 box) best then (Box.y1 box, true)
      else (best, found)
  end.

(** The coordinate a measure reads: the top for the maximum, the bottom
    for the minimum. *)
Definition extremumCoord (type : Extremum) (box : Box.t) : number :=
  match type with ExtMax => Box.y2 box | ExtMin => Box.y1 box end.

(** [m] is as far out as [y] in the direction of the measure. *)
Definition beyond (type : Extremum) (m y : Q) : Prop :=
  match type with ExtMax => y <= m | ExtMin => m <= y end.


(** The characters [prepareFontForExport] keeps of a family name, and
    those it keeps of a PostScript name. *)
Definition familyChar (a : ascii) : bool :=
  isAlnum a || Ascii.eqb a "-" || Ascii.eqb a " ".
Definition postScriptChar (a : ascii) : bool :=
  isAlnum a || Ascii.eqb a "-".

(** [`${baseName}-${timestamp}`], the family name [createFontState] makes
    up for a font it is going to rebuild. *)
Definition fullFontFamily (baseName : string) (timestamp : N) : string :=
  String.append baseName (String.append "-" (toString10 (N.to_nat timestamp))).

(** The export left the spacing of [font] alone: the same character map,
    and glyph by glyph the same outline, advance width and code point. *)
Definition spacingKept (font font' : Font) : Prop :=
  cmap font' = cmap font
  ∧ Forall2 (λ g g', commands g' = commands g ∧ advanceWidth g' = advanceWidth g
                     ∧ leftSideBearing g' = leftSideBearing g
                     ∧ unicode g' = unicode g)
      (glyphs font) (glyphs font').


(** The fields in which [createFontUrl] and [downloadFont] write the
    vertical metrics. *)
Definition verticalFields : list (string * string) :=
  [("os2", "sTypoAscender"); ("os2", "sTypoDescender"); ("os2", "sTypoLineGap");
   ("os2", "usWinAscent"); ("os2", "usWinDescent");
   ("hhea", "ascender"); ("hhea", "descender"); ("hhea", "lineGap")].


(** The targets of the last call made for a character that resolves to
    glyph [i] of the font: several characters may share a glyph, and a
    character the font does not map shares glyph 0 with all the others of
    its kind. *)
Fixpoint lastCallAt (font : Font) (i : nat) (calls : list Call) :
    option (option Q * option Q) :=
  match calls with
  | [] => None
  | (c, l, r) :: rest =>
      match lastCallAt font i rest with
      | Some t => Some t
      | None => if bool_decide (indexOf font c = Some i) then Some (l, r) else None
      end
  end.


(** ** The data of the glyph view *)

Module GlyphData.
(** The value of [getGlyphData]; the two extents of the glyph are absent
    when the glyph is taken as empty. *)
Record t : Type := mk {
  xMin : number;
  xMax : number;
  yMin : option Q;
  yMax : option Q;
  glyphYMin : option number;
  glyphYMax : option number;
  advanceWidth : Q;
  pathData : string
}.
End GlyphData.

Section Visualization.

Variable getBoundingBox : list Cmd.t → Box.t.

(** [glyph.getPath(0, 0, units).toPathData(2)] of the library. *)
Variable toPathData : Glyph → Q → string.

(** [getGlyphData(font, char)]; [None] is [null]. *)
Definition getGlyphData (font : Font) (char : string) : option GlyphData.t :=
  match charToGlyph font char with
  | None => None
  | Some (_, glyph) =>
      let box := getBoundingBox (commands glyph) in
      if (isZero (Box.x1 box) && isZero (Box.x2 box) && isZero (Box.y1 box)
          && isZero (Box.y2 box))
         || (length (commands glyph) =? 0)%nat
      then
        Some (GlyphData.mk (Some 0) (Some 0) (descender font) (ascender font)
                None None (advanceWidth glyph) EmptyString)
      else
        let units := orDefault (Some (unitsPerEm font)) 1000 in
        Some (GlyphData.mk (Box.x1 box) (Box.x2 box) (descender font) (ascender font)
                (Some (Box.y1 box)) (Some (Box.y2 box)) (advanceWidth glyph)
                (toPathData glyph units))
  end.

End Visualization.


(** ** Characters that share a glyph

    The library resolves a string by its first code point, and a code
    point the font does not map to glyph 0; a font may also map two code
    points to one glyph, as a font with small capitals does.  What a
    method leaves on a glyph is decided by the calls that resolve to it. *)

(** The characters a sequence of calls names. *)
Definition calledChars (calls : list Call) : list string :=
  (λ call : Call, call.1.1) <$> calls.

(** Of the characters the calls name, [c] alone resolves to glyph [i]. *)
Definition unshared (font : Font) (calls : list Call) (c : string) (i : nat) : Prop :=
  ∀ d, d ∈ calledChars calls → d ≠ c → indexOf font d ≠ Some i.

Definition unsharedb (font : Font) (calls : list Call) (c : string) (i : nat) : bool :=
  forallb (λ d, String.eqb d c || negb (bool_decide (indexOf font d = Some i)))
    (calledChars calls).

(** The bytes of the first code point of a string in UTF-8, what
    [c.codePointAt(0)] reads of it. *)
Definition utf8Length (a : ascii) : nat :=
  let c := nat_of_ascii a in
  if (c <? 128)%nat then 1%nat
  else if (c <? 224)%nat then 2%nat
  else if (c <? 240)%nat then 3%nat
  else 4%nat.

Definition firstCodePoint (s : string) : string :=
  match s with
  | EmptyString => EmptyString
  | String a _ => String.substring 0 (utf8Length a) s
  end.

(** The character map of a parsed font: the entry of the first code
    point, glyph 0 when there is none. *)
Definition codePointCmap (entries : list (string * nat)) (c : string) : option nat :=
  cmapOf entries (firstCodePoint c).

Definition fontByCodePoint (gs : list Glyph) (entries : list (string * nat)) : Font :=
  mkFont gs (codePointCmap entries) (Some 800) (Some (-200)) 1000 ∅ ∅.

(** The glyphs of [demoFont] under the character map of the library. *)
Definition parsedFont : Font := fontByCodePoint (glyphs demoFont) demoEntries.

(** The same glyphs in a font with small capitals: [m], [n], [t] and
    [á] are drawn with the glyphs of [M], [N], [T] and [Á]. *)
Definition smallCapsFont : Font :=
  fontByCodePoint (glyphs demoFont)
    (demoEntries ++ [("m", 1); ("n", 2); ("t", 3); ("á", 6)]%nat).

(** The scenario masters and an override for the master letter [H]. *)
Definition overrideHSettings : Settings.t :=
  Settings.mk (SB.mk 80 80) (SB.mk 70 70) (SB.mk 40 35) (SB.mk 45 45)
    [("H", Override.mk (Some 33) (Some 31))].

(** The scenario masters and an override for [N]. *)
Definition overrideNSettings : Settings.t :=
  Settings.mk (SB.mk 80 80) (SB.mk 70 70) (SB.mk 40 35) (SB.mk 45 45)
    [("N", Override.mk (Some 33) (Some 31))].

(** A glyph whose box has sides that are no whole numbers. *)
Definition glyphHalf : Glyph := glyphOf "h" 104 100 (rectangle 30.5 0 70.6 700).

Definition roundingFont : Font := fontByCodePoint [notdefGlyph; glyphHalf] [("h", 1%nat)].

(** ** [getCharMetrics] and the call of the library

    [getCharMetrics] has no [try]: what [font.charToGlyph(char)] throws,
    it throws.  [getCharMetricsOf] is the function over the outcome of
    that call, the glyph object or [None] for a falsy value. *)
Definition getCharMetricsOf (getBoundingBox : list Cmd.t → Box.t)
    (resolved : Completion (option Glyph)) : Completion CharMetrics.t :=
  match resolved with
  | Throws e => Throws e
  | Returns None => Returns (CharMetrics.mk (Some 0) (Some 0))
  | Returns (Some glyph) =>
      let box := getBoundingBox (commands glyph) in
      if isZero (Box.x1 box) && isZero (Box.x2 box) && isZero (Box.y1 box)
         && isZero (Box.y2 box) && (length (commands glyph) =? 0)%nat
      then Returns (CharMetrics.mk (Some 0) (Some (advanceWidth glyph)))
      else
        let lsb := Box.x1 box in
        let rsb := sub_num (Some (advanceWidth glyph)) (Box.x2 box) in
        Returns (CharMetrics.mk (Math_round <$> lsb) (Math_round <$> rsb))
  end.

(** What the library throws for a font object built without a character
    map. *)
Definition noCharacterMap : Completion (option Glyph) :=
  Throws "TypeError: Cannot read properties of undefined".

(** * Properties *)

(** ** Arithmetic of the number model *)

(** The products of Method A are products of doubles: with the left master
    of [H] at 50 the value for [M] is 57, where the product of the
    rationals would round to 58; at 80 both give 92. *)
Lemma js_mul_rounding :
  Math_round (js_mul 50 1.15) = 57 ∧ Math_round (50 * 1.15) = 58
  ∧ Math_round (js_mul 80 1.15) = 92 ∧ Math_round (80 * 1.15) = 92
  ∧ js_mul 50 1.15 < 50 * 1.15
  ∧ js_mul 80 0.25 == 20 ∧ js_div (js_add 80 45) 2 == 62.5.
Proof. split_and!; by vm_compute. Qed.

Lemma gtb_true (a b : Q) : gtb a b = true → b < a.
Proof. unfold gtb. destruct (Qlt_le_dec b a); [done | discriminate]. Qed.

Lemma gtb_false (a b : Q) : gtb a b = false → a <= b.
Proof. unfold gtb. destruct (Qlt_le_dec b a); [discriminate | done]. Qed.

Lemma Qabs_le_intro (v e : Q) : - e <= v → v <= e → Qabs v <= e.
Proof. intros. apply Qabs_Qle_condition. split; assumption. Qed.

Lemma Qabs_le_elim (v e : Q) : Qabs v <= e → - e <= v ∧ v <= e.
Proof. intros H. apply Qabs_Qle_condition in H. exact H. Qed.

(** A value within a thousandth of a whole number rounds to it. *)
Lemma Math_round_near (v : Q) (k : Z) :
  Qabs (v - inject_Z k) <= 0.001 → Math_round v = inject_Z k.
Proof.
  intros H. apply Qabs_le_elim in H as [Hlo Hhi].
  unfold Math_round. f_equal.
  assert (Hk : inject_Z k <= v + (1 # 2)) by lra.
  assert (Hk1 : v + (1 # 2) < inject_Z (k + 1)).
  { rewrite inject_Z_plus. change (inject_Z 1) with 1. lra. }
  apply Z.le_antisymm.
  - apply Z.lt_succ_r. rewrite Zlt_Qlt. unfold Z.succ.
    eapply Qle_lt_trans; [apply Qfloor_le | exact Hk1].
  - rewrite <- (Qfloor_Z k). apply Qfloor_resp_le. exact Hk.
Qed.

Lemma Math_round_eq (v : Q) (k : Z) : v == inject_Z k → Math_round v = inject_Z k.
Proof.
  intros H. apply Math_round_near. apply Qabs_le_intro; lra.
Qed.

(** ** The mutation primitive *)

Lemma charToGlyph_Some (font : Font) (c : string) (i : nat) (g : Glyph) :
  charToGlyph font c = Some (i, g) ↔ cmap font c = Some i ∧ glyphs font !! i = Some g.
Proof.
  unfold charToGlyph. split.
  - destruct (cmap font c) as [j|]; [|discriminate].
    destruct (glyphs font !! j) as [g'|] eqn:E; [|discriminate].
    intros [= <- <-]. done.
  - intros [-> ->]. done.
Qed.

Lemma indexOf_Some (font : Font) (c : string) (i : nat) :
  indexOf font c = Some i ↔ ∃ g, charToGlyph font c = Some (i, g).
Proof.
  unfold indexOf. split.
  - destruct (charToGlyph font c) as [[j g]|]; [|discriminate].
    intros [= <-]. by exists g.
  - intros [g ->]. done.
Qed.

Section PrimitiveFacts.

Variable getBoundingBox : list Cmd.t → Box.t.

Local Abbreviation setSB := (setGlyphSB getBoundingBox).
Local Abbreviation lsbOf g := (Box.x1 (getBoundingBox (commands g))).
Local Abbreviation rsbBox g := (Box.x2 (getBoundingBox (commands g))).

Lemma applyLsb_name (g : Glyph) (l : option Q) (a : Q) :
  name (applyLsb g l a) = name g ∧ unicode (applyLsb g l a) = unicode g.
Proof.
  unfold applyLsb. destruct l as [l|]; [|done].
  destruct (gtb _ _); done.
Qed.

Lemma applyRsb_name (g : Glyph) (r : option Q) :
  name (applyRsb getBoundingBox g r) = name g
  ∧ unicode (applyRsb getBoundingBox g r) = unicode g
  ∧ commands (applyRsb getBoundingBox g r) = commands g.
Proof.
  unfold applyRsb. destruct r as [r|]; [|done].
  destruct (Box.x2 _); done.
Qed.

Lemma isSpace_applied (g : Glyph) (l r : option Q) (a : Q) :
  isSpace (applyRsb getBoundingBox (applyLsb g l a) r) = isSpace g.
Proof.
  unfold isSpace.
  destruct (applyRsb_name (applyLsb g l a) r) as (-> & -> & _).
  destruct (applyLsb_name g l a) as (-> & ->). done.
Qed.

(** What a call does to the glyph store: nothing, or one glyph object
    replaced by its moved self. *)
Lemma setGlyphSB_glyphs (font : Font) (c : string) (l r : option Q) :
  glyphs (setSB font c l r) = glyphs font
  ∨ ∃ i g a, charToGlyph font c = Some (i, g) ∧ isSpace g = false
      ∧ lsbOf g = Some a ∧ is_Some (rsbBox g)
      ∧ glyphs (setSB font c l r)
        = <[i := applyRsb getBoundingBox (applyLsb g l a) r]> (glyphs font).
Proof.
  unfold setGlyphSB.
  destruct (charToGlyph font c) as [[i g]|] eqn:Hc; [|by left].
  destruct (isSpace g) eqn:Hs; [by left|].
  destruct (lsbOf g) as [a|] eqn:H1; [|by left].
  destruct (rsbBox g) as [b|] eqn:H2; [|by left].
  right. exists i, g, a. split_and!; done.
Qed.

Lemma setGlyphSB_cmap (font : Font) (c : string) (l r : option Q) :
  cmap (setSB font c l r) = cmap font.
Proof.
  unfold setGlyphSB.
  destruct (charToGlyph font c) as [[i g]|]; [|done].
  destruct (isSpace g); [done|].
  destruct (lsbOf g); [|done]. destruct (rsbBox g); done.
Qed.

Lemma setGlyphSB_length (font : Font) (c : string) (l r : option Q) :
  length (glyphs (setSB font c l r)) = length (glyphs font).
Proof.
  destruct (setGlyphSB_glyphs font c l r) as [-> | (i & g & a & _ & _ & _ & _ & ->)];
    [done | apply length_insert].
Qed.

Lemma setGlyphSB_indexOf (font : Font) (c d : string) (l r : option Q) :
  indexOf (setSB font c l r) d = indexOf font d.
Proof.
  unfold indexOf, charToGlyph. rewrite setGlyphSB_cmap.
  destruct (cmap font d) as [j|]; [|done].
  destruct (glyphs font !! j) as [g|] eqn:E.
  - apply lookup_lt_Some in E. rewrite <- (setGlyphSB_length font c l r) in E.
    apply lookup_lt_is_Some in E as [g' ->]. done.
  - apply lookup_ge_None in E. rewrite <- (setGlyphSB_length font c l r) in E.
    apply lookup_ge_None in E. by rewrite E.
Qed.

(** A call leaves every glyph object alone but the one its character
    resolves to. *)
Lemma setGlyphSB_frame (font : Font) (c : string) (l r : option Q) (j : nat) :
  indexOf font c ≠ Some j →
  glyphs (setSB font c l r) !! j = glyphs font !! j.
Proof.
  intros Hne.
  destruct (setGlyphSB_glyphs font c l r) as [-> | (i & g & a & Hc & _ & _ & _ & ->)];
    [done|].
  apply list_lookup_insert_ne. intros ->. apply Hne.
  apply indexOf_Some. by exists g.
Qed.

Hypothesis bbox_translates : translates getBoundingBox.

Lemma startsWithMove_shift (s : Q) (cmds : list Cmd.t) :
  startsWithMove (shiftCmd s <$> cmds) = startsWithMove cmds.
Proof.
  destruct cmds as [|cmd rest]; [done|]. simpl.
  destruct (Cmd.type cmd), (Cmd.x cmd), (Cmd.y cmd); done.
Qed.

Lemma applied_spaceable (g : Glyph) (l r : option Q) (a : Q) :
  spaceable getBoundingBox g → lsbOf g = Some a →
  spaceable getBoundingBox (applyRsb getBoundingBox (applyLsb g l a) r).
Proof.
  intros (Hs & Hm & [a0 H1] & [b H2]) Ha.
  split; [by rewrite isSpace_applied|].
  destruct (applyRsb_name (applyLsb g l a) r) as (_ & _ & ->).
  unfold applyLsb. destruct l as [l|]; [|by repeat split; eauto].
  destruct (gtb _ _); [|by repeat split; eauto].
  simpl. rewrite startsWithMove_shift.
  destruct (bbox_translates (l - a) (commands g) a0 b Hm H1 H2)
    as (a' & b' & -> & -> & _).
  repeat split; eauto.
Qed.

(** The postcondition of the primitive on one glyph. *)
Lemma applied_bearings (g : Glyph) (L R a : Q) :
  spaceable getBoundingBox g → lsbOf g = Some a →
  bearings getBoundingBox (applyRsb getBoundingBox (applyLsb g (Some L) a) (Some R)) L R.
Proof.
  intros (Hs & Hm & _ & [b H2]) H1.
  unfold applyLsb. destruct (gtb (Qabs (L - a)) 0.001) eqn:Hg.
  - destruct (bbox_translates (L - a) (commands g) a b Hm H1 H2)
      as (a' & b' & Ha' & Hb' & Ea & Eb).
    unfold applyRsb. simpl. rewrite Hb'. simpl.
    exists a', b'. split_and!; try done.
    + apply Qabs_le_intro; lra.
    + unfold setAdvanceWidth; simpl. lra.
  - apply gtb_false, Qabs_le_elim in Hg as [Hlo Hhi].
    unfold applyRsb. rewrite H2. simpl.
    exists a, b. split_and!; try done.
    + apply Qabs_le_intro; lra.
    + unfold setAdvanceWidth; simpl. lra.
Qed.

Lemma setGlyphSB_acts (font : Font) (c : string) (l r : option Q) (i : nat) (g : Glyph) :
  charToGlyph font c = Some (i, g) → spaceable getBoundingBox g →
  ∃ a, lsbOf g = Some a
    ∧ glyphs (setSB font c l r) !! i
      = Some (applyRsb getBoundingBox (applyLsb g l a) r).
Proof.
  intros Hc (Hs & Hm & [a H1] & [b H2]).
  exists a. split; [done|].
  unfold setGlyphSB. rewrite Hc, Hs. simpl. rewrite H1, H2. simpl.
  apply list_lookup_insert_eq.
  apply charToGlyph_Some in Hc as [_ Hg]. by apply lookup_lt_Some in Hg.
Qed.

(** A glyph the primitive acts on stays one, whatever call is made. *)
Lemma setGlyphSB_spaceable (font : Font) (c : string) (l r : option Q) (j : nat) (g : Glyph) :
  glyphs font !! j = Some g → spaceable getBoundingBox g →
  ∃ g', glyphs (setSB font c l r) !! j = Some g' ∧ spaceable getBoundingBox g'.
Proof.
  intros Hj Hg.
  destruct (decide (indexOf font c = Some j)) as [Hi|Hi].
  - apply indexOf_Some in Hi as [g0 Hc].
    assert (g0 = g) as ->.
    { apply charToGlyph_Some in Hc as [_ Hc]. congruence. }
    destruct (setGlyphSB_acts font c l r j g Hc Hg) as (a & Ha & ->).
    eexists. split; [done|]. by apply applied_spaceable.
  - exists g. split; [|done]. by rewrite setGlyphSB_frame.
Qed.

End PrimitiveFacts.

(** ** The box of straight outlines moves with the outline *)

Lemma addCoord_moved (s : Q) (lo hi lo' hi' : number) (v : option Q) :
  movedBy s lo lo' → movedBy s hi hi' →
  movedBy s (addCoord lo hi v).1 (addCoord lo' hi' ((λ q, q + s) <$> v)).1
  ∧ movedBy s (addCoord lo hi v).2 (addCoord lo' hi' ((λ q, q + s) <$> v)).2.
Proof.
  intros Hlo Hhi. destruct v as [q|]; simpl; [|done].
  destruct lo as [a|], lo' as [a'|]; simpl in Hlo; try done;
    destruct hi as [b|], hi' as [b'|]; simpl in Hhi; try done; simpl;
    try (split; reflexivity).
  split.
  - destruct (Qlt_le_dec q a), (Qlt_le_dec (q + s) a'); simpl; lra.
  - destruct (Qlt_le_dec b q), (Qlt_le_dec b' (q + s)); simpl; lra.
Qed.

Lemma addPoint_moved (s : Q) (box box' : Box.t) (px py : option Q) :
  boxMovedBy s box box' →
  boxMovedBy s (addPoint box px py) (addPoint box' ((λ q, q + s) <$> px) py).
Proof.
  intros (H1 & H2 & E1 & E2). unfold addPoint. rewrite E1, E2.
  destruct (addCoord_moved s _ _ _ _ px H1 H2) as [A B].
  destruct (addCoord (Box.x1 box) (Box.x2 box) px) as [u1 u2].
  destruct (addCoord (Box.x1 box') (Box.x2 box') _) as [u1' u2'].
  destruct (addCoord (Box.y1 box) (Box.y2 box) py) as [w1 w2].
  by repeat split.
Qed.

Lemma addCommand_moved (s : Q) (box box' : Box.t) (cmd : Cmd.t) :
  boxMovedBy s box box' →
  boxMovedBy s (addCommand box cmd) (addCommand box' (shiftCmd s cmd)).
Proof.
  intros H. unfold addCommand, shiftCmd. simpl.
  by do 3 apply addPoint_moved.
Qed.

Lemma fold_addCommand_moved (s : Q) (cmds : list Cmd.t) (box box' : Box.t) :
  boxMovedBy s box box' →
  boxMovedBy s (fold_left addCommand cmds box)
    (fold_left addCommand (shiftCmd s <$> cmds) box').
Proof.
  revert box box'. induction cmds as [|cmd rest IH]; intros box box' H; [done|].
  simpl. apply IH. by apply addCommand_moved.
Qed.

Lemma addCoord_full (lo hi : number) (v : option Q) :
  is_Some lo → is_Some hi →
  is_Some (addCoord lo hi v).1 ∧ is_Some (addCoord lo hi v).2.
Proof.
  intros [a ->] [b ->]. destruct v as [q|]; simpl; eauto.
Qed.

Lemma addPoint_full (box : Box.t) (px py : option Q) :
  boxIsEmpty box = false → boxIsEmpty (addPoint box px py) = false.
Proof.
  unfold boxIsEmpty, addPoint.
  destruct (Box.x1 box) as [a|] eqn:E1; [|done].
  destruct (Box.y1 box) as [b|] eqn:E2; [|done].
  destruct (Box.x2 box) as [c|] eqn:E3; [|done].
  destruct (Box.y2 box) as [d|] eqn:E4; [|done].
  intros _.
  destruct (addCoord_full (Some a) (Some c) px) as [[? H1] [? H2]]; [eauto..|].
  destruct (addCoord_full (Some b) (Some d) py) as [[? H3] [? H4]]; [eauto..|].
  destruct (addCoord (Some a) (Some c) px) as [u1 u2].
  destruct (addCoord (Some b) (Some d) py) as [w1 w2].
  simpl in *. by rewrite H1, H2, H3, H4.
Qed.

Lemma fold_addCommand_full (cmds : list Cmd.t) (box : Box.t) :
  boxIsEmpty box = false → boxIsEmpty (fold_left addCommand cmds box) = false.
Proof.
  revert box. induction cmds as [|cmd rest IH]; intros box H; [done|].
  simpl. apply IH. unfold addCommand. by do 3 apply addPoint_full.
Qed.

Lemma startsWithMove_full (cmds : list Cmd.t) :
  startsWithMove cmds = true →
  boxIsEmpty (fold_left addCommand cmds (Box.mk None None None None)) = false.
Proof.
  destruct cmds as [|cmd rest]; [done|]. simpl.
  destruct (Cmd.type cmd) eqn:Et; try done.
  destruct (Cmd.x cmd) as [px|] eqn:Ex; [|done].
  destruct (Cmd.y cmd) as [py|] eqn:Ey; [|done].
  intros _. apply fold_addCommand_full.
  unfold addCommand. rewrite Ex, Ey. by do 2 apply addPoint_full.
Qed.

Lemma pointsBoundingBox_translates : translates pointsBoundingBox.
Proof.
  intros s cmds a b Hm H1 H2.
  pose proof (startsWithMove_full cmds Hm) as Hfull.
  pose proof (startsWithMove_full (shiftCmd s <$> cmds)) as Hfull'.
  rewrite startsWithMove_shift in Hfull'. specialize (Hfull' Hm).
  unfold pointsBoundingBox in *. rewrite Hfull in H1, H2. rewrite Hfull'.
  destruct (fold_addCommand_moved s cmds (Box.mk None None None None)
              (Box.mk None None None None)) as (M1 & M2 & _); [done|].
  rewrite H1 in M1. rewrite H2 in M2. unfold movedBy in M1, M2.
  destruct (Box.x1 (fold_left addCommand (shiftCmd s <$> cmds) _)) as [a'|]; [|done].
  destruct (Box.x2 (fold_left addCommand (shiftCmd s <$> cmds) _)) as [b'|]; [|done].
  by exists a', b'.
Qed.

(** ** The methods are sequences of calls *)

Section CallFacts.

Variable getBoundingBox : list Cmd.t → Box.t.

Local Abbreviation setSB := (setGlyphSB getBoundingBox).
Local Abbreviation run := (runCalls getBoundingBox).

Lemma runCalls_app (font : Font) (xs ys : list Call) :
  run font (xs ++ ys) = run (run font xs) ys.
Proof. apply fold_left_app. Qed.

Lemma runCalls_cons (font : Font) (c : string) (l r : option Q) (rest : list Call) :
  run font ((c, l, r) :: rest) = run (setSB font c l r) rest.
Proof. done. Qed.

Lemma applyRule_calls (font : Font) (rule : string * Q * Q) :
  applyRule getBoundingBox font rule.1.1 (Some rule.1.2) (Some rule.2)
  = run font (ruleCalls rule).
Proof.
  destruct rule as [[c l] r]. unfold applyRule, ruleCalls, runCalls. simpl.
  generalize (setSB font c (Some l) (Some r)) as f.
  induction (related c) as [|child rest IH]; intros f; [done|].
  simpl. apply IH.
Qed.

Lemma applyRules_calls (font : Font) (rules : list (string * Q * Q)) :
  applyRules getBoundingBox font rules = run font (flat_map ruleCalls rules).
Proof.
  revert font. induction rules as [|[[c l] r] rest IH]; intros font; [done|].
  unfold applyRules in *. simpl. rewrite runCalls_app, IH.
  f_equal. apply (applyRule_calls font (c, l, r)).
Qed.

Lemma applyOverrides_calls (font : Font) (overrides : list (string * Override.t)) :
  applyOverrides getBoundingBox font overrides = run font (overrideCalls overrides).
Proof.
  revert font. induction overrides as [|[c ov] rest IH]; intros font; [done|].
  unfold applyOverrides in *. simpl. apply IH.
Qed.

Lemma setMasterSafe_calls (overrides : list (string * Override.t))
    (font : Font) (char : string) (val : SB.t) :
  setMasterSafe getBoundingBox overrides font char val
  = run font (masterCalls overrides char val).
Proof.
  unfold setMasterSafe, masterCalls. by destruct (lookupKey overrides char).
Qed.

(** Method A is the sequence [tracyCalls] of calls of the primitive. *)
Lemma applyTracyMethod_calls (font : Font) (settings : Settings.t) :
  applyTracyMethod getBoundingBox font settings = run font (tracyCalls settings).
Proof.
  unfold applyTracyMethod, tracyCalls.
  by rewrite runCalls_app, applyOverrides_calls, applyRules_calls.
Qed.

(** Method B is the sequence [sousaCalls]. *)
Lemma applySousaMethod_calls (font : Font) (settings : Settings.t) :
  applySousaMethod getBoundingBox font settings = run font (sousaCalls settings).
Proof.
  unfold applySousaMethod, sousaCalls.
  rewrite !runCalls_app, !setMasterSafe_calls.
  by rewrite applyOverrides_calls, applyRules_calls.
Qed.

Lemma runCalls_indexOf (font : Font) (calls : list Call) (d : string) :
  indexOf (run font calls) d = indexOf font d.
Proof.
  revert font. induction calls as [|[[c l] r] rest IH]; intros font; [done|].
  rewrite runCalls_cons, IH. apply setGlyphSB_indexOf.
Qed.

(** Calls for characters that resolve elsewhere leave a glyph alone. *)
Lemma runCalls_frame (font : Font) (calls : list Call) (j : nat) :
  Forall (λ call : Call, indexOf font call.1.1 ≠ Some j) calls →
  glyphs (run font calls) !! j = glyphs font !! j.
Proof.
  revert font. induction calls as [|[[c l] r] rest IH]; intros font H; [done|].
  inversion H as [|? ? Hc Hrest]; subst. simpl in Hc.
  rewrite runCalls_cons, IH.
  - by apply setGlyphSB_frame.
  - eapply Forall_impl; [exact Hrest|].
    intros call Hcall. by rewrite setGlyphSB_indexOf.
Qed.

Lemma lastCall_None (c : string) (calls : list Call) :
  lastCall c calls = None → Forall (λ call : Call, call.1.1 ≠ c) calls.
Proof.
  induction calls as [|[[c' l] r] rest IH]; intros H; [constructor|].
  simpl in H. destruct (lastCall c rest); [discriminate|].
  destruct (String.eqb c' c) eqn:E; [discriminate|].
  constructor; [|by apply IH].
  simpl. by apply String.eqb_neq.
Qed.

Lemma lastCall_app (c : string) (xs ys : list Call) :
  lastCall c (xs ++ ys)
  = match lastCall c ys with Some t => Some t | None => lastCall c xs end.
Proof.
  induction xs as [|[[c' l] r] rest IH]; simpl.
  - by destruct (lastCall c ys).
  - rewrite IH. by destruct (lastCall c ys).
Qed.

Hypothesis bbox_translates : translates getBoundingBox.

Lemma runCalls_spaceable (font : Font) (calls : list Call) (j : nat) (g : Glyph) :
  glyphs font !! j = Some g → spaceable getBoundingBox g →
  ∃ g', glyphs (run font calls) !! j = Some g' ∧ spaceable getBoundingBox g'.
Proof.
  revert font g. induction calls as [|[[c l] r] rest IH]; intros font g Hj Hg.
  - by exists g.
  - rewrite runCalls_cons.
    destruct (setGlyphSB_spaceable getBoundingBox bbox_translates font c l r j g Hj Hg)
      as (g1 & Hj1 & Hg1).
    by apply (IH _ g1).
Qed.

Lemma lastCallAt_ext (font font' : Font) (i : nat) (calls : list Call) :
  (∀ c, indexOf font' c = indexOf font c) →
  lastCallAt font' i calls = lastCallAt font i calls.
Proof.
  intros H. induction calls as [|[[c l] r] rest IH]; [done|].
  simpl. by rewrite IH, H.
Qed.

Lemma lastCallAt_None (font : Font) (i : nat) (calls : list Call) :
  lastCallAt font i calls = None →
  Forall (λ call : Call, indexOf font call.1.1 ≠ Some i) calls.
Proof.
  induction calls as [|[[c l] r] rest IH]; intros H; [constructor|].
  simpl in H. destruct (lastCallAt font i rest); [discriminate|].
  destruct (bool_decide (indexOf font c = Some i)) eqn:E; [discriminate|].
  apply bool_decide_eq_false in E.
  constructor; [done | by apply IH].
Qed.

(** When [c] is the only character the calls name that resolves to glyph
    [i], the last call for the glyph is the last call for [c]. *)
Lemma lastCallAt_unshared (font : Font) (calls : list Call) (c : string) (i : nat) :
  indexOf font c = Some i → unshared font calls c i →
  lastCallAt font i calls = lastCall c calls.
Proof.
  intros Hc. induction calls as [|[[c' l] r] rest IH]; intros Hun; [done|].
  assert (Hrest : unshared font rest c i).
  { intros d Hd. apply Hun. unfold calledChars. rewrite fmap_cons.
    by apply list_elem_of_further. }
  simpl. rewrite (IH Hrest).
  destruct (lastCall c rest); [done|].
  destruct (String.eqb c' c) eqn:E.
  - apply String.eqb_eq in E as ->. by rewrite bool_decide_eq_true_2.
  - apply String.eqb_neq in E. rewrite bool_decide_eq_false_2; [done|].
    apply Hun; [|done]. unfold calledChars. rewrite fmap_cons. apply list_elem_of_here.
Qed.

(** The last call made for a character that resolves to a glyph decides
    the side bearings of the glyph. *)
Lemma runCalls_last_at (font : Font) (calls : list Call) (i : nat) (g : Glyph) (L R : Q) :
  glyphs font !! i = Some g →
  spaceable getBoundingBox g →
  lastCallAt font i calls = Some (Some L, Some R) →
  ∃ g', glyphs (run font calls) !! i = Some g' ∧ bearings getBoundingBox g' L R.
Proof.
  revert font g. induction calls as [|[[c l] r] rest IH];
    intros font g Hi Hg Hlast; [discriminate|].
  rewrite runCalls_cons. simpl in Hlast.
  assert (Hext : lastCallAt (setSB font c l r) i rest = lastCallAt font i rest)
    by (apply lastCallAt_ext; intros d; apply setGlyphSB_indexOf).
  destruct (lastCallAt font i rest) as [t|] eqn:Hrest.
  - injection Hlast as ->.
    destruct (setGlyphSB_spaceable getBoundingBox bbox_translates font c l r i g Hi Hg)
      as (g1 & Hi1 & Hg1).
    by apply (IH _ g1).
  - destruct (bool_decide (indexOf font c = Some i)) eqn:E; [|discriminate].
    apply bool_decide_eq_true in E. injection Hlast as -> ->.
    assert (Hc : charToGlyph font c = Some (i, g)).
    { apply indexOf_Some in E as [g0 Hc]. pose proof Hc as Hc0.
      apply charToGlyph_Some in Hc0 as [_ Hc0]. congruence. }
    destruct (setGlyphSB_acts getBoundingBox font c (Some L) (Some R) i g Hc Hg)
      as (a & Ha & Hnew).
    eexists. split.
    + rewrite runCalls_frame; [exact Hnew|].
      apply lastCallAt_None. by rewrite Hext.
    + by apply applied_bearings.
Qed.

(** The last call made for a character decides the side bearings of its
    glyph, when no other character the calls name resolves to that
    glyph. *)
Lemma runCalls_last_unshared (font : Font) (calls : list Call) (c : string)
    (i : nat) (g : Glyph) (L R : Q) :
  charToGlyph font c = Some (i, g) →
  spaceable getBoundingBox g →
  unshared font calls c i →
  lastCall c calls = Some (Some L, Some R) →
  ∃ g', charToGlyph (run font calls) c = Some (i, g')
        ∧ spaceable getBoundingBox g'
        ∧ bearings getBoundingBox g' L R.
Proof.
  intros Hc Hg Hun Hlast.
  pose proof Hc as Hc0. apply charToGlyph_Some in Hc0 as [Hmap Hj].
  assert (Hi : indexOf font c = Some i) by (apply indexOf_Some; by exists g).
  rewrite <- (lastCallAt_unshared font calls c i Hi Hun) in Hlast.
  destruct (runCalls_last_at font calls i g L R Hj Hg Hlast) as (g' & Hj' & Hb).
  destruct (runCalls_spaceable font calls i g Hj Hg) as (g2 & Hj2 & Hg2).
  assert (g2 = g') as -> by congruence.
  exists g'. split_and!; [|done|done].
  apply charToGlyph_Some. split; [|done].
  assert (Hi' : indexOf (run font calls) c = Some i) by (by rewrite runCalls_indexOf).
  apply indexOf_Some in Hi' as [g3 Hi'].
  by apply charToGlyph_Some in Hi' as [-> _].
Qed.

End CallFacts.

(** The sharing condition can be computed. *)
Lemma unsharedb_true (font : Font) (calls : list Call) (c : string) (i : nat) :
  unsharedb font calls c i = true → unshared font calls c i.
Proof.
  unfold unsharedb, unshared. rewrite forallb_forall. intros H d Hd Hne.
  apply list_elem_of_In in Hd. specialize (H d Hd).
  apply orb_true_iff in H as [H|H].
  - by apply String.eqb_eq in H.
  - by apply negb_true_iff, bool_decide_eq_false in H.
Qed.

(** ** Membership in a keyed list *)

Lemma lookupKey_In {A : Type} (entries : list (string * A)) (key : string) (v : A) :
  lookupKey entries key = Some v → (key, v) ∈ entries.
Proof.
  induction entries as [|[k w] rest IH]; simpl; [discriminate|].
  destruct (String.eqb k key) eqn:E.
  - apply String.eqb_eq in E as ->. intros [= ->]. apply list_elem_of_here.
  - intros H. apply list_elem_of_further. by apply IH.
Qed.

(** ** Reading side bearings back with [getCharMetrics] *)

Lemma getCharMetrics_bearings (getBoundingBox : list Cmd.t → Box.t)
    (font : Font) (c : string) (i : nat) (g : Glyph) (L R : Z) :
  charToGlyph font c = Some (i, g) →
  startsWithMove (commands g) = true →
  bearings getBoundingBox g (inject_Z L) (inject_Z R) →
  getCharMetrics getBoundingBox font c
  = CharMetrics.mk (Some (inject_Z L)) (Some (inject_Z R)).
Proof.
  intros Hc Hm (a & b & H1 & H2 & Ha & Hb).
  unfold getCharMetrics. rewrite Hc.
  assert (Hlen : (length (commands g) =? 0)%nat = false).
  { destruct (commands g); [done|]. done. }
  rewrite Hlen, !andb_false_r, H1, H2. simpl.
  by rewrite (Math_round_near a L Ha), (Math_round_eq _ R Hb).
Qed.

(** ** The claims about the mutation primitive and the two methods *)

Section SpacingClaims.

Variable getBoundingBox : list Cmd.t → Box.t.
Hypothesis bbox_translates : translates getBoundingBox.

(** The postcondition with the tolerance the primitive itself keeps. *)
Lemma setGlyphSB_bearings (font : Font) (char : string) (i : nat) (g : Glyph) (L R : Q) :
  charToGlyph font char = Some (i, g) →
  spaceable getBoundingBox g →
  ∃ g', charToGlyph (setGlyphSB getBoundingBox font char (Some L) (Some R)) char
        = Some (i, g')
        ∧ bearings getBoundingBox g' L R.
Proof.
  intros Hc Hg.
  destruct (setGlyphSB_acts getBoundingBox font char (Some L) (Some R) i g Hc Hg)
    as (a & Ha & Hnew).
  eexists. split.
  - apply charToGlyph_Some. rewrite setGlyphSB_cmap. split; [|exact Hnew].
    by apply charToGlyph_Some in Hc as [-> _].
  - by apply applied_bearings.
Qed.


(** C5.  Whatever the targets, [null] included, [setGlyphSB] on a glyph
    that resolves to the space character (its name is "space", its code
    point is 32, or its name contains "space") returns the font as it
    was: the advance width and every path command of the glyph are
    unchanged. *)
Theorem setGlyphSB_space_immunity (font : Font) (char : string) (i : nat) (g : Glyph)
    (lsb rsb : option Q) :
  charToGlyph font char = Some (i, g) →
  (name g = Some "space"
   ∨ unicode g = Some 32%N
   ∨ ∃ nm, name g = Some nm ∧ includes nm "space" = true) →
  setGlyphSB getBoundingBox font char lsb rsb = font
  ∧ charToGlyph (setGlyphSB getBoundingBox font char lsb rsb) char = Some (i, g).
Proof.
  intros Hc Hsp.
  assert (Hs : isSpace g = true).
  { unfold isSpace. destruct Hsp as [-> | [-> | (nm & -> & ->)]]; simpl.
    - done.
    - by rewrite orb_true_r.
    - by rewrite orb_true_r. }
  assert (E : setGlyphSB getBoundingBox font char lsb rsb = font).
  { unfold setGlyphSB. by rewrite Hc, Hs. }
  by rewrite E.
Qed.

End SpacingClaims.

(** ** Which call is the last one for a character *)

Lemma memberb_elem_of (c : string) (l : list string) :
  memberb c l = true ↔ c ∈ l.
Proof.
  unfold memberb. rewrite existsb_exists. split.
  - intros (d & Hd & E). apply String.eqb_eq in E as ->. by apply list_elem_of_In.
  - intros H. exists c. split; [by apply list_elem_of_In | apply String.eqb_refl].
Qed.

Lemma table_owned :
  forallb (λ '(B, vs), forallb (variantOwned B) vs) DIACRITICS_TABLE = true.
Proof. vm_compute. reflexivity. Qed.

Lemma table_masters :
  forallb (λ '(B, vs), forallb (λ V, negb (memberb V ["n"; "o"; "H"; "O"])) vs)
    DIACRITICS_TABLE = true.
Proof. vm_compute. reflexivity. Qed.

Lemma related_In (B V : string) :
  V ∈ related B → ∃ vs, (B, vs) ∈ DIACRITICS_TABLE ∧ V ∈ vs.
Proof.
  unfold related, DIACRITICS_MAP.
  destruct (lookupKey DIACRITICS_TABLE B) as [vs|] eqn:E.
  - intros H. exists vs. split; [by apply lookupKey_In | done].
  - intros H. by apply not_elem_of_nil in H.
Qed.

(** A variant belongs to one letter only. *)
Lemma variant_owner (B V c : string) :
  V ∈ related B → c ∈ letters → V ∈ c :: related c → c = B.
Proof.
  intros HV Hc Hin.
  destruct (related_In B V HV) as (vs & Hvs & HVvs).
  pose proof table_owned as T. rewrite forallb_forall in T.
  apply list_elem_of_In in Hvs. specialize (T _ Hvs). simpl in T.
  rewrite forallb_forall in T.
  apply list_elem_of_In in HVvs. specialize (T _ HVvs).
  unfold variantOwned in T. rewrite forallb_forall in T.
  apply list_elem_of_In in Hc. specialize (T _ Hc).
  apply memberb_elem_of in Hin. rewrite Hin in T. simpl in T.
  by apply String.eqb_eq in T.
Qed.

(** No variant is one of the four master letters. *)
Lemma variant_not_master (B V : string) :
  V ∈ related B → V ∉ ["n"; "o"; "H"; "O"].
Proof.
  intros HV Hm.
  destruct (related_In B V HV) as (vs & Hvs & HVvs).
  pose proof table_masters as T. rewrite forallb_forall in T.
  apply list_elem_of_In in Hvs. specialize (T _ Hvs). cbv beta iota in T.
  rewrite forallb_forall in T.
  apply list_elem_of_In in HVvs. specialize (T _ HVvs). cbv beta in T.
  apply memberb_elem_of in Hm. by rewrite Hm in T.
Qed.

Lemma lastCall_notin (c : string) (calls : list Call) :
  Forall (λ call : Call, call.1.1 ≠ c) calls → lastCall c calls = None.
Proof.
  induction 1 as [|[[c' l] r] rest Hc _ IH]; [done|].
  simpl in *. rewrite IH.
  apply String.eqb_neq in Hc. by rewrite Hc.
Qed.

Lemma lastCall_ruleCalls_in (V c : string) (l r : Q) :
  V ∈ c :: related c → lastCall V (ruleCalls (c, l, r)) = Some (Some l, Some r).
Proof.
  intros H. unfold ruleCalls.
  assert (G : ∀ vs : list string,
    match lastCall V ((λ child, (child, Some l, Some r)) <$> vs) with
    | Some t => t = (Some l, Some r) ∧ V ∈ vs
    | None => V ∉ vs
    end).
  { induction vs as [|v vs IH]; simpl; [apply not_elem_of_nil|].
    destruct (lastCall V _) as [t|].
    - destruct IH as [-> ?]. split; [done | by apply list_elem_of_further].
    - destruct (String.eqb v V) eqn:E.
      + apply String.eqb_eq in E as ->. split; [done | apply list_elem_of_here].
      + apply String.eqb_neq in E. intros [->|?]%elem_of_cons; done. }
  simpl. specialize (G (related c)).
  destruct (lastCall V _) as [t|].
  - by destruct G as [-> _].
  - apply elem_of_cons in H as [->|H]; [|done].
    by rewrite String.eqb_refl.
Qed.

Lemma lastCall_ruleCalls_notin (V c : string) (l r : Q) :
  V ∉ c :: related c → lastCall V (ruleCalls (c, l, r)) = None.
Proof.
  intros H. apply lastCall_notin. unfold ruleCalls.
  constructor.
  - simpl. intros ->. apply H, list_elem_of_here.
  - apply Forall_fmap, Forall_forall. intros v Hv. simpl. intros ->.
    by apply H, list_elem_of_further.
Qed.

(** The last call the rules make for [V], a letter [B] or one of its
    variants, carries the pair of the last rule for [B]. *)
Lemma lastCall_rules (B V : string) (rules : list (string * Q * Q)) :
  V ∈ B :: related B →
  Forall (λ rule : string * Q * Q, V ∈ rule.1.1 :: related rule.1.1 → rule.1.1 = B) rules →
  lastCall V (flat_map ruleCalls rules)
  = (λ '(l, r), (Some l, Some r)) <$> lastRule B rules.
Proof.
  intros HV. induction 1 as [|[[c l] r] rest Hc _ IH]; [done|].
  simpl in *. rewrite lastCall_app, IH.
  destruct (lastRule B rest) as [[l' r']|]; [done|]. simpl.
  destruct (String.eqb c B) eqn:E.
  - apply String.eqb_eq in E as ->. by apply lastCall_ruleCalls_in.
  - apply String.eqb_neq in E. apply lastCall_ruleCalls_notin.
    intros Hin. by apply E, Hc.
Qed.

Lemma lookupKey_None_notin {A : Type} (entries : list (string * A)) (key : string) :
  lookupKey entries key = None ↔ key ∉ entries.*1.
Proof.
  induction entries as [|[k v] rest IH]; simpl.
  - split; [intros _; apply not_elem_of_nil | done].
  - destruct (String.eqb k key) eqn:E.
    + apply String.eqb_eq in E as ->. split; [done|].
      intros H. exfalso. apply H, list_elem_of_here.
    + apply String.eqb_neq in E. rewrite IH. split.
      * intros H [->|?]%elem_of_cons; done.
      * intros H ?. by apply H, list_elem_of_further.
Qed.

Lemma lastCall_overrides_notin (c : string) (overrides : list (string * Override.t)) :
  c ∉ overrides.*1 → lastCall c (overrideCalls overrides) = None.
Proof.
  intros H. apply lastCall_notin. unfold overrideCalls.
  apply Forall_fmap, Forall_forall. intros [k ov] Hk. simpl. intros ->.
  apply H. apply list_elem_of_fmap. by exists (c, ov).
Qed.

(** The keys of an object are distinct: the one entry for a key is the
    last call made for it. *)
Lemma lastCall_overrides (c : string) (ov : Override.t)
    (overrides : list (string * Override.t)) :
  NoDup overrides.*1 → (c, ov) ∈ overrides →
  lastCall c (overrideCalls overrides) = Some (Override.lsb ov, Override.rsb ov).
Proof.
  induction overrides as [|[k o'] rest IH]; intros Hnd Hin.
  - by apply not_elem_of_nil in Hin.
  - simpl in *. apply NoDup_cons in Hnd as [Hk Hnd].
    apply elem_of_cons in Hin as [[= <- <-]|Hin].
    + rewrite (lastCall_overrides_notin c rest Hk).
      by rewrite String.eqb_refl.
    + by rewrite (IH Hnd Hin).
Qed.

Lemma lastCall_masterCalls (c m : string) (val : SB.t)
    (overrides : list (string * Override.t)) :
  c ∈ overrides.*1 ∨ c ≠ m →
  lastCall c (masterCalls overrides m val) = None.
Proof.
  intros H. unfold masterCalls.
  destruct (lookupKey overrides m) eqn:E; [done|].
  simpl. destruct (String.eqb m c) eqn:Em; [|done].
  apply String.eqb_eq in Em as ->.
  destruct H as [H|H]; [|done].
  by apply lookupKey_None_notin in E.
Qed.

Lemma tracyRules_letters (settings : Settings.t) :
  Forall (λ rule : string * Q * Q, rule.1.1 ∈ letters) (tracyRules settings).
Proof.
  unfold tracyRules. cbv zeta.
  repeat (constructor; [apply memberb_elem_of; vm_compute; reflexivity|]).
  constructor.
Qed.

Lemma sousaRules_letters (settings : Settings.t) :
  Forall (λ rule : string * Q * Q, rule.1.1 ∈ letters) (sousaRules settings).
Proof.
  unfold sousaRules. apply Forall_fmap.
  assert (H : forallb (λ entry : string * Topo.t, memberb entry.1 letters) TOPOLOGY = true)
    by (vm_compute; reflexivity).
  rewrite forallb_forall in H. apply Forall_forall. intros [c topo] Hin.
  apply list_elem_of_In in Hin. specialize (H _ Hin). simpl in *.
  by apply memberb_elem_of.
Qed.

(** For a variant [V] of [B], the rules of either method end with the
    pair of the last rule for [B]. *)
Lemma lastCall_variant (B V : string) (rules : list (string * Q * Q)) :
  V ∈ related B →
  Forall (λ rule : string * Q * Q, rule.1.1 ∈ letters) rules →
  lastCall V (flat_map ruleCalls rules)
  = (λ '(l, r), (Some l, Some r)) <$> lastRule B rules.
Proof.
  intros HV Hl. apply lastCall_rules; [by apply list_elem_of_further|].
  eapply Forall_impl; [exact Hl|].
  intros [[c l] r] Hc Hin. simpl in *. by apply (variant_owner B V c).
Qed.

(** What a run of calls leaves for a character: its side bearings on the
    outline, and what [getCharMetrics] reports when the targets are whole
    numbers. *)
Lemma runCalls_result (getBoundingBox : list Cmd.t → Box.t)
    (bbox_translates : translates getBoundingBox) (font : Font) (calls : list Call)
    (c : string) (i : nat) (g : Glyph) (L R : Q) :
  charToGlyph font c = Some (i, g) →
  spaceable getBoundingBox g →
  unshared font calls c i →
  lastCall c calls = Some (Some L, Some R) →
  (∃ g', charToGlyph (runCalls getBoundingBox font calls) c = Some (i, g')
         ∧ bearings getBoundingBox g' L R)
  ∧ ∀ kl kr : Z, L = inject_Z kl → R = inject_Z kr →
      getCharMetrics getBoundingBox (runCalls getBoundingBox font calls) c
      = CharMetrics.mk (Some L) (Some R).
Proof.
  intros Hc Hg Hun Hlast.
  destruct (runCalls_last_unshared getBoundingBox bbox_translates font calls c i g L R
              Hc Hg Hun Hlast)
    as (g' & Hc' & Hg' & Hb).
  split; [by exists g'|].
  intros kl kr -> ->.
  apply (getCharMetrics_bearings getBoundingBox _ c i g'); [done | apply Hg' | done].
Qed.


(** Every letter of the topology table has a rule in Method A, and in
    Method B the rule [getValue] reads off its two edges. *)
Lemma tracyRules_lastRule (settings : Settings.t) (B : string) (topo : Topo.t) :
  (B, topo) ∈ TOPOLOGY → ∃ l r, lastRule B (tracyRules settings) = Some (l, r).
Proof.
  intros Hin. unfold TOPOLOGY in Hin.
  repeat (apply elem_of_cons in Hin as [[= -> ->]|Hin]; [eexists _, _; reflexivity|]).
  by apply not_elem_of_nil in Hin.
Qed.

Lemma sousaRules_lastRule (settings : Settings.t) (B : string) (topo : Topo.t) :
  (B, topo) ∈ TOPOLOGY →
  lastRule B (sousaRules settings)
  = Some (getValue settings B (Topo.l topo), getValue settings B (Topo.r topo)).
Proof.
  intros Hin. unfold TOPOLOGY in Hin.
  repeat (apply elem_of_cons in Hin as [[= -> ->]|Hin]; [reflexivity|]).
  by apply not_elem_of_nil in Hin.
Qed.

Section MethodClaims.

Variable getBoundingBox : list Cmd.t → Box.t.
Hypothesis bbox_translates : translates getBoundingBox.

Local Abbreviation tracy := (applyTracyMethod getBoundingBox).
Local Abbreviation sousa := (applySousaMethod getBoundingBox).

(** C2.  With masters H = (80, 80), O = (70, 70),
    n = (40, 35), o = (45, 45) and no override, Method A leaves [M] and
    [N] with lsb = rsb = round(80 * 1.15) = 92 and [T] with
    lsb = rsb = max(5, round(80 * 0.25)) = 20, the products being those
    of doubles, for each of the three whose glyph is not the space, has an
    outline and a numeric box, and is the glyph of no other character
    Method A sets: [getCharMetrics] reports exactly these values, and on
    the outline the right bearing is the value and the left one is within
    the 0.001 the primitive does not move an outline by. *)
Theorem tracy_scenario (font : Font) (c : string) (target : Z) (i : nat) (g : Glyph)
    (x1 x2 : Q) :
  (c, target) ∈ [("M", 92%Z); ("N", 92%Z); ("T", 20%Z)] →
  charToGlyph font c = Some (i, g) →
  isSpace g = false →
  startsWithMove (commands g) = true →
  Box.x1 (getBoundingBox (commands g)) = Some x1 →
  Box.x2 (getBoundingBox (commands g)) = Some x2 →
  unshared font (tracyCalls scenarioSettings) c i →
  Math_round (js_mul 80 1.15) = 92 ∧ Math_max 5 (Math_round (js_mul 80 0.25)) = 20
  ∧ getCharMetrics getBoundingBox (tracy font scenarioSettings) c
    = CharMetrics.mk (Some (inject_Z target)) (Some (inject_Z target))
  ∧ ∃ g', charToGlyph (tracy font scenarioSettings) c = Some (i, g')
          ∧ bearings getBoundingBox g' (inject_Z target) (inject_Z target).
Proof.
  intros Hin Hc Hs Hm H1 H2 Hun.
  split; [reflexivity|]. split; [reflexivity|].
  assert (Hlast : lastCall c (tracyCalls scenarioSettings)
                  = Some (Some (inject_Z target), Some (inject_Z target))).
  { repeat (apply elem_of_cons in Hin as [[= -> ->]|Hin]; [reflexivity|]).
    by apply not_elem_of_nil in Hin. }
  destruct (runCalls_result getBoundingBox bbox_translates font
              (tracyCalls scenarioSettings) c i g (inject_Z target) (inject_Z target) Hc)
    as [Hb Hexact]; [repeat split; eauto | done | done |].
  rewrite applyTracyMethod_calls. split; [by apply (Hexact target target) | exact Hb].
Qed.



End MethodClaims.

(** ** The spacing claims on the demonstration font *)


Lemma setGlyphSB_space_immunity_witness :
  setGlyphSB pointsBoundingBox demoFont " " (Some 10) None = demoFont
  ∧ charToGlyph (setGlyphSB pointsBoundingBox demoFont " " (Some 10) None) " "
    = Some (4%nat, glyphSpace).
Proof.
  apply (setGlyphSB_space_immunity pointsBoundingBox demoFont " " 4%nat glyphSpace
           (Some 10) None).
  - reflexivity.
  - left. reflexivity.
Defined.


Lemma tracy_scenario_witness :
  Math_round (js_mul 80 1.15) = 92 ∧ Math_max 5 (Math_round (js_mul 80 0.25)) = 20
  ∧ getCharMetrics pointsBoundingBox
      (applyTracyMethod pointsBoundingBox parsedFont scenarioSettings) "M"
    = CharMetrics.mk (Some 92) (Some 92)
  ∧ ∃ g', charToGlyph (applyTracyMethod pointsBoundingBox parsedFont scenarioSettings) "M"
          = Some (1%nat, g')
          ∧ bearings pointsBoundingBox g' 92 92.
Proof.
  apply (tracy_scenario pointsBoundingBox pointsBoundingBox_translates
           parsedFont "M" 92%Z 1%nat glyphM 30 830).
  - apply list_elem_of_here.
  - reflexivity.
  - reflexivity.
  - reflexivity.
  - reflexivity.
  - reflexivity.
  - apply unsharedb_true. vm_compute. reflexivity.
Defined.

(** C2 as the specification states it fails.  In a font with small
    capitals [m] is drawn with the glyph of [M]: the glyph is not the
    space and has an outline and a numeric box, and Method A, which sets
    [M] to (92, 92) and later [m] to (40, 35), leaves [M] with (40, 35). *)
Lemma tracy_scenario_shared_glyph :
  charToGlyph smallCapsFont "M" = Some (1%nat, glyphM)
  ∧ charToGlyph smallCapsFont "m" = Some (1%nat, glyphM)
  ∧ isSpace glyphM = false
  ∧ pointsBoundingBox (commands glyphM) = Box.mk (Some 30) (Some 0) (Some 830) (Some 700)
  ∧ getCharMetrics pointsBoundingBox
      (applyTracyMethod pointsBoundingBox smallCapsFont scenarioSettings) "M"
    = CharMetrics.mk (Some 40) (Some 35).
Proof. split_and!; vm_compute; reflexivity. Qed.





(** ** The queries *)

Lemma isZero_true (v : number) : isZero v = true ↔ ∃ q, v = Some q ∧ q == 0.
Proof.
  unfold isZero. destruct v as [q|].
  - rewrite Qeq_bool_iff. split; [by exists q | by intros (? & [= <-] & ?)].
  - split; [discriminate | by intros (? & ? & _)].
Qed.

Section QueryClaims.

Variable getBoundingBox : list Cmd.t → Box.t.

Lemma emptyGlyph_test (g : Glyph) :
  let box := getBoundingBox (commands g) in
  isZero (Box.x1 box) && isZero (Box.x2 box) && isZero (Box.y1 box)
  && isZero (Box.y2 box) && (length (commands g) =? 0)%nat = true
  ↔ emptyGlyph getBoundingBox g.
Proof.
  simpl. rewrite !andb_true_iff, !isZero_true, Nat.eqb_eq. unfold emptyGlyph.
  destruct (getBoundingBox (commands g)) as [bx1 by1 bx2 by2]. simpl. split.
  - intros (((((a & -> & Ha) & (c & -> & Hc)) & (b & -> & Hb)) & (d & -> & Hd)) & Hl).
    split; [by destruct (commands g) | by exists a, b, c, d].
  - intros (Hl & a & b & c & d & [= -> -> -> ->] & Ha & Hb & Hc & Hd).
    rewrite Hl. split_and!; eauto.
Qed.


(** The library's box of a path without a point is the all-zero box. *)
Hypothesis bbox_empty : getBoundingBox [] = Box.zero.

(** C9.  When [x] has no outline (the character resolves to no glyph, or
    to a glyph that is not a real mapped one, or to a glyph without path
    commands) the x-height is 0; when [H] resolves to a real mapped glyph
    whose box is [(0, 0, 700, 700)] the cap height is 700, the height
    [y2 - y1] of the box; a glyph that is not a real mapped one leaves the
    default 0. *)
Theorem metrics_fallback (font : Font) :
  ((charToGlyph font "x" = None
    ∨ ∃ i g, charToGlyph font "x" = Some (i, g)
             ∧ (truthy (unicode g) = false ∨ commands g = [])) →
   Metrics.xHeight (createFontState_metrics getBoundingBox font) = Some 0)
  ∧ (∀ i g, charToGlyph font "H" = Some (i, g) →
       truthy (unicode g) = true →
       getBoundingBox (commands g) = Box.mk (Some 0) (Some 0) (Some 700) (Some 700) →
       Metrics.capHeight (createFontState_metrics getBoundingBox font) = Some 700)
  ∧ (∀ i g (bottom top : Q), charToGlyph font "H" = Some (i, g) →
       truthy (unicode g) = true →
       Box.y1 (getBoundingBox (commands g)) = Some bottom →
       Box.y2 (getBoundingBox (commands g)) = Some top →
       Metrics.capHeight (createFontState_metrics getBoundingBox font)
       = Some (top - bottom))
  ∧ ((charToGlyph font "H" = None
      ∨ ∃ i g, charToGlyph font "H" = Some (i, g) ∧ truthy (unicode g) = false) →
     Metrics.capHeight (createFontState_metrics getBoundingBox font) = Some 0).
Proof.
  unfold createFontState_metrics, glyphHeight. simpl. split_and!.
  - intros [-> | (i & g & -> & [Hu | Hcmds])]; [done | by rewrite Hu |].
    destruct (truthy (unicode g)); [|done].
    by rewrite Hcmds, bbox_empty.
  - intros i g -> -> ->. reflexivity.
  - intros i g bottom top -> -> Hb Ht. by rewrite Hb, Ht.
  - intros [-> | (i & g & -> & ->)]; done.
Qed.

End QueryClaims.

Lemma nearest_integer (k m : Z) (v : Q) :
  v == inject_Z m → inject_Z k <= v → v < inject_Z (k + 1) → k = m.
Proof.
  intros Hv Hle Hlt. rewrite Hv in Hle, Hlt.
  rewrite <- Zle_Qle in Hle. rewrite <- Zlt_Qlt in Hlt. lia.
Qed.

Lemma nearest_integer_below (k m : Z) (v : Q) :
  inject_Z m <= v → v < inject_Z (m + 1) →
  inject_Z k <= v → v < inject_Z (k + 1) → k = m.
Proof.
  intros Hm1 Hm2 Hk1 Hk2.
  pose proof (Qle_lt_trans _ _ _ Hm1 Hk2) as H1.
  pose proof (Qle_lt_trans _ _ _ Hk1 Hm2) as H2.
  rewrite <- Zlt_Qlt in H1, H2. lia.
Qed.



Lemma metrics_fallback_witness :
  Metrics.xHeight (createFontState_metrics pointsBoundingBox demoFont) = Some 0
  ∧ Metrics.capHeight (createFontState_metrics pointsBoundingBox demoFont) = Some 700.
Proof.
  pose proof (metrics_fallback pointsBoundingBox eq_refl demoFont) as (Hx & HH & _).
  split.
  - apply Hx. right. exists 8%nat, glyphX. split; [reflexivity | by right].
  - apply (HH 7%nat glyphH); reflexivity.
Defined.

(** ** Glyph names for export *)

Lemma allChars_append (p : ascii → bool) (s t : string) :
  allChars p (String.append s t) = allChars p s && allChars p t.
Proof.
  induction s as [|a s IH]; simpl; [done|].
  by rewrite IH, andb_assoc.
Qed.

Lemma allChars_impl (p q : ascii → bool) (s : string) :
  (∀ a, p a = true → q a = true) → allChars p s = true → allChars q s = true.
Proof.
  intros Hpq. induction s as [|a s IH]; simpl; [done|].
  rewrite !andb_true_iff. intros [Ha Hs]. split; [by apply Hpq | by apply IH].
Qed.

Lemma isAlnum_safe (a : ascii) : isAlnum a = true → isSafeChar a = true.
Proof. unfold isSafeChar. by intros ->. Qed.

Lemma isAlnum_upper (a : ascii) : isAlnum a = true → isAlnum (upperAscii a) = true.
Proof.
  destruct a as [[] [] [] [] [] [] [] []]; vm_compute; intros H;
    first [exact H | reflexivity].
Qed.

Lemma allChars_upper (s : string) :
  allChars isAlnum s = true → allChars isAlnum (toUpperCase s) = true.
Proof.
  induction s as [|a s IH]; simpl; [done|].
  rewrite !andb_true_iff. intros [Ha Hs]. split; [by apply isAlnum_upper | by apply IH].
Qed.

Lemma allChars_hex (d : Hexadecimal.uint) :
  allChars isAlnum (HexadecimalString.NilEmpty.string_of_uint d) = true.
Proof. induction d; simpl; try done; by rewrite IHd. Qed.

Lemma allChars_dec (d : Decimal.uint) :
  allChars isAlnum (DecimalString.NilEmpty.string_of_uint d) = true.
Proof. induction d; simpl; try done; by rewrite IHd. Qed.

Lemma allChars_toString16 (u : N) : allChars isAlnum (toString16 u) = true.
Proof.
  unfold toString16, HexadecimalString.NilZero.string_of_uint.
  destruct (N.to_hex_uint u) eqn:E; try done; rewrite <- E; apply allChars_hex.
Qed.

Lemma allChars_toString10 (i : nat) : allChars isAlnum (toString10 i) = true.
Proof.
  unfold toString10, DecimalString.NilZero.string_of_uint.
  destruct (Nat.to_uint i) eqn:E; try done; rewrite <- E; apply allChars_dec.
Qed.

Lemma allChars_zeros (k : nat) : allChars isAlnum (zeros k) = true.
Proof. induction k; simpl; [done | by rewrite IHk]. Qed.

Lemma allChars_gid (i : nat) : allChars isAlnum (gid i) = true.
Proof. unfold gid. rewrite allChars_append, allChars_toString10. done. Qed.

Lemma allChars_uni (u : N) :
  allChars isAlnum (String.append "uni" (padStart4 (toUpperCase (toString16 u)))) = true.
Proof.
  unfold padStart4. rewrite !allChars_append, allChars_zeros.
  by rewrite allChars_upper by apply allChars_toString16.
Qed.

Lemma replaceUnsafe_safe (s : string) : allChars isSafeChar (replaceUnsafe s) = true.
Proof.
  unfold replaceUnsafe. induction s as [|a s IH]; simpl; [done|].
  rewrite IH, andb_true_r. by destruct (isSafeChar a) eqn:E.
Qed.

Lemma replaceUnsafe_id (s : string) :
  allChars isSafeChar s = true → replaceUnsafe s = s.
Proof.
  unfold replaceUnsafe. induction s as [|a s IH]; simpl; [done|].
  rewrite andb_true_iff. intros [-> Hs]. by rewrite IH.
Qed.

Lemma replaceUnsafe_nonempty (s : string) :
  s ≠ EmptyString → replaceUnsafe s ≠ EmptyString.
Proof. by destruct s. Qed.

Lemma gid_nonempty (i : nat) : gid i ≠ EmptyString.
Proof. done. Qed.

Lemma assignedName_missing (i : nat) (g : Glyph) :
  nameMissing g → assignedName i g = generatedName i g.
Proof.
  unfold assignedName, generatedName.
  intros [-> | (nm & -> & ->)]; by destruct (unicode g).
Qed.

Lemma generatedName_alnum (i : nat) (g : Glyph) :
  allChars isAlnum (generatedName i g) = true.
Proof.
  unfold generatedName. destruct (truthy (unicode g)); [apply allChars_uni | apply allChars_gid].
Qed.

Lemma assignedName_nonempty (i : nat) (g : Glyph) : assignedName i g ≠ EmptyString.
Proof.
  unfold assignedName.
  destruct (name g) as [nm|] eqn:En.
  - destruct (trimIsEmpty nm) eqn:Et.
    + destruct (unicode g) as [u|]; [|done]. by destruct (truthy (Some u)).
    + simpl. by intros ->.
  - destruct (unicode g) as [u|]; [|done]. by destruct (truthy (Some u)).
Qed.

Lemma ensureGlyphNames_glyphs (font : Font) :
  glyphs (ensureGlyphNames font) = imap ensureGlyphName (glyphs font).
Proof.
  unfold ensureGlyphNames.
  destruct (glyphs font) as [|g0 gs] eqn:E; simpl; [by rewrite E | done].
Qed.

(** C7 as the specification states it fails: the sanitizing expression
    keeps the period, so [.notdef], the first glyph of almost every font,
    keeps a name that is not made of letters, digits and underscores. *)
Lemma ensureGlyphNames_keeps_period :
  ∃ g, glyphs (ensureGlyphNames demoFont) !! 0%nat = Some g
       ∧ name g = Some ".notdef"
       ∧ ¬ alnumUnderscoreName (name g).
Proof.
  eexists. split_and!; [reflexivity | reflexivity |].
  intros (s & [= <-] & _ & H). discriminate H.
Qed.

(** C7, as the code has it.  After [ensureGlyphNames] every glyph has a
    name that is not empty and made of letters, digits, periods and
    underscores only; a glyph whose name was missing or blank is named
    [uni] followed by its code point in four or more upper-case hexadecimal
    digits when it has a code point other than 0, and [gid] followed by its
    index otherwise. *)
Theorem ensureGlyphNames_names (font : Font) (i : nat) (g : Glyph) :
  glyphs font !! i = Some g →
  ∃ g', glyphs (ensureGlyphNames font) !! i = Some g'
        ∧ safeName (name g')
        ∧ (nameMissing g → name g' = Some (generatedName i g)).
Proof.
  intros Hg. rewrite ensureGlyphNames_glyphs, list_lookup_imap, Hg. simpl.
  eexists. split; [done|]. unfold ensureGlyphName. simpl.
  pose proof (replaceUnsafe_nonempty _ (assignedName_nonempty i g)) as Hne.
  assert (Hlen : (String.length (replaceUnsafe (assignedName i g)) =? 0)%nat = false).
  { destruct (replaceUnsafe (assignedName i g)); done. }
  rewrite Hlen. split.
  - eexists. split_and!; [done | done | apply replaceUnsafe_safe].
  - intros Hm. rewrite (assignedName_missing i g Hm). f_equal.
    apply replaceUnsafe_id.
    eapply allChars_impl; [apply isAlnum_safe | apply generatedName_alnum].
Qed.

Lemma ensureGlyphNames_names_witness :
  ∃ g', glyphs (ensureGlyphNames unnamedFont) !! 0%nat = Some g'
        ∧ safeName (name g')
        ∧ (nameMissing (mkGlyph None (Some 193%N) 700 None (rectangle 15 0 685 900)
                          None None None None) →
           name g' = Some "uni00C1").
Proof.
  apply (ensureGlyphNames_names unnamedFont 0%nat). reflexivity.
Defined.

(** ** Export *)

(** C8 as the specification states it fails: when the serializer returns an
    empty buffer the error thrown for it is caught inside [createFontUrl];
    the call returns the empty string to its caller and throws nothing. *)
Lemma createFontUrl_swallows_empty_buffer :
  createFontUrlTry emptySerializer blobUrl (exportPrepared 0 demoFont "Demo")
  = Throws "Generated font buffer is empty"
  ∧ completion (createFontUrl emptySerializer blobUrl 0 demoFont "Demo")
    = Returns EmptyString
  ∧ ∀ message, completion (createFontUrl emptySerializer blobUrl 0 demoFont "Demo")
               ≠ Throws message.
Proof. split_and!; [reflexivity | reflexivity | discriminate]. Qed.

(** C8, as the code has it.  When serialization yields no buffer or an
    empty one, [createFontUrl] throws inside its [try] block, catches the
    error, writes it to the console and returns the empty string: no URL
    of a binary is returned, and the caller sees no error. *)
Theorem createFontUrl_empty_buffer
    (toArrayBuffer : Font → Completion (option (list byte)))
    (createObjectURL : list byte → string)
    (now : N) (font : Font) (familyName : string) :
  (toArrayBuffer (exportPrepared now font familyName) = Returns None
   ∨ ∃ buffer, toArrayBuffer (exportPrepared now font familyName) = Returns (Some buffer)
               ∧ length buffer = 0%nat) →
  createFontUrlTry toArrayBuffer createObjectURL (exportPrepared now font familyName)
  = Throws "Generated font buffer is empty"
  ∧ createFontUrl toArrayBuffer createObjectURL now font familyName
    = mkExported (Returns EmptyString) ["Error creating font URL"]
        (exportPrepared now font familyName).
Proof.
  intros H.
  assert (E : createFontUrlTry toArrayBuffer createObjectURL
                (exportPrepared now font familyName)
              = Throws "Generated font buffer is empty").
  { unfold createFontUrlTry, silentToArrayBuffer.
    destruct H as [-> | (buffer & -> & Hlen)]; [done|]. by rewrite Hlen. }
  split; [exact E|]. unfold createFontUrl. by rewrite E.
Qed.

Lemma createFontUrl_empty_buffer_witness :
  createFontUrlTry emptySerializer blobUrl (exportPrepared 0 demoFont "Demo")
  = Throws "Generated font buffer is empty"
  ∧ createFontUrl emptySerializer blobUrl 0 demoFont "Demo"
    = mkExported (Returns EmptyString) ["Error creating font URL"]
        (exportPrepared 0 demoFont "Demo").
Proof.
  apply (createFontUrl_empty_buffer emptySerializer blobUrl 0 demoFont "Demo").
  right. exists []. split; reflexivity.
Defined.

(** ** The sanitizer *)

Section SanitizerFacts.

Local Open Scope nat_scope.

Lemma tagFrom_lookup (buf : list byte) (offset : nat) :
  offset + 4 ≤ length buf →
  ∃ t1 t2 t3 t4,
    buf !! offset = Some t1 ∧ buf !! (offset + 1) = Some t2
    ∧ buf !! (offset + 2) = Some t3 ∧ buf !! (offset + 3) = Some t4
    ∧ tagFrom buf offset = [t1; t2; t3; t4].
Proof.
  intros Hlen. unfold tagFrom.
  assert (Hd : 4 ≤ length (drop offset buf)) by (rewrite length_drop; lia).
  pose proof (lookup_drop buf offset) as Hl.
  destruct (drop offset buf) as [|t1 [|t2 [|t3 [|t4 rest]]]]; simpl in Hd; try lia.
  exists t1, t2, t3, t4. split_and!.
  - by rewrite <- (Nat.add_0_r offset), <- Hl.
  - by rewrite <- Hl.
  - by rewrite <- Hl.
  - by rewrite <- Hl.
  - done.
Qed.

Lemma tagFrom_ext (l1 l2 : list byte) (offset : nat) :
  (∀ j, j < 4 → l1 !! (offset + j) = l2 !! (offset + j)) →
  tagFrom l1 offset = tagFrom l2 offset.
Proof.
  intros H. apply list_eq. intros j. unfold tagFrom.
  rewrite !lookup_take. destruct (decide (j < 4)); [|done].
  rewrite !lookup_drop. by apply H.
Qed.

Lemma patchEntry_length (cur : list byte) (offset : nat) :
  length (patchEntry cur offset) = length cur.
Proof.
  unfold patchEntry. destruct (deniedFrom cur offset); [|done].
  by rewrite !length_insert.
Qed.

Lemma patchEntry_outside (cur : list byte) (offset k : nat) :
  k < offset ∨ offset + 4 ≤ k → patchEntry cur offset !! k = cur !! k.
Proof.
  intros H. unfold patchEntry. destruct (deniedFrom cur offset); [|done].
  rewrite !list_lookup_insert_ne by lia. done.
Qed.

Lemma patchEntry_inside (cur : list byte) (offset j : nat) :
  offset + 4 ≤ length cur → j < 4 →
  patchEntry cur offset !! (offset + j)
  = if deniedFrom cur offset then voidTag !! j else cur !! (offset + j).
Proof.
  intros Hlen Hj. unfold patchEntry. destruct (deniedFrom cur offset); [|done].
  destruct j as [|[|[|[|j]]]]; try lia; simpl.
  - rewrite Nat.add_0_r, !list_lookup_insert_ne by lia.
    apply list_lookup_insert_eq. lia.
  - rewrite !list_lookup_insert_ne by lia.
    apply list_lookup_insert_eq. rewrite length_insert. lia.
  - rewrite !list_lookup_insert_ne by lia.
    apply list_lookup_insert_eq. rewrite !length_insert. lia.
  - apply list_lookup_insert_eq. rewrite !length_insert. lia.
Qed.

(** One turn of the loop whose four reads are inside the buffer. *)
Lemma stripLoop_turn (n offset : nat) (caller cur : list byte) :
  offset + 4 ≤ length cur →
  stripLoop (S n) offset (mkHeap caller (Some cur))
  = stripLoop n (offset + 16) (mkHeap caller (Some (patchEntry cur offset))).
Proof.
  intros Hlen.
  destruct (tagFrom_lookup cur offset Hlen) as (t1 & t2 & t3 & t4 & E1 & E2 & E3 & E4 & Et).
  unfold patchEntry, deniedFrom. rewrite Et.
  simpl. unfold getUint8. simpl. rewrite E1, E2, E3, E4. simpl.
  destruct (bool_decide _); [|done].
  unfold setUint8. simpl.
  rewrite decide_True by lia. simpl.
  rewrite decide_True by (rewrite length_insert; lia). simpl.
  rewrite decide_True by (rewrite !length_insert; lia). simpl.
  rewrite decide_True by (rewrite !length_insert; lia). simpl.
  done.
Qed.

(** A turn that reads past the end throws. *)
Lemma stripLoop_throws (n offset : nat) (caller cur : list byte) :
  length cur < offset + 4 →
  stripLoop (S n) offset (mkHeap caller (Some cur)) = None.
Proof.
  intros Hlen. simpl. unfold getUint8. simpl.
  assert (E4 : cur !! (offset + 3) = None) by (apply lookup_ge_None; lia).
  destruct (cur !! offset); [|done]. simpl.
  destruct (cur !! (offset + 1)); [|done]. simpl.
  destruct (cur !! (offset + 2)); [|done]. simpl.
  by rewrite E4.
Qed.

Lemma stripLoop_ok (n : nat) : ∀ (offset : nat) (caller cur : list byte),
  (∀ i, i < n → offset + 16 * i + 4 ≤ length cur) →
  ∃ out,
    stripLoop n offset (mkHeap caller (Some cur)) = Some (mkHeap caller (Some out))
    ∧ length out = length cur
    ∧ (∀ i j, i < n → j < 4 →
         out !! (offset + 16 * i + j)
         = if deniedFrom cur (offset + 16 * i) then voidTag !! j
           else cur !! (offset + 16 * i + j))
    ∧ (∀ k, (∀ i j, i < n → j < 4 → k ≠ offset + 16 * i + j) → out !! k = cur !! k).
Proof.
  induction n as [|n IH]; intros offset caller cur Hin.
  - exists cur. split_and!; [done | done | intros; lia | done].
  - assert (H0 : offset + 4 ≤ length cur) by (specialize (Hin 0); lia).
    rewrite (stripLoop_turn n offset caller cur H0).
    destruct (IH (offset + 16) caller (patchEntry cur offset))
      as (out & Hrun & Hlen & Hins & Houts).
    { intros i Hi. rewrite patchEntry_length. specialize (Hin (S i)). lia. }
    exists out. split_and!.
    + done.
    + by rewrite Hlen, patchEntry_length.
    + intros i j Hi Hj. destruct i as [|i].
      * rewrite Houts by (intros; lia).
        replace (offset + 16 * 0 + j) with (offset + j) by lia.
        replace (offset + 16 * 0) with offset by lia.
        by apply patchEntry_inside.
      * replace (offset + 16 * S i + j) with (offset + 16 + 16 * i + j) by lia.
        replace (offset + 16 * S i) with (offset + 16 + 16 * i) by lia.
        rewrite Hins by lia.
        assert (Et : deniedFrom (patchEntry cur offset) (offset + 16 + 16 * i)
                     = deniedFrom cur (offset + 16 + 16 * i)).
        { unfold deniedFrom.
          rewrite (tagFrom_ext (patchEntry cur offset) cur (offset + 16 + 16 * i)); [done|].
          intros j' _. apply patchEntry_outside. lia. }
        rewrite Et. destruct (deniedFrom cur _); [done|].
        apply patchEntry_outside. lia.
    + intros k Hk. rewrite Houts.
      * apply patchEntry_outside.
        destruct (decide (k < offset)); [by left|]. right.
        destruct (decide (offset + 4 ≤ k)); [done|]. exfalso.
        apply (Hk 0 (k - offset)); lia.
      * intros i j Hi Hj. specialize (Hk (S i) j). lia.
Qed.

Lemma stripLoop_fail (n : nat) : ∀ (offset : nat) (caller cur : list byte),
  (∃ i, i < n ∧ length cur < offset + 16 * i + 4) →
  stripLoop n offset (mkHeap caller (Some cur)) = None.
Proof.
  induction n as [|n IH]; intros offset caller cur (i & Hi & Hlen); [lia|].
  destruct (decide (offset + 4 ≤ length cur)) as [H0|H0].
  - rewrite (stripLoop_turn n offset caller cur H0).
    apply IH. destruct i as [|i]; [lia|].
    exists i. rewrite patchEntry_length. split; lia.
  - apply stripLoop_throws. lia.
Qed.

Lemma stripTry_numTables (buffer : list byte) :
  stripTry (mkHeap buffer None)
  = n ← numTablesOf buffer; stripLoop n 12 (mkHeap buffer (Some buffer)).
Proof.
  unfold stripTry, getUint16, getUint8, numTablesOf, sliceCaller. simpl.
  destruct (buffer !! 4); [|done]. simpl.
  destruct (buffer !! 5); done.
Qed.

Lemma tagFrom_patched (buffer out : list byte) (e : nat) :
  e + 4 ≤ length buffer → length out = length buffer →
  (∀ j, j < 4 →
     out !! (e + j)
     = if deniedFrom buffer e then voidTag !! j else buffer !! (e + j)) →
  tagFrom out e = if deniedFrom buffer e then voidTag else tagFrom buffer e.
Proof.
  intros Hlen Hout H.
  destruct (deniedFrom buffer e).
  - destruct (tagFrom_lookup out e) as (t1 & t2 & t3 & t4 & E1 & E2 & E3 & E4 & ->);
      [lia|].
    pose proof (H 0 ltac:(lia)) as H0. pose proof (H 1 ltac:(lia)) as H1.
    pose proof (H 2 ltac:(lia)) as H2. pose proof (H 3 ltac:(lia)) as H3.
    rewrite Nat.add_0_r, E1 in H0. rewrite E2 in H1.
    rewrite E3 in H2. rewrite E4 in H3.
    injection H0 as ->. injection H1 as ->. injection H2 as ->. injection H3 as ->.
    done.
  - by apply tagFrom_ext.
Qed.

Local Arguments Nat.mul : simpl never.
Local Arguments Nat.add : simpl never.

(** C6.  [stripLayoutTables] never writes to the buffer of its caller.
    When the directory can be read (the table count at offset 4 and the
    16-byte entries from offset 12 on) it returns a new buffer of the same
    length in which the tag of every entry tagged GPOS, GSUB, GDEF, JSTF,
    BASE or kern is [void], the tag of every other entry is the one it
    was, and every byte outside the tags is the one it was.  When a read
    fails it returns the buffer of the caller, unchanged. *)
Theorem stripLayoutTables_spec (buffer : list byte) :
  callerBytes (stripLayoutTables buffer).2 = buffer
  ∧ (∀ n, directoryReadable buffer n →
       (stripLayoutTables buffer).1 = NewBuffer
       ∧ length (stripped buffer) = length buffer
       ∧ (∀ i, i < n →
            tagAt (stripped buffer) i
            = if bool_decide (String.string_of_list_byte (tagAt buffer i)
                              ∈ ["GPOS"; "GSUB"; "GDEF"; "JSTF"; "BASE"; "kern"])
              then String.list_byte_of_string "void" else tagAt buffer i)
       ∧ (∀ k, (∀ i j, i < n → j < 4 → k ≠ 12 + 16 * i + j) →
            stripped buffer !! k = buffer !! k))
  ∧ ((∀ n, ¬ directoryReadable buffer n) →
       (stripLayoutTables buffer).1 = CallerBuffer
       ∧ stripped buffer = buffer).
Proof.
  change ["GPOS"; "GSUB"; "GDEF"; "JSTF"; "BASE"; "kern"] with layoutTags.
  change (String.list_byte_of_string "void") with voidTag.
  unfold stripped, stripLayoutTables. rewrite stripTry_numTables.
  destruct (numTablesOf buffer) as [n|] eqn:En; simpl.
  - destruct (decide (n = 0 ∨ 16 * n ≤ length buffer)) as [Hn|Hn].
    + assert (Hr : ∀ i, i < n → 12 + 16 * i + 4 ≤ length buffer) by (intros; lia).
      destruct (stripLoop_ok n 12 buffer buffer Hr) as (out & -> & Hlen & Hins & Houts).
      simpl. split_and!; [done | | ].
      * intros n' [Hn' _]. rewrite En in Hn'. injection Hn' as <-.
        split_and!; try done.
        intros i Hi.
        apply (tagFrom_patched buffer out (12 + 16 * i)); [by apply Hr | done |].
        intros j Hj. by apply Hins.
      * intros Hno. exfalso. by apply (Hno n).
    + assert (Hex : ∃ i, i < n ∧ length buffer < 12 + 16 * i + 4)
        by (exists (n - 1); lia).
      rewrite (stripLoop_fail n 12 buffer buffer Hex). simpl.
      split_and!; [done | | done].
      intros n' [Hn' Hr']. rewrite En in Hn'. injection Hn' as <-.
      specialize (Hr' (n - 1)). lia.
  - split_and!; [done | | done].
    intros n [Hn _]. congruence.
Qed.

End SanitizerFacts.

Lemma stripLayoutTables_spec_witness :
  ((stripLayoutTables demoBuffer).1 = NewBuffer
   ∧ length (stripped demoBuffer) = 44%nat
   ∧ String.string_of_list_byte (tagAt demoBuffer 0) = "GPOS"
   ∧ String.string_of_list_byte (tagAt (stripped demoBuffer) 0) = "void"
   ∧ String.string_of_list_byte (tagAt demoBuffer 1) = "glyf"
   ∧ String.string_of_list_byte (tagAt (stripped demoBuffer) 1) = "glyf"
   ∧ stripped demoBuffer !! 5%nat = Some x02%byte
   ∧ callerBytes (stripLayoutTables demoBuffer).2 = demoBuffer)
  ∧ ((stripLayoutTables truncatedBuffer).1 = CallerBuffer
     ∧ stripped truncatedBuffer = truncatedBuffer).
Proof.
  split.
  - destruct (stripLayoutTables_spec demoBuffer) as (Hcaller & Hread & _).
    destruct (Hread 2%nat) as (Hnew & Hlen & Htags & Hrest).
    { split; [reflexivity|].
      intros i Hi. change (length demoBuffer) with 44%nat. lia. }
    split_and!.
    + exact Hnew.
    + exact Hlen.
    + reflexivity.
    + rewrite (Htags 0%nat) by lia. reflexivity.
    + reflexivity.
    + rewrite (Htags 1%nat) by lia. reflexivity.
    + rewrite (Hrest 5%nat); [reflexivity|].
      intros i j Hi Hj. lia.
    + exact Hcaller.
  - apply (proj2 (proj2 (stripLayoutTables_spec truncatedBuffer))).
    intros n [Hn Hr]. injection Hn as <-.
    specialize (Hr 1%nat). change (length truncatedBuffer) with 30%nat in Hr. lia.
Defined.

(** * Further properties of the code *)

(** ** The mutation primitive: what a call keeps *)

Lemma with_glyphs_same (font : Font) : with_glyphs font (glyphs font) = font.
Proof. by destruct font. Qed.

Lemma layoutKept_refl (font : Font) : layoutKept font font.
Proof. by repeat split. Qed.

Lemma layoutKept_trans (f1 f2 f3 : Font) :
  layoutKept f1 f2 → layoutKept f2 f3 → layoutKept f1 f3.
Proof.
  intros (A1 & A2 & A3 & A4 & A5 & A6 & A7) (B1 & B2 & B3 & B4 & B5 & B6 & B7).
  repeat split; congruence.
Qed.

Section PrimitiveExtras.

Variable getBoundingBox : list Cmd.t → Box.t.

Local Abbreviation setSB := (setGlyphSB getBoundingBox).

Lemma skeleton_applied (g : Glyph) (l r : option Q) (a : Q) :
  skeleton (applyRsb getBoundingBox (applyLsb g l a) r) = skeleton g.
Proof.
  unfold skeleton.
  destruct (applyRsb_name getBoundingBox (applyLsb g l a) r) as (-> & -> & ->).
  destruct (applyLsb_name g l a) as (-> & ->). f_equal.
  unfold applyLsb. destruct l as [l|]; [|done].
  destruct (gtb _ _); [|done]. simpl.
  rewrite <- list_fmap_compose. by apply list_fmap_ext.
Qed.

Lemma setGlyphSB_layoutKept (font : Font) (c : string) (l r : option Q) :
  layoutKept font (setSB font c l r).
Proof.
  assert (Hf : ∀ gs, layoutKept font (with_glyphs font gs)
                     ↔ skeleton <$> gs = skeleton <$> glyphs font).
  { intros gs. unfold layoutKept. simpl. split; [by intros (_ & _ & _ & _ & _ & _ & E)|].
    intros E. by split_and!. }
  unfold setGlyphSB.
  destruct (charToGlyph font c) as [[i g]|] eqn:Hc; [|apply layoutKept_refl].
  destruct (isSpace g); [apply layoutKept_refl|].
  destruct (Box.x1 _) as [a|]; [|apply layoutKept_refl].
  destruct (Box.x2 _) as [b|]; [|apply layoutKept_refl].
  apply Hf. rewrite list_fmap_insert, skeleton_applied.
  apply list_insert_id. rewrite list_lookup_fmap.
  apply charToGlyph_Some in Hc as [_ ->]. done.
Qed.

Lemma runCalls_layoutKept (font : Font) (calls : list Call) :
  layoutKept font (runCalls getBoundingBox font calls).
Proof.
  revert font. induction calls as [|[[c l] r] rest IH]; intros font.
  - apply layoutKept_refl.
  - rewrite runCalls_cons.
    eapply layoutKept_trans; [apply setGlyphSB_layoutKept | apply IH].
Qed.

(** X4.  Neither method touches anything but the horizontal placement of the
    outlines and the advance widths: the character map, the font-wide
    metrics, names and tables, the number of glyphs, and of every glyph the
    name, the code point, the kinds of its path commands and all their
    vertical coordinates are what they were. *)
Theorem methods_keep_layout (font : Font) (settings : Settings.t) :
  layoutKept font (applyTracyMethod getBoundingBox font settings)
  ∧ layoutKept font (applySousaMethod getBoundingBox font settings)
  ∧ length (glyphs (applyTracyMethod getBoundingBox font settings)) = length (glyphs font)
  ∧ length (glyphs (applySousaMethod getBoundingBox font settings)) = length (glyphs font).
Proof.
  rewrite applyTracyMethod_calls, applySousaMethod_calls.
  pose proof (runCalls_layoutKept font (tracyCalls settings)) as HA.
  pose proof (runCalls_layoutKept font (sousaCalls settings)) as HB.
  split_and!; try done.
  - destruct HA as (_ & _ & _ & _ & _ & _ & E).
    apply (f_equal length) in E. by rewrite !length_fmap in E.
  - destruct HB as (_ & _ & _ & _ & _ & _ & E).
    apply (f_equal length) in E. by rewrite !length_fmap in E.
Qed.

(** X3.  A [null] side is left alone: with no left target the outline of the
    glyph is not moved, with no right target its advance width is not
    written, and with neither the font is returned as it was. *)
Theorem setGlyphSB_null_sides (font : Font) (c : string) (l r : option Q)
    (i : nat) (g : Glyph) :
  charToGlyph font c = Some (i, g) →
  setSB font c None None = font
  ∧ ∃ g', charToGlyph (setSB font c l r) c = Some (i, g')
          ∧ (l = None → commands g' = commands g
                        ∧ leftSideBearing g' = leftSideBearing g)
          ∧ (r = None → advanceWidth g' = advanceWidth g).
Proof.
  intros Hc. pose proof Hc as Hc0. apply charToGlyph_Some in Hc0 as [Hmap Hg].
  split.
  - unfold setGlyphSB. rewrite Hc.
    destruct (isSpace g); [done|].
    destruct (Box.x1 _); [|done]. destruct (Box.x2 _); [|done].
    unfold applyRsb, applyLsb. rewrite list_insert_id by done.
    apply with_glyphs_same.
  - destruct (setGlyphSB_glyphs getBoundingBox font c l r)
      as [E | (i' & g' & a & Hc' & _ & _ & _ & E)].
    + exists g. split_and!; try done.
      apply charToGlyph_Some. by rewrite setGlyphSB_cmap, E.
    + rewrite Hc in Hc'. injection Hc' as <- <-.
      eexists. split_and!.
      * apply charToGlyph_Some. rewrite setGlyphSB_cmap, E. split; [done|].
        apply list_lookup_insert_eq. by apply lookup_lt_Some in Hg.
      * intros ->. simpl. split.
        -- by destruct (applyRsb_name getBoundingBox g r) as (_ & _ & ->).
        -- unfold applyRsb. destruct r as [r|]; [|done]. by destruct (Box.x2 _).
      * intros ->. unfold applyRsb.
        destruct l as [l|]; simpl; [|done].
        destruct (gtb _ _); done.
Qed.

Hypothesis bbox_translates : translates getBoundingBox.

Lemma applyLsb_near (g : Glyph) (L a b : Q) :
  startsWithMove (commands g) = true →
  Box.x1 (getBoundingBox (commands g)) = Some a →
  Box.x2 (getBoundingBox (commands g)) = Some b →
  ∃ a' b',
    Box.x1 (getBoundingBox (commands (applyLsb g (Some L) a))) = Some a'
    ∧ Box.x2 (getBoundingBox (commands (applyLsb g (Some L) a))) = Some b'
    ∧ Qabs (L - a') <= 0.001
    ∧ b' - a' == b - a.
Proof.
  intros Hm H1 H2. unfold applyLsb.
  destruct (gtb (Qabs (L - a)) 0.001) eqn:Hg.
  - destruct (bbox_translates (L - a) (commands g) a b Hm H1 H2)
      as (a' & b' & Ha' & Hb' & Ea & Eb).
    exists a', b'. split_and!; [exact Ha' | exact Hb' | | lra].
    apply Qabs_le_intro; lra.
  - exists a, b. split_and!; [done | done | | lra].
    by apply gtb_false.
Qed.


(** X1.  The primitive is idempotent: a second call with the same targets
    returns the font the first call returned. *)
Theorem setGlyphSB_idempotent (font : Font) (c : string) (l r : option Q) :
  (∀ i g, charToGlyph font c = Some (i, g) → startsWithMove (commands g) = true) →
  setSB (setSB font c l r) c l r = setSB font c l r.
Proof.
  intros Hm.
  destruct (charToGlyph font c) as [[i g]|] eqn:Hc.
  2: { assert (E : setSB font c l r = font) by (unfold setGlyphSB; by rewrite Hc).
       by rewrite !E. }
  specialize (Hm i g eq_refl).
  pose proof Hc as Hc0. apply charToGlyph_Some in Hc0 as [Hmap Hg].
  destruct (setGlyphSB_glyphs getBoundingBox font c l r)
    as [E | (i' & g' & a & Hc' & Hs & Ha & [b Hb] & E)].
  - assert (E1 : setSB font c l r = font).
    { unfold setGlyphSB in *. rewrite Hc in *.
      destruct (isSpace g); [done|].
      destruct (Box.x1 _); [|done]. destruct (Box.x2 _); [|done].
      simpl in E. rewrite E. apply with_glyphs_same. }
    by rewrite !E1.
  - rewrite Hc in Hc'. injection Hc' as <- <-.
    set (g0 := applyLsb g l a) in *.
    set (g1 := applyRsb getBoundingBox g0 r) in *.
    assert (E1 : setSB font c l r = with_glyphs font (<[i := g1]> (glyphs font))).
    { unfold setGlyphSB. by rewrite Hc, Hs, Ha, Hb. }
    assert (Hc1 : charToGlyph (setSB font c l r) c = Some (i, g1)).
    { apply charToGlyph_Some. rewrite setGlyphSB_cmap, E. split; [done|].
      apply list_lookup_insert_eq. by apply lookup_lt_Some in Hg. }
    assert (Hcmd : commands g1 = commands g0)
      by (unfold g1; by destruct (applyRsb_name getBoundingBox g0 r) as (_ & _ & ->)).
    assert (Hbox : ∃ a' b',
      Box.x1 (getBoundingBox (commands g0)) = Some a'
      ∧ Box.x2 (getBoundingBox (commands g0)) = Some b'
      ∧ applyLsb g1 l a' = g1).
    { subst g0. destruct l as [L|].
      - destruct (applyLsb_near g L a b Hm Ha Hb) as (a' & b' & Ha' & Hb' & Hn & _).
        exists a', b'. split_and!; try done.
        unfold applyLsb at 1.
        destruct (gtb (Qabs (L - a')) 0.001) eqn:Hgt; [|done].
        apply gtb_true in Hgt. lra.
      - by exists a, b. }
    destruct Hbox as (a' & b' & Ha' & Hb' & Hfix).
    assert (Hrsb : applyRsb getBoundingBox g1 r = g1).
    { unfold applyRsb at 1. rewrite Hcmd, Hb'.
      destruct r as [R|]; [|done].
      unfold g1, applyRsb. by rewrite Hb'. }
    unfold setGlyphSB at 1. rewrite Hc1.
    assert (Hs1 : isSpace g1 = false) by (subst g1 g0; by rewrite isSpace_applied).
    rewrite Hs1, Hcmd, Ha', Hb'. simpl. rewrite Hfix, Hrsb, E1. simpl.
    by rewrite list_insert_insert_eq.
Qed.

End PrimitiveExtras.


(** ** The primitive on the demonstration font *)

Lemma setGlyphSB_null_sides_witness :
  setGlyphSB pointsBoundingBox demoFont "M" None None = demoFont
  ∧ ∃ g', charToGlyph (setGlyphSB pointsBoundingBox demoFont "M" None (Some 50)) "M"
          = Some (1%nat, g')
          ∧ (@None Q = None → commands g' = commands glyphM
                              ∧ leftSideBearing g' = leftSideBearing glyphM)
          ∧ (Some 50 = None → advanceWidth g' = advanceWidth glyphM).
Proof.
  apply (setGlyphSB_null_sides pointsBoundingBox demoFont "M" None (Some 50)
           1%nat glyphM).
  reflexivity.
Defined.


Lemma setGlyphSB_idempotent_witness :
  setGlyphSB pointsBoundingBox
    (setGlyphSB pointsBoundingBox demoFont "M" (Some 92) (Some 92)) "M" (Some 92) (Some 92)
  = setGlyphSB pointsBoundingBox demoFont "M" (Some 92) (Some 92).
Proof.
  apply (setGlyphSB_idempotent pointsBoundingBox pointsBoundingBox_translates
           demoFont "M" (Some 92) (Some 92)).
  intros i g H. vm_compute in H. injection H as <- <-. reflexivity.
Defined.


(** ** The two methods: which pair a letter ends with *)

Lemma letters_own :
  forallb (λ c, variantOwned c c) letters = true.
Proof. vm_compute. reflexivity. Qed.

(** No letter is the variant of another one. *)
Lemma letter_owner (B c : string) :
  B ∈ letters → c ∈ letters → B ∈ c :: related c → c = B.
Proof.
  intros HB Hc Hin.
  pose proof letters_own as T. rewrite forallb_forall in T.
  apply list_elem_of_In in HB. specialize (T _ HB).
  unfold variantOwned in T. rewrite forallb_forall in T.
  apply list_elem_of_In in Hc. specialize (T _ Hc).
  apply memberb_elem_of in Hin. rewrite Hin in T. simpl in T.
  by apply String.eqb_eq in T.
Qed.

Lemma lastRule_Some_key (B : string) (rules : list (string * Q * Q)) (t : Q * Q) :
  lastRule B rules = Some t → B ∈ rules.*1.*1.
Proof.
  revert t. induction rules as [|[[c l] r] rest IH]; intros t; [done|].
  simpl. destruct (lastRule B rest) as [p|].
  - intros _. apply list_elem_of_further. by apply (IH p).
  - destruct (String.eqb c B) eqn:E; [|done].
    apply String.eqb_eq in E as ->. intros _. apply list_elem_of_here.
Qed.

(** For a letter that has a rule, the rules of either method end with the
    pair of its last rule. *)
Lemma lastCall_letter (B : string) (rules : list (string * Q * Q)) (t : Q * Q) :
  Forall (λ rule : string * Q * Q, rule.1.1 ∈ letters) rules →
  lastRule B rules = Some t →
  lastCall B (flat_map ruleCalls rules) = Some (Some t.1, Some t.2).
Proof.
  intros Hl Hrule.
  assert (HB : B ∈ letters).
  { apply lastRule_Some_key in Hrule.
    apply list_elem_of_fmap in Hrule as (cl & -> & Hrule).
    apply list_elem_of_fmap in Hrule as (rule & -> & Hrule).
    rewrite Forall_forall in Hl. by apply Hl. }
  rewrite (lastCall_rules B B); [by rewrite Hrule; destruct t | apply list_elem_of_here |].
  eapply Forall_impl; [exact Hl|].
  intros [[c l] r] Hc Hin. simpl in *. by apply (letter_owner B c).
Qed.

Lemma lastCall_masterCalls_own (m : string) (val : SB.t)
    (overrides : list (string * Override.t)) :
  lookupKey overrides m = None →
  lastCall m (masterCalls overrides m val) = Some (Some (SB.lsb val), Some (SB.rsb val)).
Proof.
  intros E. unfold masterCalls. rewrite E. simpl. by rewrite String.eqb_refl.
Qed.

(** The last call Method B makes for a master letter without an override
    is the one of [setMasterSafe]. *)
Lemma lastCall_sousa_master (settings : Settings.t) (m : string) (val : SB.t) :
  (m, val) ∈ [("n", Settings.n settings); ("o", Settings.o settings);
              ("H", Settings.H settings); ("O", Settings.O settings)] →
  lookupKey (Settings.overrides settings) m = None →
  lastCall m (sousaCalls settings) = Some (Some (SB.lsb val), Some (SB.rsb val)).
Proof.
  intros Hin Hno. unfold sousaCalls. rewrite !lastCall_app.
  repeat (apply elem_of_cons in Hin as [[= -> ->]|Hin];
    [ rewrite ?(lastCall_masterCalls_own _ _ _ Hno);
      rewrite ?lastCall_masterCalls by (by right);
      rewrite ?(lastCall_masterCalls_own _ _ _ Hno); done |]).
  by apply not_elem_of_nil in Hin.
Qed.

(** The last call Method B makes for a letter that is no master and has
    no override is the one of its topology rule. *)
Lemma lastCall_sousa_letter (settings : Settings.t) (c : string) (topo : Topo.t) :
  (c, topo) ∈ TOPOLOGY →
  c ∉ ["n"; "o"; "H"; "O"] →
  lookupKey (Settings.overrides settings) c = None →
  lastCall c (sousaCalls settings)
  = Some (Some (getValue settings c (Topo.l topo)),
          Some (getValue settings c (Topo.r topo))).
Proof.
  intros Hin Hm Hno.
  assert (Hrule : lastRule c (sousaRules settings)
                  = Some (getValue settings c (Topo.l topo),
                          getValue settings c (Topo.r topo))).
  { unfold TOPOLOGY in Hin.
    repeat (apply elem_of_cons in Hin as [[= -> ->]|Hin]; [reflexivity|]).
    by apply not_elem_of_nil in Hin. }
  unfold sousaCalls. rewrite !lastCall_app.
  rewrite !lastCall_masterCalls
    by (right; intros ->; apply Hm; apply memberb_elem_of; reflexivity).
  apply lookupKey_None_notin in Hno.
  rewrite (lastCall_overrides_notin _ _ Hno).
  by rewrite (lastCall_letter c _ _ (sousaRules_letters settings) Hrule).
Qed.

Section MethodExtras.

Variable getBoundingBox : list Cmd.t → Box.t.
Hypothesis bbox_translates : translates getBoundingBox.

Local Abbreviation tracy := (applyTracyMethod getBoundingBox).
Local Abbreviation sousa := (applySousaMethod getBoundingBox).





End MethodExtras.


(** ** The methods on the demonstration font *)






(** ** Cleaning the metrics *)

Lemma skeleton_shifted (s : Q) (cmds : list Cmd.t) :
  (λ cmd, (Cmd.type cmd, Cmd.y cmd, Cmd.y1 cmd, Cmd.y2 cmd)) <$> (shiftCmd s <$> cmds)
  = (λ cmd, (Cmd.type cmd, Cmd.y cmd, Cmd.y1 cmd, Cmd.y2 cmd)) <$> cmds.
Proof. rewrite <- list_fmap_compose. by apply list_fmap_ext. Qed.

Section CleaningExtras.

Variable getBoundingBox : list Cmd.t → Box.t.
Variable isPunctuationOrSymbol : N → bool.

Local Abbreviation clean := (cleanMetrics getBoundingBox isPunctuationOrSymbol).
Local Abbreviation cleanOne := (cleanGlyph getBoundingBox isPunctuationOrSymbol).
Local Abbreviation punctuation := (isPunctuation isPunctuationOrSymbol).

Lemma cleanGlyph_skeleton (g : Glyph) : skeleton (cleanOne g) = skeleton g.
Proof.
  unfold cleanGlyph.
  destruct (isSpace g); [done|]. destruct (punctuation g); [done|].
  destruct (_ || _); [|done].
  destruct (Box.x1 _) as [a|]; [|done]. destruct (Box.x2 _) as [b|]; [|done].
  cbv zeta. destruct (Qle_bool _ _); [|done].
  destruct (negb _); [|done].
  unfold skeleton. simpl. by rewrite skeleton_shifted.
Qed.

Lemma cleanMetrics_lookup (font : Font) (i : nat) (g : Glyph) :
  glyphs font !! i = Some g → glyphs (clean font) !! i = Some (cleanOne g).
Proof. intros H. unfold cleanMetrics. simpl. by rewrite list_lookup_fmap, H. Qed.

(** X10.  What [cleanMetrics] leaves alone: the character map and the names,
    the number of glyphs, of every glyph the name, the code point and the
    vertical shape of the outline, every glyph that passes the space test
    or is punctuation or a symbol, and every table but [kern] and [gpos],
    which are gone afterwards. *)
Theorem cleanMetrics_leaves (font : Font) :
  cmap (clean font) = cmap font
  ∧ names (clean font) = names font
  ∧ length (glyphs (clean font)) = length (glyphs font)
  ∧ skeleton <$> glyphs (clean font) = skeleton <$> glyphs font
  ∧ (∀ i g, glyphs font !! i = Some g →
       isSpace g = true ∨ punctuation g = true →
       glyphs (clean font) !! i = Some g)
  ∧ tables (clean font) !! "kern" = None
  ∧ tables (clean font) !! "gpos" = None
  ∧ ∀ tag, tag ≠ "kern" → tag ≠ "gpos" → tables (clean font) !! tag = tables font !! tag.
Proof.
  split_and!; try done.
  - unfold cleanMetrics. simpl. by rewrite length_fmap.
  - unfold cleanMetrics. simpl. rewrite <- list_fmap_compose.
    apply list_fmap_ext. intros i g _. apply cleanGlyph_skeleton.
  - intros i g Hg Hkeep. rewrite (cleanMetrics_lookup font i g Hg). f_equal.
    unfold cleanGlyph. destruct Hkeep as [-> | Hp]; [done|].
    rewrite Hp. by destruct (isSpace g).
  - unfold cleanMetrics. simpl.
    rewrite lookup_delete_ne by done. apply lookup_delete_eq.
  - unfold cleanMetrics. simpl. apply lookup_delete_eq.
  - intros tag H1 H2. unfold cleanMetrics. simpl.
    by rewrite !lookup_delete_ne.
Qed.

Hypothesis bbox_translates : translates getBoundingBox.

(** A glyph the loop of [cleanMetrics] reaches ends with its ink at the
    origin and its advance width equal to the ink width. *)
Lemma cleanGlyph_zero (g : Glyph) (a b : Q) :
  isSpace g = false → punctuation g = false →
  truthy (unicode g) || nameTruthy g = true →
  startsWithMove (commands g) = true →
  Box.x1 (getBoundingBox (commands g)) = Some a →
  Box.x2 (getBoundingBox (commands g)) = Some b →
  a <= b →
  startsWithMove (commands (cleanOne g)) = true
  ∧ advanceWidth (cleanOne g) = b - a
  ∧ ∃ a' b', Box.x1 (getBoundingBox (commands (cleanOne g))) = Some a'
             ∧ Box.x2 (getBoundingBox (commands (cleanOne g))) = Some b'
             ∧ a' == 0 ∧ b' == b - a.
Proof.
  intros Hs Hp Hu Hm H1 H2 Hab.
  unfold cleanGlyph. rewrite Hs, Hp, Hu, H1, H2. cbv zeta.
  assert (Hw : Qle_bool 0 (b - a) = true) by (apply Qle_bool_iff; lra).
  rewrite Hw.
  destruct (Qeq_bool (- a) 0) eqn:Hz; simpl.
  - apply Qeq_bool_iff in Hz. split_and!; [done | done |].
    exists a, b. split_and!; [done | done | lra | lra].
  - rewrite startsWithMove_shift. split_and!; [done | done |].
    destruct (bbox_translates (- a) (commands g) a b Hm H1 H2)
      as (a' & b' & Ha' & Hb' & Ea & Eb).
    exists a', b'. split_and!; [done | done | lra | lra].
Qed.

(** X11.  [cleanMetrics] takes both side bearings of a letter away: a character
    whose glyph is not a space, no punctuation and no symbol, and has an
    outline with a numeric box, ends with the left edge of its ink at 0
    and an advance width equal to the width of the ink, and
    [getCharMetrics] reports [(0, 0)] for it. *)
Theorem cleanMetrics_zeroes (font : Font) (c : string) (i : nat) (g : Glyph) (a b : Q) :
  charToGlyph font c = Some (i, g) →
  isSpace g = false → punctuation g = false →
  truthy (unicode g) || nameTruthy g = true →
  startsWithMove (commands g) = true →
  Box.x1 (getBoundingBox (commands g)) = Some a →
  Box.x2 (getBoundingBox (commands g)) = Some b →
  a <= b →
  (∃ g' a' b', charToGlyph (clean font) c = Some (i, g')
     ∧ Box.x1 (getBoundingBox (commands g')) = Some a'
     ∧ Box.x2 (getBoundingBox (commands g')) = Some b'
     ∧ a' == 0 ∧ advanceWidth g' == b' ∧ advanceWidth g' = b - a)
  ∧ getCharMetrics getBoundingBox (clean font) c = CharMetrics.mk (Some 0) (Some 0).
Proof.
  intros Hc Hs Hp Hu Hm H1 H2 Hab.
  destruct (cleanGlyph_zero g a b Hs Hp Hu Hm H1 H2 Hab)
    as (Hm' & Hw & a' & b' & Ha' & Hb' & Ea & Eb).
  assert (Hc' : charToGlyph (clean font) c = Some (i, cleanOne g)).
  { apply charToGlyph_Some in Hc as [Hmap Hg]. apply charToGlyph_Some.
    split; [done | by apply cleanMetrics_lookup]. }
  split.
  - exists (cleanOne g), a', b'. split_and!; try done. rewrite Hw. lra.
  - apply (getCharMetrics_bearings getBoundingBox _ c i (cleanOne g) 0%Z 0%Z);
      [done | done |].
    exists a', b'. split_and!; [done | done | |].
    + apply Qabs_le_intro; unfold inject_Z; lra.
    + rewrite Hw. unfold inject_Z. lra.
Qed.

End CleaningExtras.


Lemma cleanMetrics_zeroes_witness :
  (∃ g' a' b',
     charToGlyph (cleanMetrics pointsBoundingBox asciiPunctuation demoFont) "M"
     = Some (1%nat, g')
     ∧ Box.x1 (pointsBoundingBox (commands g')) = Some a'
     ∧ Box.x2 (pointsBoundingBox (commands g')) = Some b'
     ∧ a' == 0 ∧ advanceWidth g' == b' ∧ advanceWidth g' = 830 - 30)
  ∧ getCharMetrics pointsBoundingBox
      (cleanMetrics pointsBoundingBox asciiPunctuation demoFont) "M"
    = CharMetrics.mk (Some 0) (Some 0).
Proof.
  apply (cleanMetrics_zeroes pointsBoundingBox asciiPunctuation
           pointsBoundingBox_translates demoFont "M" 1%nat glyphM 30 830);
    try reflexivity.
  discriminate.
Defined.


(** ** The visual extrema of [createFontState] *)

Section MeasureExtras.

Variable getBoundingBox : list Cmd.t → Box.t.

Local Abbreviation measure := (measureMetric getBoundingBox).
Local Abbreviation boxesOf := (probeBoxes getBoundingBox).

Lemma measure_fold (font : Font) (type : Extremum) (chars : list string)
    (acc : number * bool) :
  fold_left (measureStep getBoundingBox font type) chars acc
  = fold_left (extremumStep type) (boxesOf font chars) acc.
Proof.
  revert acc. induction chars as [|c rest IH]; intros [best found]; [done|].
  simpl. unfold probeBoxes in *. simpl.
  destruct (charToGlyph font c) as [[i g]|]; [|apply IH].
  destruct (0 <? length (commands g))%nat; [|apply IH].
  simpl. rewrite <- IH. by destruct type.
Qed.

Lemma extremum_first (type : Extremum) (box : Box.t) (rest : list Box.t)
    (fallback : number) :
  fold_left (extremumStep type) (box :: rest) (fallback, false)
  = fold_left (extremumStep type) rest (extremumCoord type box, true).
Proof. by destruct type. Qed.

Lemma extremum_numeric (type : Extremum) (rest : list Box.t) (m0 : Q) :
  Forall (λ box, is_Some (extremumCoord type box)) rest →
  ∃ m, fold_left (extremumStep type) rest (Some m0, true) = (Some m, true)
       ∧ Some m ∈ Some m0 :: (extremumCoord type <$> rest)
       ∧ ∀ y, Some y ∈ Some m0 :: (extremumCoord type <$> rest) → beyond type m y.
Proof.
  intros Hnum. revert m0.
  induction Hnum as [|box rest [y Hy] _ IH]; intros m0.
  - exists m0. split_and!; [done | apply list_elem_of_here |].
    intros y [[= ->]|Hin]%elem_of_cons; [destruct type; simpl; lra|].
    by apply not_elem_of_nil in Hin.
  - assert (Hstep : ∃ m1, extremumStep type (Some m0, true) box = (Some m1, true)
                          ∧ (m1 = m0 ∨ m1 = y) ∧ beyond type m1 m0 ∧ beyond type m1 y).
    { destruct type; simpl in *; rewrite Hy; simpl.
      - destruct (gtb y m0) eqn:E.
        + apply gtb_true in E. exists y. split_and!; [done | by right | lra | lra].
        + apply gtb_false in E. exists m0. split_and!; [done | by left | lra | lra].
      - unfold lt_num. simpl. destruct (gtb m0 y) eqn:E.
        + apply gtb_true in E. exists y. split_and!; [done | by right | lra | lra].
        + apply gtb_false in E. exists m0. split_and!; [done | by left | lra | lra]. }
    destruct Hstep as (m1 & Hstep & Hm1 & Hb0 & Hby).
    destruct (IH m1) as (m & Hfold & Hin & Hall).
    exists m. cbn [fold_left]. rewrite Hstep. split_and!; [done | |].
    + rewrite fmap_cons, Hy.
      apply elem_of_cons in Hin as [Hin|Hin].
      * rewrite Hin. destruct Hm1 as [-> | ->];
          [apply list_elem_of_here | apply list_elem_of_further, list_elem_of_here].
      * by do 2 apply list_elem_of_further.
    + assert (Hm : beyond type m m1) by (apply Hall, list_elem_of_here).
      intros y' Hy'. rewrite fmap_cons, Hy in Hy'.
      apply elem_of_cons in Hy' as [[= ->]|Hy'];
        [destruct type; simpl in *; lra|].
      apply elem_of_cons in Hy' as [[= ->]|Hy'];
        [destruct type; simpl in *; lra|].
      by apply Hall, list_elem_of_further.
Qed.

(** X14.  The fallback of [measureMetric] is its value, rounded, when no probe
    character has a glyph with an outline, and plays no part as soon as
    one has: the measure is then the same for every fallback. *)
Theorem measureMetric_fallback (font : Font) (chars : list string) (type : Extremum)
    (fallback : number) :
  (boxesOf font chars = [] → measure font chars type fallback = Math_round <$> fallback)
  ∧ (boxesOf font chars ≠ [] →
     ∀ other, measure font chars type fallback = measure font chars type other).
Proof.
  unfold measureMetric. rewrite measure_fold. split.
  - by intros ->.
  - intros Hne other. rewrite measure_fold.
    destruct (boxesOf font chars) as [|box rest]; [done|].
    by rewrite !extremum_first.
Qed.

(** X15.  When the boxes of the probe glyphs that have an outline are numeric,
    the measure is the rounded largest top (for the ascender) or smallest
    bottom (for the descender) among them. *)
Theorem measureMetric_extremum (font : Font) (chars : list string) (type : Extremum)
    (fallback : number) :
  boxesOf font chars ≠ [] →
  Forall (λ box, is_Some (extremumCoord type box)) (boxesOf font chars) →
  ∃ m, measure font chars type fallback = Some (Math_round m)
       ∧ Some m ∈ extremumCoord type <$> boxesOf font chars
       ∧ ∀ y, Some y ∈ extremumCoord type <$> boxesOf font chars → beyond type m y.
Proof.
  intros Hne Hnum. unfold measureMetric. rewrite measure_fold.
  destruct (boxesOf font chars) as [|box rest]; [done|].
  rewrite extremum_first.
  apply Forall_cons in Hnum as [[y Hy] Hnum]. rewrite Hy.
  destruct (extremum_numeric type rest y Hnum) as (m & Hfold & Hin & Hall).
  exists m. rewrite fmap_cons, Hy. split; [|done].
  exact (f_equal (λ p : number * bool, Math_round <$> p.1) Hfold).
Qed.

End MeasureExtras.

Lemma measureMetric_extremum_witness :
  ∃ m, measureMetric pointsBoundingBox demoFont ["d"; "h"; "l"; "b"; "k"; "H"] ExtMax
         (ascender demoFont)
       = Some (Math_round m)
       ∧ Some m ∈ extremumCoord ExtMax
                  <$> probeBoxes pointsBoundingBox demoFont ["d"; "h"; "l"; "b"; "k"; "H"]
       ∧ ∀ y, Some y ∈ extremumCoord ExtMax
                      <$> probeBoxes pointsBoundingBox demoFont ["d"; "h"; "l"; "b"; "k"; "H"] →
              beyond ExtMax m y.
Proof.
  apply (measureMetric_extremum pointsBoundingBox demoFont
           ["d"; "h"; "l"; "b"; "k"; "H"] ExtMax (ascender demoFont)).
  - discriminate.
  - vm_compute. repeat constructor; by eexists.
Defined.


(** ** The average side bearing *)

(** A value between two whole numbers rounds to a whole number between
    them. *)
Lemma Math_round_between (v : Q) (lo hi : Z) :
  inject_Z lo <= v → v <= inject_Z hi →
  ∃ m : Z, Math_round v = inject_Z m ∧ (lo ≤ m ≤ hi)%Z.
Proof.
  intros Hlo Hhi. exists (Qfloor (v + (1 # 2))). split; [done|]. split.
  - rewrite <- (Qfloor_Z lo). apply Qfloor_resp_le. lra.
  - pose proof (Qfloor_le (v + (1 # 2))) as Hf.
    assert (Hlt : inject_Z (Qfloor (v + (1 # 2))) < inject_Z (hi + 1)).
    { rewrite inject_Z_plus. change (inject_Z 1) with 1. lra. }
    rewrite <- Zlt_Qlt in Hlt. lia.
Qed.

Section AverageExtras.

Variable getBoundingBox : list Cmd.t → Box.t.

Local Abbreviation average := (calculateAverageSB getBoundingBox).
Local Abbreviation step := (averageStep getBoundingBox).
Local Abbreviation state t n := (@pair number nat t n).

Lemma averageStep_uncounted (acc : number * nat) (g : Glyph) :
  counted g = false → step acc g = acc.
Proof. intros H. unfold averageStep. destruct acc. by rewrite H. Qed.

Lemma averageStep_counted (total : number) (n : nat) (g : Glyph) :
  counted g = true →
  step (total, n) g
  = (add_num total
       (add_num (Box.x1 (getBoundingBox (commands g)))
          (sub_num (Some (advanceWidth g)) (Box.x2 (getBoundingBox (commands g))))),
     S n).
Proof. intros H. unfold averageStep. by rewrite H. Qed.

Lemma average_filter (gs : list Glyph) (acc : number * nat) :
  fold_left step gs acc = fold_left step (List.filter counted gs) acc.
Proof.
  revert acc. induction gs as [|g rest IH]; intros acc; [done|].
  simpl. destruct (counted g) eqn:E; simpl; [apply IH|].
  rewrite averageStep_uncounted by done. apply IH.
Qed.

Lemma average_nan (gs : list Glyph) (n : nat) :
  ∃ n', fold_left step gs (state None n) = state None n' ∧ (n ≤ n')%nat.
Proof.
  revert n. induction gs as [|g rest IH]; intros n; [by exists n|].
  cbn [fold_left]. destruct (counted g) eqn:Hc.
  - rewrite averageStep_counted by done. cbn [add_num].
    destruct (IH (S n)) as (n' & -> & Hn). exists n'. split; [done | lia].
  - rewrite averageStep_uncounted by done. apply IH.
Qed.

Lemma average_poisoned (gs : list Glyph) (total : number) (n : nat) (g : Glyph) :
  g ∈ gs → counted g = true →
  Box.x1 (getBoundingBox (commands g)) = None
  ∨ Box.x2 (getBoundingBox (commands g)) = None →
  ∃ n', fold_left step gs (state total n) = state None n' ∧ (n < n')%nat.
Proof.
  intros Hin Hc Hnan. revert total n.
  induction gs as [|g0 rest IH]; intros total n; [by apply not_elem_of_nil in Hin|].
  apply elem_of_cons in Hin as [<- | Hin].
  - cbn [fold_left]. rewrite averageStep_counted by done.
    assert (Hsum : add_num total
                     (add_num (Box.x1 (getBoundingBox (commands g)))
                        (sub_num (Some (advanceWidth g))
                           (Box.x2 (getBoundingBox (commands g))))) = None).
    { destruct Hnan as [-> | ->]; [by destruct total|].
      destruct total, (Box.x1 _); done. }
    rewrite Hsum. destruct (average_nan rest (S n)) as (n' & -> & Hn).
    exists n'. split; [done | lia].
  - cbn [fold_left]. destruct (counted g0) eqn:Hc0.
    + rewrite averageStep_counted by done.
      destruct (IH Hin (add_num total
                  (add_num (Box.x1 (getBoundingBox (commands g0)))
                     (sub_num (Some (advanceWidth g0))
                        (Box.x2 (getBoundingBox (commands g0)))))) (S n))
        as (n' & Hfold & Hn).
      exists n'. split; [done | lia].
    + rewrite averageStep_uncounted by done. by apply IH.
Qed.

(** X12.  The edges of [calculateAverageSB]: the glyphs it does not count (no
    code point, code point 0, or the name [space]) play no part; with no
    counted glyph the average is 0; and one counted glyph whose box is
    not numeric makes the average [NaN]. *)
Theorem calculateAverageSB_edges (font : Font) :
  average font = average (with_glyphs font (List.filter counted (glyphs font)))
  ∧ (Forall (λ g, counted g = false) (glyphs font) → average font = Some 0)
  ∧ (∀ g, g ∈ glyphs font → counted g = true →
       Box.x1 (getBoundingBox (commands g)) = None
       ∨ Box.x2 (getBoundingBox (commands g)) = None →
       average font = None).
Proof.
  unfold calculateAverageSB. split_and!.
  - simpl. by rewrite <- average_filter.
  - intros Hall. rewrite average_filter.
    assert (E : List.filter counted (glyphs font) = []).
    { induction Hall as [|g rest Hg _ IH]; [done|]. simpl. by rewrite Hg. }
    by rewrite E.
  - intros g Hin Hc Hnan.
    destruct (average_poisoned (glyphs font) (Some 0) 0%nat g Hin Hc Hnan)
      as (n' & Hfold & Hn).
    unfold number in *. rewrite Hfold.
    apply Nat.ltb_lt in Hn. by rewrite Hn.
Qed.

Lemma average_bounds (gs : list Glyph) (lo2 hi2 t : Q) (n : nat) :
  (∀ g, g ∈ gs → counted g = true →
     ∃ a b, Box.x1 (getBoundingBox (commands g)) = Some a
            ∧ Box.x2 (getBoundingBox (commands g)) = Some b
            ∧ lo2 <= a + (advanceWidth g - b) ∧ a + (advanceWidth g - b) <= hi2) →
  lo2 * inject_Z (Z.of_nat n) <= t → t <= hi2 * inject_Z (Z.of_nat n) →
  ∃ t' n', fold_left step gs (state (Some t) n) = state (Some t') n'
           ∧ lo2 * inject_Z (Z.of_nat n') <= t' ∧ t' <= hi2 * inject_Z (Z.of_nat n')
           ∧ (n ≤ n')%nat
           ∧ ((∃ g, g ∈ gs ∧ counted g = true) → (n < n')%nat).
Proof.
  revert t n. induction gs as [|g rest IH]; intros t n Hall Hlo Hhi.
  - exists t, n. split_and!; try done.
    intros (g & Hin & _). by apply not_elem_of_nil in Hin.
  - assert (Hrest : ∀ g', g' ∈ rest → counted g' = true →
       ∃ a b, Box.x1 (getBoundingBox (commands g')) = Some a
              ∧ Box.x2 (getBoundingBox (commands g')) = Some b
              ∧ lo2 <= a + (advanceWidth g' - b) ∧ a + (advanceWidth g' - b) <= hi2)
      by (intros g' Hin; by apply Hall, list_elem_of_further).
    cbn [fold_left].
    destruct (counted g) eqn:Hc.
    + rewrite averageStep_counted by done.
      destruct (Hall g (list_elem_of_here _ _) Hc) as (a & b & -> & -> & Hl & Hh).
      cbn [add_num sub_num].
      assert (HS : inject_Z (Z.of_nat (S n)) == inject_Z (Z.of_nat n) + 1).
      { rewrite Nat2Z.inj_succ. unfold Z.succ. rewrite inject_Z_plus. reflexivity. }
      destruct (IH (t + (a + (advanceWidth g - b))) (S n) Hrest)
        as (t' & n' & Hfold & Hlo' & Hhi' & Hn & _).
      * rewrite HS. lra.
      * rewrite HS. lra.
      * exists t', n'. split_and!; [done | done | done | lia | intros _; lia].
    + rewrite averageStep_uncounted by done.
      destruct (IH t n Hrest Hlo Hhi) as (t' & n' & Hfold & Hlo' & Hhi' & Hn & Hsome).
      exists t', n'. split_and!; [done | done | done | done |].
      intros (g' & [-> | Hin]%elem_of_cons & Hc'); [congruence|].
      apply Hsome. by exists g'.
Qed.

(** X13.  The average lies between the extremes: when every counted glyph has
    a numeric box and the mean of its two side bearings is between the
    whole numbers [lo] and [hi], and one glyph at least is counted, the
    average is a whole number between [lo] and [hi]; when all counted
    glyphs have the same mean, it is that mean. *)
Theorem calculateAverageSB_between (font : Font) (lo hi : Z) :
  (∃ g, g ∈ glyphs font ∧ counted g = true) →
  (∀ g, g ∈ glyphs font → counted g = true →
     ∃ a b, Box.x1 (getBoundingBox (commands g)) = Some a
            ∧ Box.x2 (getBoundingBox (commands g)) = Some b
            ∧ 2 * inject_Z lo <= a + (advanceWidth g - b)
            ∧ a + (advanceWidth g - b) <= 2 * inject_Z hi) →
  ∃ m : Z, average font = Some (inject_Z m) ∧ (lo ≤ m ≤ hi)%Z.
Proof.
  intros Hsome Hall.
  destruct (average_bounds (glyphs font) (2 * inject_Z lo) (2 * inject_Z hi) 0 0%nat Hall)
    as (t & n & Hfold & Hlo & Hhi & _ & Hn).
  { change (inject_Z (Z.of_nat 0)) with 0. lra. }
  { change (inject_Z (Z.of_nat 0)) with 0. lra. }
  specialize (Hn Hsome).
  unfold calculateAverageSB. unfold number in *.
  rewrite Hfold.
  assert (Hpos : (0 <? n)%nat = true) by (by apply Nat.ltb_lt).
  rewrite Hpos. simpl fmap.
  assert (HN : 0 < inject_Z (Z.of_nat n)).
  { change 0 with (inject_Z 0). rewrite <- Zlt_Qlt. lia. }
  assert (Hd : inject_Z (Z.of_nat (n * 2)) == 2 * inject_Z (Z.of_nat n)).
  { rewrite Nat2Z.inj_mul, inject_Z_mult. change (inject_Z (Z.of_nat 2)) with 2. ring. }
  destruct (Math_round_between (t / inject_Z (Z.of_nat (n * 2))) lo hi) as (m & Hm & Hb).
  - apply Qle_shift_div_l; [rewrite Hd; lra|]. rewrite Hd. lra.
  - apply Qle_shift_div_r; [rewrite Hd; lra|]. rewrite Hd. lra.
  - exists m. by rewrite Hm.
Qed.

End AverageExtras.

Lemma calculateAverageSB_between_witness :
  ∃ m : Z, calculateAverageSB pointsBoundingBox demoFont = Some (inject_Z m)
           ∧ (0 ≤ m ≤ 250)%Z.
Proof.
  apply (calculateAverageSB_between pointsBoundingBox demoFont 0 250).
  - exists glyphM. split; [apply list_elem_of_further, list_elem_of_here | reflexivity].
  - intros g Hin Hc. vm_compute in Hin.
    repeat (apply elem_of_cons in Hin as [-> | Hin];
            [first [ discriminate Hc
                   | eexists _, _; split_and!;
                       [reflexivity | reflexivity | vm_compute; discriminate
                       | vm_compute; discriminate] ] |]).
    by apply not_elem_of_nil in Hin.
Defined.


(** ** The sanitizer run on its own output *)

Section SanitizerExtras.

Local Open Scope nat_scope.
Local Arguments Nat.mul : simpl never.
Local Arguments Nat.add : simpl never.

Lemma patchEntry_clean (cur : list byte) (offset : nat) :
  deniedFrom cur offset = false → patchEntry cur offset = cur.
Proof. intros H. unfold patchEntry. by rewrite H. Qed.

(** A loop that meets no layout tag leaves the copy as it is. *)
Lemma stripLoop_clean (n : nat) : ∀ (offset : nat) (caller cur : list byte),
  (∀ i, i < n → offset + 16 * i + 4 ≤ length cur) →
  (∀ i, i < n → deniedFrom cur (offset + 16 * i) = false) →
  stripLoop n offset (mkHeap caller (Some cur)) = Some (mkHeap caller (Some cur)).
Proof.
  induction n as [|n IH]; intros offset caller cur Hin Hclean; [done|].
  assert (H0 : offset + 4 ≤ length cur) by (specialize (Hin 0); lia).
  rewrite (stripLoop_turn n offset caller cur H0).
  assert (Hc0 : deniedFrom cur offset = false).
  { replace offset with (offset + 16 * 0) by lia. apply Hclean. lia. }
  rewrite (patchEntry_clean cur offset Hc0).
  apply IH.
  - intros i Hi. specialize (Hin (S i)). lia.
  - intros i Hi. specialize (Hclean (S i)).
    replace (offset + 16 + 16 * i) with (offset + 16 * S i) by lia. apply Hclean. lia.
Qed.

Lemma voidTag_allowed :
  bool_decide (String.string_of_list_byte voidTag ∈ layoutTags) = false.
Proof. by vm_compute. Qed.

(** The returned bytes, whichever way the function took. *)
Lemma stripped_cases (buffer : list byte) :
  (∃ n out, numTablesOf buffer = Some n
     ∧ (∀ i, i < n → 12 + 16 * i + 4 ≤ length buffer)
     ∧ stripLayoutTables buffer = (NewBuffer, mkHeap buffer (Some out))
     ∧ length out = length buffer
     ∧ numTablesOf out = Some n
     ∧ ∀ i, i < n → deniedFrom out (12 + 16 * i) = false)
  ∨ ((∀ n, ¬ directoryReadable buffer n)
     ∧ stripLayoutTables buffer = (CallerBuffer, mkHeap buffer None)).
Proof.
  unfold stripLayoutTables. rewrite stripTry_numTables.
  destruct (numTablesOf buffer) as [n|] eqn:En; simpl.
  - destruct (decide (n = 0 ∨ 16 * n ≤ length buffer)) as [Hn|Hn].
    + left.
      assert (Hr : ∀ i, i < n → 12 + 16 * i + 4 ≤ length buffer) by (intros; lia).
      destruct (stripLoop_ok n 12 buffer buffer Hr) as (out & -> & Hlen & Hins & Houts).
      exists n, out. split_and!; try done.
      * unfold numTablesOf in *.
        rewrite !Houts by (intros; lia). done.
      * intros i Hi. unfold deniedFrom.
        rewrite (tagFrom_patched buffer out (12 + 16 * i));
          [| by apply Hr | done | intros j Hj; by apply Hins].
        destruct (deniedFrom buffer (12 + 16 * i)) eqn:Ed; [apply voidTag_allowed | done].
    + right.
      assert (Hex : ∃ i, i < n ∧ length buffer < 12 + 16 * i + 4)
        by (exists (n - 1); lia).
      rewrite (stripLoop_fail n 12 buffer buffer Hex). split; [|done].
      intros n' [Hn' Hr']. rewrite En in Hn'. injection Hn' as <-.
      specialize (Hr' (n - 1)). lia.
  - right. split; [|done]. intros n [Hn _]. congruence.
Qed.

(** X16.  A font file whose directory can be read and names no layout table
    comes back as a copy with the same bytes. *)
Theorem stripLayoutTables_clean (buffer : list byte) (n : nat) :
  directoryReadable buffer n →
  (∀ i, i < n → deniedFrom buffer (12 + 16 * i) = false) →
  (stripLayoutTables buffer).1 = NewBuffer ∧ stripped buffer = buffer.
Proof.
  intros [Hn Hr] Hclean.
  unfold stripped, stripLayoutTables. rewrite stripTry_numTables, Hn. simpl.
  by rewrite (stripLoop_clean n 12 buffer buffer Hr Hclean).
Qed.

(** X17.  The sanitizer is idempotent on the bytes, and a directory it returns
    names no layout table: a second run finds nothing to patch. *)
Theorem stripLayoutTables_idempotent (buffer : list byte) :
  stripped (stripped buffer) = stripped buffer
  ∧ ∀ n, directoryReadable (stripped buffer) n →
      ∀ i, i < n → deniedFrom (stripped buffer) (12 + 16 * i) = false.
Proof.
  destruct (stripped_cases buffer)
    as [(n & out & Hn & Hr & Hrun & Hlen & Hn' & Hclean) | [Hno Hrun]].
  - assert (E : stripped buffer = out) by (unfold stripped; by rewrite Hrun).
    rewrite E. split.
    + unfold stripped, stripLayoutTables. rewrite stripTry_numTables, Hn'. simpl.
      rewrite (stripLoop_clean n 12 out out); [done | | done].
      intros i Hi. rewrite Hlen. by apply Hr.
    + intros n0 [Hn0 _]. rewrite Hn' in Hn0. injection Hn0 as <-. done.
  - assert (E : stripped buffer = buffer) by (unfold stripped; by rewrite Hrun).
    rewrite !E. split; [done|].
    intros n Hread. by destruct (Hno n).
Qed.

End SanitizerExtras.

Lemma stripLayoutTables_clean_witness :
  (stripLayoutTables (stripped demoBuffer)).1 = NewBuffer
  ∧ stripped (stripped demoBuffer) = stripped demoBuffer.
Proof.
  apply (stripLayoutTables_clean (stripped demoBuffer) 2%nat).
  - split; [reflexivity|].
    intros i Hi. change (length (stripped demoBuffer)) with 44%nat. lia.
  - intros i Hi.
    destruct i as [|[|i]]; [reflexivity | reflexivity | lia].
Defined.


(** ** Export: names and glyph names *)

Lemma isSafeChar_not_blank (a : ascii) : isSafeChar a = true → isWhitespace a = false.
Proof.
  destruct a as [[] [] [] [] [] [] [] []]; vm_compute; intros H;
    first [reflexivity | discriminate H].
Qed.

Lemma postScriptChar_not_blank (a : ascii) :
  postScriptChar a = true → negb (isWhitespace a) = true.
Proof.
  destruct a as [[] [] [] [] [] [] [] []]; vm_compute; intros H;
    first [reflexivity | discriminate H].
Qed.

Lemma familyChar_visible (a : ascii) :
  familyChar a = true → negb (isWhitespace a) = true → postScriptChar a = true.
Proof.
  destruct a as [[] [] [] [] [] [] [] []]; vm_compute; intros H1 H2;
    first [reflexivity | discriminate H1 | discriminate H2].
Qed.

Lemma with_name_same (g : Glyph) (nm : string) : name g = Some nm → with_name g nm = g.
Proof. destruct g. simpl. by intros ->. Qed.

(** A glyph whose name is safe already is left as it is. *)
Lemma ensureGlyphName_safe (i : nat) (g : Glyph) :
  safeName (name g) → ensureGlyphName i g = g.
Proof.
  intros (s & Hs & Hne & Hall).
  assert (Ha : assignedName i g = s).
  { unfold assignedName. rewrite Hs.
    destruct s as [|a s]; [done|]. simpl in Hall.
    apply andb_true_iff in Hall as [Ha _].
    unfold trimIsEmpty. cbn [allChars].
    by rewrite (isSafeChar_not_blank a Ha). }
  unfold ensureGlyphName. rewrite Ha, (replaceUnsafe_id s Hall).
  destruct s as [|a s]; [done|]. simpl. by apply with_name_same.
Qed.

Lemma ensureGlyphName_name (i : nat) (g : Glyph) : safeName (name (ensureGlyphName i g)).
Proof.
  unfold ensureGlyphName. simpl.
  pose proof (replaceUnsafe_nonempty _ (assignedName_nonempty i g)) as Hne.
  destruct (replaceUnsafe (assignedName i g)) as [|a s] eqn:E; [done|]. simpl.
  eexists. split_and!; [done | done |].
  rewrite <- E. apply replaceUnsafe_safe.
Qed.

(** X18.  [ensureGlyphNames] leaves a glyph whose name is not empty and made of
    letters, digits, periods and underscores as it is, and is idempotent:
    a second pass over the font changes nothing. *)
Theorem ensureGlyphNames_stable (font : Font) :
  (∀ i g, glyphs font !! i = Some g → safeName (name g) →
     glyphs (ensureGlyphNames font) !! i = Some g)
  ∧ ensureGlyphNames (ensureGlyphNames font) = ensureGlyphNames font.
Proof.
  split.
  - intros i g Hg Hsafe.
    rewrite ensureGlyphNames_glyphs, list_lookup_imap, Hg. simpl.
    by rewrite ensureGlyphName_safe.
  - assert (Himap : imap ensureGlyphName (imap ensureGlyphName (glyphs font))
                    = imap ensureGlyphName (glyphs font)).
    { apply list_eq. intros i. rewrite !list_lookup_imap.
      destruct (glyphs font !! i) as [g|]; [|done]. simpl. f_equal.
      apply ensureGlyphName_safe, ensureGlyphName_name. }
    unfold ensureGlyphNames at 1.
    rewrite ensureGlyphNames_glyphs, length_imap.
    destruct (length (glyphs font) =? 0)%nat eqn:El; [done|].
    rewrite Himap. unfold ensureGlyphNames. rewrite El. done.
Qed.

Lemma filterString_all (p : ascii → bool) (s : string) :
  allChars p (filterString p s) = true.
Proof.
  induction s as [|a s IH]; simpl; [done|].
  destruct (p a) eqn:E; [|done]. simpl. by rewrite E.
Qed.

Lemma filterString_id (p : ascii → bool) (s : string) :
  allChars p s = true → filterString p s = s.
Proof.
  induction s as [|a s IH]; simpl; [done|].
  rewrite andb_true_iff. intros [-> Hs]. by rewrite IH.
Qed.

Lemma filterString_visible (s : string) :
  allChars familyChar s = true →
  allChars postScriptChar (filterString (λ a, negb (isWhitespace a)) s) = true.
Proof.
  induction s as [|a s IH]; simpl; [done|].
  rewrite andb_true_iff. intros [Ha Hs].
  destruct (negb (isWhitespace a)) eqn:E; [|by apply IH].
  simpl. by rewrite (familyChar_visible a Ha E), IH.
Qed.

Lemma filterString_filter (p : ascii → bool) (s : string) :
  String.list_ascii_of_string (filterString p s) = List.filter p (String.list_ascii_of_string s).
Proof.
  induction s as [|a s IH]; simpl; [done|].
  destruct (p a); simpl; by rewrite IH.
Qed.

Lemma familyChar_codes (a : ascii) :
  familyChar a
  = (let c := nat_of_ascii a in
     (97 <=? c) && (c <=? 122) || (65 <=? c) && (c <=? 90)
     || (48 <=? c) && (c <=? 57) || (c =? 45) || (c =? 32))%nat.
Proof. by destruct a as [[] [] [] [] [] [] [] []]. Qed.

Lemma familyChar_blank (a : ascii) :
  familyChar a = true → negb (isWhitespace a) = negb (nat_of_ascii a =? 32)%nat.
Proof. destruct a as [[] [] [] [] [] [] [] []]; vm_compute; congruence. Qed.

Lemma allChars_In (p : ascii → bool) (s : string) :
  allChars p s = true → ∀ a, In a (String.list_ascii_of_string s) → p a = true.
Proof.
  induction s as [|b s IH]; simpl; [by intros _ a []|].
  rewrite andb_true_iff. intros [Hb Hs] a [<- | Ha]; [done | by apply IH].
Qed.

(** X19.  [prepareFontForExport] wipes the names and writes six.  The
    family and the full name are the requested name with every character
    removed that is no letter [a-z] or [A-Z], no digit, no hyphen and no
    space, the characters kept staying in their order (the requested name
    itself when it has no other character); the PostScript name is that
    name with its spaces removed; the unique id is made of the PostScript
    name and the time; glyphs and tables are not touched. *)
Theorem prepareFontForExport_names (now : N) (font : Font) (familyName : string) :
  let font' := prepareFontForExport now font familyName in
  ∃ nameStr psName,
    names font' !! "fontFamily" = Some nameStr
    ∧ names font' !! "fullName" = Some nameStr
    ∧ names font' !! "postScriptName" = Some psName
    ∧ names font' !! "uniqueID"
      = Some (String.append "SAAME:"
                (String.append psName (String.append ":" (toString10 (N.to_nat now)))))
    ∧ names font' !! "fontSubfamily" = Some "Regular"
    ∧ names font' !! "version" = Some "Version 1.0 SAAME"
    ∧ String.list_ascii_of_string nameStr
      = List.filter
          (λ a, let c := nat_of_ascii a in
                (97 <=? c) && (c <=? 122) || (65 <=? c) && (c <=? 90)
                || (48 <=? c) && (c <=? 57) || (c =? 45) || (c =? 32))%nat
          (String.list_ascii_of_string familyName)
    ∧ String.list_ascii_of_string psName
      = List.filter (λ a, negb (nat_of_ascii a =? 32)%nat) (String.list_ascii_of_string nameStr)
    ∧ allChars familyChar nameStr = true
    ∧ allChars postScriptChar psName = true
    ∧ (allChars familyChar familyName = true → nameStr = familyName)
    ∧ (allChars postScriptChar familyName = true → psName = familyName)
    ∧ (∀ key, key ∉ ["fontFamily"; "fontSubfamily"; "fullName"; "postScriptName";
                     "uniqueID"; "version"] → names font' !! key = None)
    ∧ glyphs font' = glyphs font ∧ tables font' = tables font.
Proof.
  intros font'. subst font'. unfold prepareFontForExport.
  change (λ a : ascii, isAlnum a || Ascii.eqb a "-" || Ascii.eqb a " ") with familyChar.
  cbv zeta. cbn [names glyphs tables with_names].
  eexists _, _. split_and!.
  - rewrite !lookup_insert_ne by done. apply lookup_insert_eq.
  - rewrite !lookup_insert_ne by done. apply lookup_insert_eq.
  - rewrite !lookup_insert_ne by done. apply lookup_insert_eq.
  - rewrite !lookup_insert_ne by done. apply lookup_insert_eq.
  - rewrite !lookup_insert_ne by done. apply lookup_insert_eq.
  - apply lookup_insert_eq.
  - rewrite filterString_filter. apply List.filter_ext, familyChar_codes.
  - rewrite filterString_filter. apply List.filter_ext_in. intros a Ha.
    apply familyChar_blank.
    by apply (allChars_In familyChar _ (filterString_all familyChar familyName)).
  - apply (filterString_all familyChar).
  - apply filterString_visible, (filterString_all familyChar).
  - intros H. by apply (filterString_id familyChar).
  - intros H.
    assert (Hf : allChars familyChar familyName = true).
    { eapply allChars_impl; [|exact H]. intros a Ha. unfold familyChar.
      unfold postScriptChar in Ha. by rewrite Ha. }
    rewrite (filterString_id familyChar familyName Hf).
    apply filterString_id. eapply allChars_impl; [|exact H].
    apply postScriptChar_not_blank.
  - intros key Hkey.
    rewrite !lookup_insert_ne; [done | ..]; intros <-; apply Hkey;
      apply memberb_elem_of; reflexivity.
  - done.
  - done.
Qed.

Lemma prepareFontForExport_names_witness :
  names (prepareFontForExport 7 demoFont "Caf_e 1") !! "fontFamily" = Some "Cafe 1"
  ∧ names (prepareFontForExport 7 demoFont "Caf_e 1") !! "postScriptName" = Some "Cafe1"
  ∧ names (prepareFontForExport 7 demoFont "Caf_e 1") !! "uniqueID" = Some "SAAME:Cafe1:7".
Proof.
  destruct (prepareFontForExport_names 7 demoFont "Caf_e 1")
    as (nameStr & psName & Hfam & _ & Hps & Hid & _ & _ & Hname & Hpost & _).
  assert (nameStr = "Cafe 1") as ->.
  { rewrite <- (String.string_of_list_ascii_of_string nameStr), Hname. reflexivity. }
  assert (psName = "Cafe1") as ->.
  { rewrite <- (String.string_of_list_ascii_of_string psName), Hpost. reflexivity. }
  by split_and!.
Defined.

(** X20.  The family name [createFontState] makes up, [Original-], [Tracy-] or
    [Sousa-] and the time, goes through [prepareFontForExport] unchanged:
    the rebuilt binary carries, as family, full and PostScript name, the
    very name the application registers the font under. *)
Theorem fullFontFamily_kept (now : N) (font : Font) (baseName : string) (timestamp : N) :
  baseName ∈ ["Original"; "Tracy"; "Sousa"] →
  let font' := prepareFontForExport now font (fullFontFamily baseName timestamp) in
  names font' !! "fontFamily" = Some (fullFontFamily baseName timestamp)
  ∧ names font' !! "fullName" = Some (fullFontFamily baseName timestamp)
  ∧ names font' !! "postScriptName" = Some (fullFontFamily baseName timestamp).
Proof.
  intros Hbase font'.
  assert (Hps : allChars postScriptChar (fullFontFamily baseName timestamp) = true).
  { unfold fullFontFamily. rewrite !allChars_append.
    assert (Hd : allChars postScriptChar (toString10 (N.to_nat timestamp)) = true).
    { eapply allChars_impl; [|apply allChars_toString10].
      intros a Ha. unfold postScriptChar. by rewrite Ha. }
    rewrite Hd.
    repeat (apply elem_of_cons in Hbase as [-> | Hbase]; [reflexivity|]).
    by apply not_elem_of_nil in Hbase. }
  assert (Hf : allChars familyChar (fullFontFamily baseName timestamp) = true).
  { eapply allChars_impl; [|exact Hps]. intros a Ha. unfold familyChar.
    unfold postScriptChar in Ha. by rewrite Ha. }
  subst font'. unfold prepareFontForExport.
  change (λ a : ascii, isAlnum a || Ascii.eqb a "-" || Ascii.eqb a " ") with familyChar.
  cbv zeta. cbn [names glyphs tables with_names].
  rewrite (filterString_id familyChar _ Hf).
  rewrite (filterString_id (λ a, negb (isWhitespace a)) (fullFontFamily baseName timestamp))
    by (eapply allChars_impl; [apply postScriptChar_not_blank | exact Hps]).
  split_and!.
  - rewrite !lookup_insert_ne by done. apply lookup_insert_eq.
  - rewrite !lookup_insert_ne by done. apply lookup_insert_eq.
  - rewrite !lookup_insert_ne by done. apply lookup_insert_eq.
Qed.

Lemma fullFontFamily_kept_witness :
  let font' := prepareFontForExport 5 demoFont (fullFontFamily "Tracy" 1700000000000) in
  names font' !! "fontFamily" = Some (fullFontFamily "Tracy" 1700000000000)
  ∧ names font' !! "fullName" = Some (fullFontFamily "Tracy" 1700000000000)
  ∧ names font' !! "postScriptName" = Some (fullFontFamily "Tracy" 1700000000000).
Proof.
  apply (fullFontFamily_kept 5 demoFont "Tracy" 1700000000000).
  apply list_elem_of_further, list_elem_of_here.
Defined.


(** ** Export: the tables *)

Section TableFacts.

Implicit Types (ts : gmap string (gmap string Q)) (t f : string) (v d : Q).

Lemma lookup_ensureTable_ne t t' ts : t ≠ t' → ensureTable t' ts !! t = ts !! t.
Proof.
  intros H. unfold ensureTable. destruct (ts !! t'); [done|].
  by rewrite lookup_insert_ne.
Qed.

Lemma lookup_setField_ne t t' f v ts : t ≠ t' → setField t' f v ts !! t = ts !! t.
Proof. intros H. unfold setField. by rewrite lookup_alter_ne. Qed.

Lemma lookup_defaultField_ne t t' f d ts : t ≠ t' → defaultField t' f d ts !! t = ts !! t.
Proof.
  intros H. unfold defaultField.
  destruct (getField t' f ts) as [v|]; [destruct (Qeq_bool v 0)|];
    by apply lookup_setField_ne.
Qed.

Lemma lookup_initField_ne t t' f d ts : t ≠ t' → initField t' f d ts !! t = ts !! t.
Proof.
  intros H. unfold initField.
  destruct (getField t' f ts); [done | by apply lookup_setField_ne].
Qed.

Lemma present_ensureTable t ts : is_Some (ensureTable t ts !! t).
Proof.
  unfold ensureTable. destruct (ts !! t) eqn:E; [by rewrite E|].
  by rewrite lookup_insert_eq.
Qed.

Lemma present_ensureTable_other t t' ts :
  is_Some (ts !! t) → is_Some (ensureTable t' ts !! t).
Proof.
  intros H. unfold ensureTable. destruct (ts !! t') eqn:E; [done|].
  destruct (decide (t' = t)) as [->|Hne]; [by rewrite lookup_insert_eq|].
  by rewrite lookup_insert_ne.
Qed.

Lemma present_setField t t' f v ts :
  is_Some (ts !! t) → is_Some (setField t' f v ts !! t).
Proof.
  intros [tb H]. unfold setField.
  destruct (decide (t' = t)) as [->|Hne].
  - rewrite lookup_alter_eq, H. by eexists.
  - rewrite lookup_alter_ne by done. by exists tb.
Qed.

Lemma present_defaultField t t' f d ts :
  is_Some (ts !! t) → is_Some (defaultField t' f d ts !! t).
Proof.
  intros H. unfold defaultField.
  destruct (getField t' f ts) as [v|]; [destruct (Qeq_bool v 0)|];
    by apply present_setField.
Qed.

Lemma present_initField t t' f d ts :
  is_Some (ts !! t) → is_Some (initField t' f d ts !! t).
Proof.
  intros H. unfold initField.
  destruct (getField t' f ts); [done | by apply present_setField].
Qed.

Lemma getField_ensureTable t f t' ts :
  getField t f (ensureTable t' ts) = getField t f ts.
Proof.
  unfold ensureTable, getField. destruct (ts !! t') eqn:E; [done|].
  destruct (decide (t' = t)) as [->|Hne].
  - by rewrite lookup_insert_eq, E.
  - by rewrite lookup_insert_ne.
Qed.

Lemma getField_setField_eq t f v ts :
  is_Some (ts !! t) → getField t f (setField t f v ts) = Some v.
Proof.
  intros [tb H]. unfold getField, setField.
  rewrite lookup_alter_eq, H. simpl. apply lookup_insert_eq.
Qed.

Lemma getField_setField_ne t f t' f' v ts :
  t ≠ t' ∨ f ≠ f' → getField t f (setField t' f' v ts) = getField t f ts.
Proof.
  intros H. unfold getField, setField.
  destruct (decide (t' = t)) as [->|Hne].
  - rewrite lookup_alter_eq. destruct (ts !! t) as [tb|]; [|done]. simpl.
    apply lookup_insert_ne. intros ->. by destruct H.
  - by rewrite lookup_alter_ne.
Qed.

Lemma getField_defaultField_ne t f t' f' d ts :
  t ≠ t' ∨ f ≠ f' → getField t f (defaultField t' f' d ts) = getField t f ts.
Proof.
  intros H. unfold defaultField.
  destruct (getField t' f' ts) as [v|]; [destruct (Qeq_bool v 0)|];
    by apply getField_setField_ne.
Qed.

Lemma getField_initField_ne t f t' f' d ts :
  t ≠ t' ∨ f ≠ f' → getField t f (initField t' f' d ts) = getField t f ts.
Proof.
  intros H. unfold initField.
  destruct (getField t' f' ts); [done | by apply getField_setField_ne].
Qed.

End TableFacts.

Create HintDb tables.
#[local] Hint Resolve present_ensureTable present_ensureTable_other present_setField
  present_defaultField present_initField : tables.

(** Reading a field back through the later writes of the export. *)
Ltac other_field := first [left; discriminate | right; discriminate].
Ltac read_back :=
  repeat first
    [ rewrite getField_setField_ne by other_field
    | rewrite getField_defaultField_ne by other_field
    | rewrite getField_initField_ne by other_field
    | rewrite getField_ensureTable ];
  try (rewrite getField_setField_eq; [reflexivity | eauto 40 with tables]).
Ltac other_table :=
  repeat first
    [ rewrite lookup_setField_ne by done
    | rewrite lookup_defaultField_ne by done
    | rewrite lookup_initField_ne by done
    | rewrite lookup_ensureTable_ne by done ].

(** X21.  Steps 4 to 6 of [createFontUrl] leave the vertical metrics of the
    [os2] and [hhea] tables synchronised with the font: the typographic
    and the Windows ascent and the [hhea] ascender are [font.ascender]
    (800 when it is undefined), the two descenders are [font.descender]
    (-200 when undefined), the Windows descent is its absolute value, the
    line gaps are 0; the [post] table has version 3; and no table other
    than [post], [os2] and [hhea] is touched. *)
Theorem exportTables_metrics (asc desc : option Q) (ts : gmap string (gmap string Q)) :
  let A := default 800 asc in
  let D := default (-200) desc in
  let ts' := exportTables asc desc ts in
  getField "os2" "sTypoAscender" ts' = Some A
  ∧ getField "os2" "usWinAscent" ts' = Some A
  ∧ getField "hhea" "ascender" ts' = Some A
  ∧ getField "os2" "sTypoDescender" ts' = Some D
  ∧ getField "hhea" "descender" ts' = Some D
  ∧ getField "os2" "usWinDescent" ts' = Some (Qabs D)
  ∧ getField "os2" "sTypoLineGap" ts' = Some 0
  ∧ getField "hhea" "lineGap" ts' = Some 0
  ∧ getField "post" "version" ts' = Some 3
  ∧ ∀ t, t ∉ ["post"; "os2"; "hhea"] → ts' !! t = ts !! t.
Proof.
  intros A D ts'. subst A D ts'. unfold exportTables. cbv zeta.
  split_and!; try (read_back; fail).
  intros t Ht.
  assert (H1 : t ≠ "post") by (intros ->; apply Ht, memberb_elem_of; reflexivity).
  assert (H2 : t ≠ "os2") by (intros ->; apply Ht, memberb_elem_of; reflexivity).
  assert (H3 : t ≠ "hhea") by (intros ->; apply Ht, memberb_elem_of; reflexivity).
  by other_table.
Qed.

Lemma downloadTables_fields (asc desc : option Q) (ts : gmap string (gmap string Q)) :
  let A := orDefault asc 800 in
  let D := orDefault desc (-200) in
  let ts' := downloadTables asc desc ts in
  getField "os2" "sTypoAscender" ts' = Some A
  ∧ getField "os2" "sTypoDescender" ts' = Some D
  ∧ getField "os2" "sTypoLineGap" ts' = Some 0
  ∧ getField "os2" "usWinAscent" ts' = Some A
  ∧ getField "os2" "usWinDescent" ts' = Some (Qabs D)
  ∧ getField "hhea" "ascender" ts' = Some A
  ∧ getField "hhea" "descender" ts' = Some D
  ∧ getField "hhea" "lineGap" ts' = Some 0.
Proof.
  intros A D ts'. subst A D ts'. unfold downloadTables. cbv zeta.
  split_and!; read_back.
Qed.

Lemma exportTables_fields (asc desc : option Q) (ts : gmap string (gmap string Q)) :
  let A := default 800 asc in
  let D := default (-200) desc in
  let ts' := exportTables asc desc ts in
  getField "os2" "sTypoAscender" ts' = Some A
  ∧ getField "os2" "sTypoDescender" ts' = Some D
  ∧ getField "os2" "sTypoLineGap" ts' = Some 0
  ∧ getField "os2" "usWinAscent" ts' = Some A
  ∧ getField "os2" "usWinDescent" ts' = Some (Qabs D)
  ∧ getField "hhea" "ascender" ts' = Some A
  ∧ getField "hhea" "descender" ts' = Some D
  ∧ getField "hhea" "lineGap" ts' = Some 0.
Proof.
  intros A D ts'. subst A D ts'. unfold exportTables. cbv zeta.
  split_and!; read_back.
Qed.

(** X22.  The two export paths write the same vertical metrics except for a
    font whose ascender or descender is 0: [createFontUrl] takes the
    default only for an undefined value and writes the 0, [downloadFont]
    takes it for every falsy value and writes 800 or -200. *)
Theorem export_paths_metrics (asc desc : option Q) (ts1 ts2 : gmap string (gmap string Q)) :
  ((∀ q, asc = Some q → Qeq_bool q 0 = false) →
   (∀ q, desc = Some q → Qeq_bool q 0 = false) →
   ∀ t f, (t, f) ∈ verticalFields →
     getField t f (downloadTables asc desc ts1) = getField t f (exportTables asc desc ts2))
  ∧ (asc = Some 0 →
     getField "hhea" "ascender" (exportTables asc desc ts2) = Some 0
     ∧ getField "hhea" "ascender" (downloadTables asc desc ts1) = Some 800)
  ∧ (desc = Some 0 →
     getField "hhea" "descender" (exportTables asc desc ts2) = Some 0
     ∧ getField "hhea" "descender" (downloadTables asc desc ts1) = Some (-200)).
Proof.
  pose proof (downloadTables_fields asc desc ts1) as HD.
  pose proof (exportTables_fields asc desc ts2) as HE.
  cbv zeta in HD, HE.
  destruct HD as (D1 & D2 & D3 & D4 & D5 & D6 & D7 & D8).
  destruct HE as (E1 & E2 & E3 & E4 & E5 & E6 & E7 & E8).
  split_and!.
  - intros Ha Hd t f Hin.
    assert (EA : orDefault asc 800 = default 800 asc).
    { destruct asc as [q|]; [|done]. simpl. by rewrite (Ha q). }
    assert (ED : orDefault desc (-200) = default (-200) desc).
    { destruct desc as [q|]; [|done]. simpl. by rewrite (Hd q). }
    rewrite EA, ED in *.
    unfold verticalFields in Hin.
    repeat (apply elem_of_cons in Hin as [[= -> ->] | Hin]; [congruence|]).
    by apply not_elem_of_nil in Hin.
  - intros ->. by rewrite E6, D6.
  - intros ->. by rewrite E7, D7.
Qed.


(** ** Export: the spacing survives *)

Lemma spacingKept_names (font : Font) :
  spacingKept font (ensureGlyphNames font).
Proof.
  split.
  - unfold ensureGlyphNames. by destruct (length (glyphs font) =? 0)%nat.
  - rewrite ensureGlyphNames_glyphs. apply Forall2_lookup. intros i.
    rewrite list_lookup_imap. destruct (glyphs font !! i) as [g|]; constructor.
    done.
Qed.

Lemma getCharMetrics_spacingKept (getBoundingBox : list Cmd.t → Box.t)
    (font font' : Font) (c : string) :
  spacingKept font font' →
  getCharMetrics getBoundingBox font' c = getCharMetrics getBoundingBox font c.
Proof.
  intros [Hmap Hgs]. unfold getCharMetrics, charToGlyph. rewrite Hmap.
  destruct (cmap font c) as [i|]; [|done].
  rewrite Forall2_lookup in Hgs. specialize (Hgs i).
  destruct Hgs as [g g' (Hc & Hw & _ & _)|]; [|done].
  by rewrite Hc, Hw.
Qed.

Section ExportExtras.

Variable getBoundingBox : list Cmd.t → Box.t.
Variable toArrayBuffer : Font → Completion (option (list byte)).
Variable createObjectURL : list byte → string.

Local Abbreviation exported now font familyName :=
  (fontAfter (createFontUrl toArrayBuffer createObjectURL now font familyName)).

Lemma fontAfter_prepared (now : N) (font : Font) (familyName : string) :
  exported now font familyName = exportPrepared now font familyName.
Proof. unfold createFontUrl. by destruct (createFontUrlTry _ _ _). Qed.

(** X23.  Both export paths leave the spacing as the methods made it, whether
    or not the serializer succeeds afterwards: in the font object they
    leave behind every glyph has the outline, the advance width and the
    code point it had, the character map is the same, and
    [getCharMetrics] reports what it reported.  [createFontUrl] leaves no
    [kern], [gpos], [gsub] or [gdef] table; [downloadFont] removes the
    first three and keeps [gdef]. *)
Theorem export_keeps_spacing (now : N) (font : Font) (familyName suffix : string) :
  spacingKept font (exported now font familyName)
  ∧ spacingKept font (downloadPrepared now font suffix)
  ∧ (∀ c, getCharMetrics getBoundingBox (exported now font familyName) c
          = getCharMetrics getBoundingBox font c)
  ∧ (∀ c, getCharMetrics getBoundingBox (downloadPrepared now font suffix) c
          = getCharMetrics getBoundingBox font c)
  ∧ (∀ t, t ∈ ["kern"; "gpos"; "gsub"; "gdef"] →
       tables (exported now font familyName) !! t = None)
  ∧ (∀ t, t ∈ ["kern"; "gpos"; "gsub"] →
       tables (downloadPrepared now font suffix) !! t = None)
  ∧ tables (downloadPrepared now font suffix) !! "gdef" = tables font !! "gdef".
Proof.
  rewrite fontAfter_prepared.
  assert (H1 : spacingKept font (exportPrepared now font familyName)).
  { unfold exportPrepared. cbv zeta.
    set (font2 := prepareFontForExport _ _ _).
    destruct (spacingKept_names font2) as [Hm Hg]. split; [exact Hm | exact Hg]. }
  assert (H2 : spacingKept font (downloadPrepared now font suffix)).
  { unfold downloadPrepared. cbv zeta.
    set (font2 := prepareFontForExport _ _ _).
    destruct (spacingKept_names font2) as [Hm Hg]. split; [exact Hm | exact Hg]. }
  assert (Ht : ∀ f : Font, tables (ensureGlyphNames f) = tables f).
  { intros f. unfold ensureGlyphNames. by destruct (length (glyphs f) =? 0)%nat. }
  split_and!; [done | done | | | | |].
  - intros c. by apply getCharMetrics_spacingKept.
  - intros c. by apply getCharMetrics_spacingKept.
  - intros t Hin. unfold exportPrepared. cbv zeta. cbn [tables with_tables].
    rewrite Ht. cbn [tables prepareFontForExport with_names with_tables].
    unfold exportTables. cbv zeta.
    repeat (apply elem_of_cons in Hin as [-> | Hin];
      [other_table; rewrite ?lookup_delete_eq, ?lookup_delete_ne by done;
       rewrite ?lookup_delete_eq, ?lookup_delete_ne by done;
       rewrite ?lookup_delete_eq, ?lookup_delete_ne by done;
       rewrite ?lookup_delete_eq; done |]).
    by apply not_elem_of_nil in Hin.
  - intros t Hin. unfold downloadPrepared. cbv zeta. cbn [tables with_tables].
    rewrite Ht. cbn [tables prepareFontForExport with_names with_tables].
    unfold downloadTables. cbv zeta.
    repeat (apply elem_of_cons in Hin as [-> | Hin];
      [other_table; rewrite ?lookup_delete_eq, ?lookup_delete_ne by done;
       rewrite ?lookup_delete_eq, ?lookup_delete_ne by done;
       rewrite ?lookup_delete_eq; done |]).
    by apply not_elem_of_nil in Hin.
  - unfold downloadPrepared. cbv zeta. cbn [tables with_tables].
    rewrite Ht. cbn [tables prepareFontForExport with_names with_tables].
    unfold downloadTables. cbv zeta.
    other_table. by rewrite !lookup_delete_ne by done.
Qed.

End ExportExtras.


(** ** The methods glyph by glyph *)

Section SharedGlyphs.

Variable getBoundingBox : list Cmd.t → Box.t.
Hypothesis bbox_translates : translates getBoundingBox.

Local Abbreviation setSB := (setGlyphSB getBoundingBox).
Local Abbreviation run := (runCalls getBoundingBox).
Local Abbreviation tracy := (applyTracyMethod getBoundingBox).
Local Abbreviation sousa := (applySousaMethod getBoundingBox).


End SharedGlyphs.



(** ** The glyph view and the reported bearings *)

Lemma Math_round_comp (v w : Q) : v == w → Math_round v = Math_round w.
Proof. intros H. unfold Math_round. by rewrite H. Qed.

Section VisualizationExtras.

Variable getBoundingBox : list Cmd.t → Box.t.
Variable toPathData : Glyph → Q → string.

(** The library's box of a path without a point is the all-zero box. *)
Hypothesis bbox_empty : getBoundingBox [] = Box.zero.

(** X26.  [getGlyphData] and [getCharMetrics] tell the same story: the data is
    [null] only for a character without a glyph; otherwise it carries the
    advance width of the glyph and the ascender and descender of the
    font, the reported left bearing is its [xMin] rounded, and the
    reported right bearing is the advance width less its [xMax], rounded,
    except for a glyph without path commands, whose advance width is
    reported as it is. *)
Theorem getGlyphData_agrees (font : Font) (char : string) :
  match getGlyphData getBoundingBox toPathData font char with
  | None => charToGlyph font char = None
  | Some d =>
      ∃ i g, charToGlyph font char = Some (i, g)
        ∧ GlyphData.advanceWidth d = advanceWidth g
        ∧ GlyphData.yMin d = descender font ∧ GlyphData.yMax d = ascender font
        ∧ CharMetrics.lsb (getCharMetrics getBoundingBox font char)
          = Math_round <$> GlyphData.xMin d
        ∧ CharMetrics.rsb (getCharMetrics getBoundingBox font char)
          = if (length (commands g) =? 0)%nat then Some (advanceWidth g)
            else Math_round <$> sub_num (Some (advanceWidth g)) (GlyphData.xMax d)
  end.
Proof.
  unfold getGlyphData, getCharMetrics.
  destruct (charToGlyph font char) as [[i g]|] eqn:Hc; [|done].
  destruct (commands g) as [|cmd rest] eqn:Hcmds.
  - rewrite bbox_empty. simpl. exists i, g. split_and!; try done.
    by rewrite Hcmds.
  - cbn [length Nat.eqb]. rewrite !andb_false_r, orb_false_r.
    destruct (isZero (Box.x1 _) && isZero (Box.x2 _) && isZero (Box.y1 _)
              && isZero (Box.y2 _)) eqn:Hz.
    + apply andb_true_iff in Hz as [Hz _]. apply andb_true_iff in Hz as [Hz _].
      apply andb_true_iff in Hz as [H1 H2].
      apply isZero_true in H1 as (q1 & -> & E1). apply isZero_true in H2 as (q2 & -> & E2).
      exists i, g. cbn. rewrite Hcmds. cbn. split_and!; try done.
      * f_equal. by apply Math_round_comp.
      * f_equal. apply Math_round_comp. by rewrite E2.
    + exists i, g. split_and!; try done. by rewrite Hcmds.
Qed.

End VisualizationExtras.

Lemma getGlyphData_agrees_witness :
  match getGlyphData pointsBoundingBox (λ _ _, "M0 0Z") demoFont "H" with
  | None => charToGlyph demoFont "H" = None
  | Some d =>
      ∃ i g, charToGlyph demoFont "H" = Some (i, g)
        ∧ GlyphData.advanceWidth d = advanceWidth g
        ∧ GlyphData.yMin d = descender demoFont ∧ GlyphData.yMax d = ascender demoFont
        ∧ CharMetrics.lsb (getCharMetrics pointsBoundingBox demoFont "H")
          = Math_round <$> GlyphData.xMin d
        ∧ CharMetrics.rsb (getCharMetrics pointsBoundingBox demoFont "H")
          = if (length (commands g) =? 0)%nat then Some (advanceWidth g)
            else Math_round <$> sub_num (Some (advanceWidth g)) (GlyphData.xMax d)
  end.
Proof.
  apply (getGlyphData_agrees pointsBoundingBox (λ _ _, "M0 0Z") eq_refl demoFont "H").
Defined.


(** ** One-sided calls and glyphs out of reach *)

Section OneSided.

Variable getBoundingBox : list Cmd.t → Box.t.

Local Abbreviation setSB := (setGlyphSB getBoundingBox).
Local Abbreviation run := (runCalls getBoundingBox).

Lemma setGlyphSB_immune (font : Font) (c : string) (l r : option Q) (i : nat) (g : Glyph) :
  glyphs font !! i = Some g →
  isSpace g = true ∨ Box.x1 (getBoundingBox (commands g)) = None
  ∨ Box.x2 (getBoundingBox (commands g)) = None →
  glyphs (setSB font c l r) !! i = Some g.
Proof.
  intros Hi Himm.
  destruct (setGlyphSB_glyphs getBoundingBox font c l r)
    as [-> | (i' & g0 & a & Hc & Hs & Ha & [b Hb] & ->)]; [done|].
  destruct (decide (i' = i)) as [->|Hne].
  - apply charToGlyph_Some in Hc as [_ Hc].
    assert (g0 = g) as -> by congruence.
    destruct Himm as [H | [H | H]]; congruence.
  - by rewrite list_lookup_insert_ne.
Qed.

Lemma runCalls_immune (font : Font) (calls : list Call) (i : nat) (g : Glyph) :
  glyphs font !! i = Some g →
  isSpace g = true ∨ Box.x1 (getBoundingBox (commands g)) = None
  ∨ Box.x2 (getBoundingBox (commands g)) = None →
  glyphs (run font calls) !! i = Some g.
Proof.
  revert font. induction calls as [|[[c l] r] rest IH]; intros font Hi Himm; [done|].
  rewrite runCalls_cons. apply IH; [|done]. by apply setGlyphSB_immune.
Qed.

(** X25.  Out of reach of both methods: a glyph that passes the space test, or
    whose box has a [NaN] side, is after a method the very glyph it was,
    whatever rule or override names a character that resolves to it. *)
Theorem methods_immune (font : Font) (settings : Settings.t) (i : nat) (g : Glyph) :
  glyphs font !! i = Some g →
  isSpace g = true ∨ Box.x1 (getBoundingBox (commands g)) = None
  ∨ Box.x2 (getBoundingBox (commands g)) = None →
  glyphs (applyTracyMethod getBoundingBox font settings) !! i = Some g
  ∧ glyphs (applySousaMethod getBoundingBox font settings) !! i = Some g.
Proof.
  intros Hi Himm. rewrite applyTracyMethod_calls, applySousaMethod_calls.
  split; by apply runCalls_immune.
Qed.

Hypothesis bbox_translates : translates getBoundingBox.


End OneSided.

Lemma methods_immune_witness :
  glyphs (applyTracyMethod pointsBoundingBox demoFont
            (Settings.mk (SB.mk 80 80) (SB.mk 70 70) (SB.mk 40 35) (SB.mk 45 45)
               [(" ", Override.mk (Some 10) (Some 10))])) !! 4%nat
  = Some glyphSpace
  ∧ glyphs (applySousaMethod pointsBoundingBox demoFont
              (Settings.mk (SB.mk 80 80) (SB.mk 70 70) (SB.mk 40 35) (SB.mk 45 45)
                 [(" ", Override.mk (Some 10) (Some 10))])) !! 4%nat
    = Some glyphSpace.
Proof.
  apply (methods_immune pointsBoundingBox demoFont
           (Settings.mk (SB.mk 80 80) (SB.mk 70 70) (SB.mk 40 35) (SB.mk 45 45)
              [(" ", Override.mk (Some 10) (Some 10))]) 4%nat glyphSpace).
  - reflexivity.
  - left. reflexivity.
Defined.

